(** * gmadet: grouping of exposures and the PS1 sky-grid resolver

    A shallow embedding of [gmadet/stacking.py] ([table_obs], [makelists])
    and of [gmadet/ps1_survey.py] ([get_crpix], [ps1_cell_coord],
    [ps1_grid]), together with the properties of these functions.

    Conventions of the embedding.
    - A finite Python float is a rational number and the comparisons the
      code performs on floats ([<], [<=]) are the comparisons of those
      rationals, so right ascensions, declinations and Julian dates are
      values of [Q].  The time in hours, the sum [JD_ref + deltaT] and
      the index of a projection cell are rounded to binary64 ([round64]),
      operation by operation, as the code computes them, as long as they
      stay below the overflow threshold; the other expressions (the
      radius in degrees, the arguments handed to the projection) are
      written in exact arithmetic.
    - An astropy table is the list of its rows, in table order; a boolean
      mask is a predicate on rows, [t[mask]] is [filter mask t], and an
      assignment [t[col][mask] = v] rewrites the rows the mask selects.
    - A Python exception is a value of [exn]; code that can raise returns a
      [result].
    - What astropy, shapely and numpy compute (angular separation, the
      tangent-plane projection, polygon intersection, the text of a
      float) enters as a parameter of the section that uses it. *)

From Stdlib Require Import List ZArith QArith Qabs Qround Qpower String Ascii.
From Stdlib Require Import Bool.
From Stdlib Require Import Lia Lqa Sorted Permutation.
From Stdlib Require Import Decimal DecimalString DecimalPos DecimalZ.
Import ListNotations.

Set Implicit Arguments.

(** ** Python values shared by the two modules *)

Inductive exn : Type :=
| NameError     (* a local variable read before any assignment *)
| IndexError    (* [x[0]] or [x[-1]] on an empty column or list *)
| TypeError     (* [float(col)] on a column that has not exactly one entry *)
| ValueError.   (* [vstack([])]: no values provided to stack *)

Inductive result (A : Type) : Type :=
| Ok (a : A)
| Raise (e : exn).

Arguments Ok {A} a.
Arguments Raise {A} e.

Definition bind {A B : Type} (r : result A) (k : A -> result B) : result B :=
  match r with
  | Ok a => k a
  | Raise e => Raise e
  end.

Notation "'do' x <- r ; k" := (bind r (fun x => k))
  (at level 10, x name, r at level 100, k at level 200).

(** A [for] loop whose body can raise. *)
Fixpoint fold_result {A B : Type} (f : A -> B -> result A) (l : list B)
  (a : A) : result A :=
  match l with
  | [] => Ok a
  | b :: l' => do a' <- f a b; fold_result f l' a'
  end.

(** [x < y] on floats. *)
Definition Qltb (x y : Q) : bool := negb (Qle_bool y x).

(** ** Float arithmetic *)

(** [int(np.rint(x))]: the nearest integer, a half going to the even
    neighbour. *)
Definition rint (x : Q) : Z :=
  let f := Qfloor x in
  let r := x - inject_Z f in
  if Qltb r (1 # 2) then f
  else if Qltb (1 # 2) r then (f + 1)%Z
  else if Z.even f then f else (f + 1)%Z.

(** [2 ** e] *)
Definition pow2 (e : Z) : Q := 2 ^ e.

(** For [x > 0], the exponent [e] with [2 ** e <= x < 2 ** (e + 1)]. *)
Definition ilog2 (x : Q) : Z :=
  let k := (Z.log2 (Qnum x) - Z.log2 (Zpos (Qden x)))%Z in
  if Qle_bool (pow2 k) x then k else (k - 1)%Z.

(** The exponent of the last place of the binary64 numbers next to
    [x > 0]: a significand of 53 bits, and the last place [2 ** -1074] of
    the subnormal numbers below [2 ** -1022]. *)
Definition ulp_exp (x : Q) : Z := Z.max (ilog2 x - 52) (-1074).

(** The multiple of the last place nearest to [x > 0], a half going to
    the even significand. *)
Definition round_pos (x : Q) : Q :=
  let q := ulp_exp x in
  inject_Z (rint (x / pow2 q)) * pow2 q.

(** The binary64 number nearest to [x] (round to nearest, ties to even),
    in lowest terms. *)
Definition round64 (x : Q) : Q :=
  match 0 ?= x with
  | Lt => Qred (round_pos x)
  | Eq => 0
  | Gt => Qred (- round_pos (- x))
  end.

(** [x + y], [x * y] and [x / y] on floats. *)
Definition add64 (x y : Q) : Q := round64 (x + y).
Definition mul64 (x y : Q) : Q := round64 (x * y).
Definition div64 (x y : Q) : Q := round64 (x / y).

(** ** Sorting and grouping keys

    [Table.sort] and the keys of [Table.group_by] are modelled by an
    insertion sort; [group_by(...).groups.keys] lists each distinct key
    once, in ascending order.  The insertion sort leaves rows of equal
    key in the order they had, as numpy's sort does for up to 16 rows;
    with more rows the order numpy leaves them in is not specified, and
    the properties of [table_obs] below use only that the sorted table
    is a permutation of the table, in ascending order of the key. *)

Section Sort.
Variable A : Type.
Variable leb : A -> A -> bool.

Fixpoint insert (x : A) (l : list A) : list A :=
  match l with
  | [] => [x]
  | y :: l' => if leb x y then x :: l else y :: insert x l'
  end.

Fixpoint isort (l : list A) : list A :=
  match l with
  | [] => []
  | x :: l' => insert x (isort l')
  end.

Variable eq_dec : forall x y : A, {x = y} + {x <> y}.

Definition group_keys (l : list A) : list A := isort (nodup eq_dec l).

End Sort.

(** str(n) for a Python int. *)
Definition str_int (n : Z) : string := NilZero.string_of_int (Z.to_int n).

(** [s.zfill(w)]-style left padding with the character 0, as ["%0wd"]
    pads the digits of a non-negative number. *)
Fixpoint zeros (n : nat) : string :=
  match n with
  | O => EmptyString
  | S n' => String "0" (zeros n')
  end.

Definition pad0 (w : nat) (s : string) : string :=
  (zeros (w - String.length s) ++ s)%string.

(** ["%03d" % n]: at least three characters, the sign included. *)
Definition fmt_03d (n : Z) : string :=
  if (n <? 0)%Z
  then String "-" (pad0 2 (str_int (Z.abs n)))
  else pad0 3 (str_int n).

(** [s.replace(c, "")] for a one-character [c]. *)
Fixpoint remove_char (c : ascii) (s : string) : string :=
  match s with
  | EmptyString => EmptyString
  | String a s' =>
      if Ascii.eqb a c then remove_char c s' else String a (remove_char c s')
  end.

(** * stacking.py *)

Module Stacking.

(** What [table_obs] reads of a FITS header.  [hdr_DATE_OBS] is the Julian
    date [time.Time(hdr["DATE-OBS"], format="fits").jd], [None] when the
    keyword is absent or does not parse (the [try] fails); [hdr_JD] is
    [float(hdr["JD"])], [None] when that raises.  The keywords TELESCOP,
    INSTRUME and FILTER are present: a header without one of them makes
    lines 102-104 raise [KeyError] and is not a value of this type, so
    the properties of [table_obs] are about directories of images that
    carry the three keywords. *)
Record header : Type := mkHeader {
  hdr_DATE_OBS : option Q;
  hdr_JD : option Q;
  hdr_CRVAL1 : Q;
  hdr_CRVAL2 : Q;
  hdr_TELESCOP : string;
  hdr_INSTRUME : string;
  hdr_FILTER : string
}.

(** A row of [obs_table]; the columns keep the names of the code. *)
Record row : Type := mkRow {
  idx : nat;
  filename : string;
  Telescope : string;
  Instrument : string;
  Filter : string;
  RA : Q;
  Dec : Q;
  JD : Q;
  fieldID : Z;
  epochID : Z;
  RA_ref : option Q;
  Dec_ref : option Q;
  stack_filename : option string
}.

Definition table : Type := list row.

Definition set_field (f : Z) (ra dec : option Q) (r : row) : row :=
  mkRow (idx r) (filename r) (Telescope r) (Instrument r) (Filter r)
        (RA r) (Dec r) (JD r) f (epochID r) ra dec (stack_filename r).

Definition set_epoch (e : Z) (r : row) : row :=
  mkRow (idx r) (filename r) (Telescope r) (Instrument r) (Filter r)
        (RA r) (Dec r) (JD r) (fieldID r) e (RA_ref r) (Dec_ref r)
        (stack_filename r).

Definition set_stack_filename (s : string) (r : row) : row :=
  mkRow (idx r) (filename r) (Telescope r) (Instrument r) (Filter r)
        (RA r) (Dec r) (JD r) (fieldID r) (epochID r) (RA_ref r) (Dec_ref r)
        (Some s).

(** [t[...][mask] = ...]: the rows selected by [mask] are rewritten. *)
Definition assign_where (mask : row -> bool) (g : row -> row) (t : table)
  : table :=
  map (fun r => if mask r then g r else r) t.

(** [obs_table["idx"] == data["idx"]] *)
Definition mask_idx (data : row) (r : row) : bool := Nat.eqb (idx r) (idx data).

(** ** Lines 80-104: reading the headers

    [hr] is a local of [table_obs] that lives across the iterations of the
    loop: [None] while it has never been assigned.  When neither keyword
    gives a date the code prints a message and goes on, and
    [Time.append(hr)] reads whatever [hr] holds. *)
Definition read_hr (hdr : header) (hr : option Q) : option Q :=
  match hdr_DATE_OBS hdr with
  | Some jd => Some (mul64 jd 24)
  | None =>
      match hdr_JD hdr with
      | Some jd => Some (mul64 jd 24)
      | None => hr
      end
  end.

(** The columns appended for one image, with the zero-initialised
    [fieldID] and [epochID] and the [None] columns of lines 109-116. *)
Definition new_row (i : nat) (ima : string) (hdr : header) (hr : Q) : row :=
  mkRow i ima (hdr_TELESCOP hdr) (hdr_INSTRUME hdr) (hdr_FILTER hdr)
        (hdr_CRVAL1 hdr) (hdr_CRVAL2 hdr) hr 0 0 None None None.

Fixpoint read_images (imgs : list (string * header)) (hr : option Q)
  (i : nat) : result table :=
  match imgs with
  | [] => Ok []
  | (ima, hdr) :: rest =>
      match read_hr hdr hr with
      | None => Raise NameError
      | Some h =>
          do t <- read_images rest (Some h) (S i);
          Ok (new_row i ima hdr h :: t)
      end
  end.

(** [obs_table.sort("JD")] *)
Definition sort_JD (t : table) : table :=
  isort (fun r1 r2 => Qle_bool (JD r1) (JD r2)) t.

(** ** Keys of the groups *)

Definition partkey : Type := (string * string * string)%type.

Definition part_of (r : row) : partkey :=
  (Telescope r, Instrument r, Filter r).

Definition partkey_leb (k1 k2 : partkey) : bool :=
  let '(t1, i1, f1) := k1 in
  let '(t2, i2, f2) := k2 in
  match String.compare t1 t2 with
  | Lt => true
  | Gt => false
  | Eq =>
      match String.compare i1 i2 with
      | Lt => true
      | Gt => false
      | Eq => String.leb f1 f2
      end
  end.

Definition partkey_eq_dec (k1 k2 : partkey) : {k1 = k2} + {k1 <> k2}.
Proof. repeat decide equality. Defined.

(** [obs_table.group_by(["Telescope","Instrument","Filter"]).groups.keys] *)
Definition partition_keys (t : table) : list partkey :=
  group_keys partkey_leb partkey_eq_dec (map part_of t).

(** [t.group_by("fieldID").groups.keys] *)
Definition field_keys (t : table) : list Z :=
  group_keys Z.leb Z.eq_dec (map fieldID t).

(** The mask of lines 158-162 (and 222-226, 289-293). *)
Definition in_partition (k : partkey) (r : row) : bool :=
  let '(tel, inst, filt) := k in
  (String.eqb (Telescope r) tel && String.eqb (Instrument r) inst
   && String.eqb (Filter r) filt)%bool.

Section Clusterer.

(** [SkyCoord(ra1, dec1).separation(SkyCoord(ra2, dec2)).degree] *)
Variable separation : Q * Q -> Q * Q -> Q.

(** ** Lines 187-204: the closest field *)

Record search : Type := mkSearch {
  sep_min : Q;
  field_ref : Z;
  ra_ref : option Q;
  dec_ref : option Q
}.

(** Line 188-189.  [ra_ref] and [dec_ref] hold the column placeholders of
    lines 115-116 until the loop over the fields assigns them. *)
Definition search_init : search := mkSearch 100 (-1) None None.

(** One iteration of the loop of line 190 for the field [key].
    [obs_table[mask3]] has a first row whenever [key] is a key of
    [obs_table[mask2]] (lemma [field_key_rows]), so the other case of the
    [match] is never the one taken. *)
Definition search_step (radius : Q) (t : table) (mask2 : row -> bool)
  (ccrval : Q * Q) (s : search) (key : Z) : search :=
  let mask3 := fun r => (Z.eqb (fieldID r) key && mask2 r)%bool in
  match filter mask3 t with
  | [] => s
  | first :: _ =>
      let sep := separation ccrval (RA first, Dec first) in
      if (Qltb sep radius && Qltb sep (sep_min s))%bool
      then mkSearch sep key (Some (RA first)) (Some (Dec first))
      else mkSearch (sep_min s) (field_ref s)
                    (Some (RA first)) (Some (Dec first))
  end.

Definition mask2_of (mask : row -> bool) (r : row) : bool :=
  (negb (Z.eqb (fieldID r) 0) && mask r)%bool.

Definition closest_field (radius : Q) (mask : row -> bool) (t : table)
  (data : row) : search :=
  let mask2 := mask2_of mask in
  fold_left (search_step radius t mask2 (RA data, Dec data))
            (field_keys (filter mask2 t)) search_init.

(** ** Lines 177-216: one image of the partition *)
Definition assign_field (radius : Q) (mask : row -> bool)
  (st : Z * table) (data : row) : Z * table :=
  let '(field_id, t) := st in
  if Z.eqb (fieldID data) 0 then
    let s := closest_field radius mask t data in
    if negb (Z.eqb (field_ref s) (-1)) then
      (field_id,
       assign_where (mask_idx data)
                    (set_field (field_ref s) (ra_ref s) (dec_ref s)) t)
    else
      ((field_id + 1)%Z,
       assign_where (mask_idx data)
                    (set_field (field_id + 1)
                               (Some (RA data)) (Some (Dec data))) t)
  else st.

(** ** Lines 158-216: the fields of one partition

    The first row of the partition opens field 1; the loop then runs over
    [obs_table[mask]], a copy taken after that assignment.  [key] is a key
    of [obs_table], so the partition has a first row (lemma
    [partition_key_rows]). *)
Definition fields_of_partition (radius : Q) (t : table) (key : partkey)
  : table :=
  let mask := in_partition key in
  match filter mask t with
  | [] => t
  | first :: _ =>
      let field_id := 1%Z in
      let t1 := assign_where (mask_idx first)
                  (set_field field_id (Some (RA first)) (Some (Dec first))) t in
      snd (fold_left (assign_field radius mask) (filter mask t1) (field_id, t1))
  end.

(** ** Lines 228-240: the epochs of one field *)
Definition assign_epoch (deltaT : Q) (st : Q * Z * table) (data : row)
  : Q * Z * table :=
  let '(JD_ref, epoch_id, t) := st in
  if Qle_bool (JD data) (add64 JD_ref deltaT) then
    (JD_ref, epoch_id, assign_where (mask_idx data) (set_epoch epoch_id) t)
  else
    (JD data, (epoch_id + 1)%Z,
     assign_where (mask_idx data) (set_epoch (epoch_id + 1)) t).

Definition mask_field_of (mask : row -> bool) (field_id : Z) (r : row)
  : bool :=
  (Z.eqb (fieldID r) field_id && mask r)%bool.

(** [field_id] is a key of [obs_table[mask]], so [obs_table[mask_field]]
    has a first row (lemma [field_key_rows]). *)
Definition epochs_of_field (deltaT : Q) (mask : row -> bool) (t : table)
  (field_id : Z) : table :=
  let rows := filter (mask_field_of mask field_id) t in
  match rows with
  | [] => t
  | first :: _ => snd (fold_left (assign_epoch deltaT) rows (JD first, 1%Z, t))
  end.

(** ** Lines 219-240: the epochs of one partition *)
Definition epochs_of_partition (deltaT : Q) (t : table) (key : partkey)
  : table :=
  let mask := in_partition key in
  fold_left (epochs_of_field deltaT mask) (field_keys (filter mask t)) t.

(** ** Lines 155-216 ("Group by field of view") and 219-240 ("Group
    fields by epochs"): the two loops over the partitions *)
Definition group_fields (radius : Q) (t : table) : table :=
  fold_left (fields_of_partition radius) (partition_keys t) t.

Definition group_epochs (deltaT : Q) (t : table) : table :=
  fold_left (epochs_of_partition deltaT) (partition_keys t) t.

(** ** Lines 152-242 *)
Definition group_table (radius deltaT : Q) (t0 : table) : table :=
  group_epochs deltaT (group_fields radius (sort_JD t0)).

(** [table_obs], on the images that [list_files] found.  When it found
    none the table has no row, and the [group_by] of line 155 raises
    [IndexError]. *)
Definition table_obs (imgs : list (string * header)) (radius deltaT : Q)
  : result table :=
  do t <- read_images imgs None 0;
  match t with
  | [] => Raise IndexError
  | _ => Ok (group_table radius deltaT t)
  end.

(** ** [makelists], lines 279-334

    The manifest is the list of the writes of [.list] files, in the order
    they are made, each with the name of the file (without the extension)
    and the file names written to it; [fields.slist] is the sequence of
    these names.  A name can come twice: the second [open(..., "w")]
    then replaces the file of the first.  What [mkdir_p] and [open] raise
    when the file system refuses is not part of the embedding. *)

(** [str(np.round(x, 3))] *)
Variable str_round3 : Q -> string.

Definition group_name (tel band : string) (ra dec : Q)
  (field_id epoch_id : Z) : string :=
  (remove_char " " tel ++ "_" ++ remove_char " " band ++ "_"
   ++ remove_char "." (str_round3 ra) ++ "_"
   ++ remove_char "." (str_round3 dec)
   ++ "_field_" ++ fmt_03d field_id ++ "_" ++ fmt_03d epoch_id)%string.

Definition ZZ_leb (a b : Z * Z) : bool :=
  match Z.compare (fst a) (fst b) with
  | Lt => true
  | Gt => false
  | Eq => Z.leb (snd a) (snd b)
  end.

Definition ZZ_eq_dec (a b : Z * Z) : {a = b} + {a <> b}.
Proof. repeat decide equality. Defined.

(** [t.group_by(["fieldID", "epochID"]).groups.keys] *)
Definition field_epoch_keys (t : table) : list (Z * Z) :=
  group_keys ZZ_leb ZZ_eq_dec (map (fun r => (fieldID r, epochID r)) t).

Definition manifest : Type := list (string * list string).

(** Lines 298-333.  [x[mask_field][0]] raises on an empty selection and
    [np.round] raises on the [None] of an unassigned reference. *)
Definition write_list (mask : row -> bool) (st : manifest * table)
  (key : Z * Z) : result (manifest * table) :=
  let '(lists, fields) := st in
  let '(field_id, epoch_id) := key in
  let mask_field := fun r =>
    (Z.eqb (fieldID r) field_id && Z.eqb (epochID r) epoch_id && mask r)%bool in
  match filter mask_field fields with
  | [] => Raise IndexError
  | first :: _ =>
      match RA_ref first, Dec_ref first with
      | Some ra, Some dec =>
          let name := group_name (Telescope first) (Filter first) ra dec
                                 field_id epoch_id in
          let rows := filter mask_field fields in
          Ok (lists ++ [(name, map filename rows)],
              fold_left (fun t data =>
                           assign_where (mask_idx data)
                                        (set_stack_filename name) t)
                        rows fields)
      | _, _ => Raise TypeError
      end
  end.

Definition lists_of_partition (st : manifest * table) (key : partkey)
  : result (manifest * table) :=
  let mask := in_partition key in
  fold_result (write_list mask) (field_epoch_keys (filter mask (snd st))) st.

Definition makelists (imgs : list (string * header)) (radius deltaT : Q)
  : result manifest :=
  let radius := radius / 60 in
  do fields <- table_obs imgs radius deltaT;
  do st <- fold_result lists_of_partition (partition_keys fields)
                       ([], fields);
  Ok (fst st).

End Clusterer.

(** The separation of two positions on the celestial equator whose right
    ascensions lie in [0, 360]: the difference of the right ascensions,
    taken the short way round.  The scenarios below place every image at
    declination 0, where this is the great-circle separation. *)
Definition separation_equator (c1 c2 : Q * Q) : Q :=
  let d := Qabs (fst c1 - fst c2) in
  if Qle_bool d 180 then d else Qabs (360 - d).

End Stacking.

(** * ps1_survey.py *)

Module PS1.

(** A row of the grid catalog [ps1_survey/ps1grid.fits]; the file is not
    part of the sources, so the catalog is an argument of [ps1_grid]. *)
Record zone : Type := mkZone {
  ZONE : Z;
  PROJCELL : Q;
  NBAND : Q;
  DEC : Q;
  XCELL : Q;
  YCELL : Q;
  CRPIX1 : Q;
  CRPIX2 : Q;
  DEC_MIN : Q;
  DEC_MAX : Q
}.

(** The four corners of the image, as (RA, Dec) pairs;
    [im_corner_coords[0]] holds the right ascensions and
    [im_corner_coords[1]] the declinations. *)
Record footprint : Type := mkFootprint {
  corner1 : Q * Q;
  corner2 : Q * Q;
  corner3 : Q * Q;
  corner4 : Q * Q
}.

Definition corners (im : footprint) : list (Q * Q) :=
  [corner1 im; corner2 im; corner3 im; corner4 im].

(** A row of the table [ps1_cell_coord] returns. *)
Record skycell : Type := mkSkycell {
  projcell_id : string;
  cell_id : string;
  RA_min : Q;
  RA_max : Q;
  dec_min : Q;
  dec_max : Q
}.

Definition Qmin (x y : Q) : Q := if Qle_bool x y then x else y.
Definition Qmax (x y : Q) : Q := if Qle_bool x y then y else x.

(** [np.min] and [np.max] of the four values of a corner array. *)
Definition min4 (a b c d : Q) : Q := Qmin (Qmin (Qmin a b) c) d.
Definition max4 (a b c d : Q) : Q := Qmax (Qmax (Qmax a b) c) d.

(** [np.arange(a, b)] on integers. *)
Definition arange (a b : Z) : list Z :=
  map (fun i => (a + Z.of_nat i)%Z) (seq 0 (Z.to_nat (b - a))).

(** [range(n)] *)
Definition range (n : nat) : list Z := map Z.of_nat (seq 0 n).

(** [x[0]] and [x[-1]] *)
Definition first {A : Type} (l : list A) : result A :=
  match l with
  | [] => Raise IndexError
  | a :: _ => Ok a
  end.

Fixpoint last {A : Type} (l : list A) : result A :=
  match l with
  | [] => Raise IndexError
  | [a] => Ok a
  | _ :: l' => last l'
  end.

(** [float(col)] on a table column: defined for a column of one entry. *)
Definition float_col (col : list Q) : result Q :=
  match col with
  | [x] => Ok x
  | _ => Raise TypeError
  end.

(** [vstack(tables)] *)
Definition vstack (tables : list (list skycell)) : result (list skycell) :=
  match tables with
  | [] => Raise ValueError
  | _ => Ok (List.concat tables)
  end.

(** [get_crpix] *)
Definition get_crpix (proj_crpix1 proj_crpix2 Xcell Ycell : Q) (x y : Z)
  : Q * Q :=
  let x_center := 5 in
  let y_center := 5 in
  let cprix1 := proj_crpix1 + (x_center - inject_Z x) * (Xcell - 480) in
  let crpix2 := proj_crpix2 + (y_center - inject_Z y) * (Ycell - 480) in
  (cprix1, crpix2).

Section Resolver.

(** [w.wcs_pix2world(pixcrd, 1)] for the tangent-plane system with
    reference pixel [crpix], reference value [crval] and the pixel scale
    [cdelt]: the world coordinates of one pixel position. *)
Variable wcs_pix2world :
  forall (crpix : Q * Q) (cdelt : Q * Q) (crval : Q * Q) (pix : Q * Q), Q * Q.

(** [Polygon(p).intersects(Polygon(q))] *)
Variable intersects : list (Q * Q) -> list (Q * Q) -> bool.

(** [get_RADEC_coord]: the world coordinates of the four corners of a
    sub-cell (the returned WCS object is not used by the caller). *)
Definition get_RADEC_coord (proj_crpix1 proj_crpix2 Xcell Ycell : Q)
  (x y : Z) (RA Dec : Q) : list (Q * Q) :=
  let pixscale := 0.25 / 3600 in
  let crpix := get_crpix proj_crpix1 proj_crpix2 Xcell Ycell x y in
  let pixcrd := [(0, 0); (Xcell, 0); (Xcell, Ycell); (0, Ycell)] in
  map (wcs_pix2world crpix (- pixscale, pixscale) (RA, Dec)) pixcrd.

(** Lines 65-69 *)
Definition projcell_str (projcell_id : Z) : string :=
  if (projcell_id <? 1000)%Z
  then ("0" ++ str_int projcell_id)%string
  else str_int projcell_id.

(** ['0%d%d' % (y, x)] *)
Definition cell_str (y x : Z) : string :=
  ("0" ++ str_int y ++ str_int x)%string.

(** Lines 79-96: the sub-cell (y, x) *)
Definition cell_rows (im : footprint) (projcell_id : Z) (Xcell Ycell : Q)
  (projcell_ra_center projcell_dec_center proj_crpix1 proj_crpix2 : Q)
  (y x : Z) : list skycell :=
  let corner_coords :=
    get_RADEC_coord proj_crpix1 proj_crpix2 Xcell Ycell x y
                    projcell_ra_center projcell_dec_center in
  if intersects (corners im) corner_coords then
    match corner_coords with
    | [c1; c2; c3; c4] =>
        [mkSkycell (projcell_str projcell_id) (cell_str y x)
           (min4 (fst c1) (fst c2) (fst c3) (fst c4))
           (max4 (fst c1) (fst c2) (fst c3) (fst c4))
           (min4 (snd c1) (snd c2) (snd c3) (snd c4))
           (max4 (snd c1) (snd c2) (snd c3) (snd c4))]
    | _ => []
    end
  else [].

(** [ps1_cell_coord] *)
Definition ps1_cell_coord (im : footprint) (projcell_id : Z)
  (Xcell Ycell : Q)
  (projcell_ra_center projcell_dec_center proj_crpix1 proj_crpix2 : Q)
  : list skycell :=
  let ny := 10%nat in
  let nx := 10%nat in
  flat_map (fun y =>
    flat_map (fun x =>
      cell_rows im projcell_id Xcell Ycell projcell_ra_center
                projcell_dec_center proj_crpix1 proj_crpix2 y x)
      (range nx))
    (range ny).

(** ** [ps1_grid] *)

(** Line 124 *)
Definition zone_mask (dec_min dec_max : Q) (z : zone) : bool :=
  ((Qltb (DEC_MIN z) dec_min && Qltb dec_min (DEC_MAX z))
   || (Qltb (DEC_MIN z) dec_max && Qltb dec_max (DEC_MAX z)))%bool.

(** Line 127 *)
Definition all_zones_id (ps1grid : list zone) (dec_min dec_max : Q)
  : result (list Z) :=
  let sel := map ZONE (filter (zone_mask dec_min dec_max) ps1grid) in
  do z0 <- first sel;
  do z1 <- last sel;
  Ok (arange z0 (z1 + 1)).

(** Lines 137-145, for one of the two right ascensions. *)
Definition projcell_step (rows : list zone) (st : list Z * Z) (ra : Q)
  : result (list Z * Z) :=
  let '(projcell_idx_list, idx_bkp) := st in
  do projcell <- float_col (map PROJCELL rows);
  do nband <- float_col (map NBAND rows);
  let closet_projcell_idx := add64 projcell (div64 (mul64 ra nband) 360) in
  let projcell_idx := rint closet_projcell_idx in
  Ok (if negb (Z.eqb projcell_idx idx_bkp)
      then projcell_idx_list ++ [projcell_idx]
      else projcell_idx_list,
      projcell_idx).

(** Lines 148-161, for one candidate cell. *)
Definition cell_step (im : footprint) (rows : list zone)
  (all_cells : list (list skycell)) (cell_id : Z)
  : result (list (list skycell)) :=
  do projcell <- float_col (map PROJCELL rows);
  do nband <- float_col (map NBAND rows);
  do xcell <- float_col (map XCELL rows);
  do ycell <- float_col (map YCELL rows);
  do dec <- float_col (map DEC rows);
  do crpix1 <- float_col (map CRPIX1 rows);
  do crpix2 <- float_col (map CRPIX2 rows);
  let diff_projcell_idx := inject_Z cell_id - projcell in
  let ra_center_projcell := diff_projcell_idx * 360 / nband in
  let cell_query :=
    ps1_cell_coord im cell_id xcell ycell ra_center_projcell dec
                   crpix1 crpix2 in
  Ok (if (0 <? List.length cell_query)%nat
      then all_cells ++ [cell_query]
      else all_cells).

(** The state of the loop over the zones: [projcell_idx_list] and
    [all_cells], which are created before the loop (lines 130-131), and a
    record of the [total_proj_cell_idx] examined for each zone, kept for
    the statements below (the code does not store it). *)
Record loop_state : Type := mkState {
  projcell_idx_list : list Z;
  all_cells : list (list skycell);
  examined : list (Z * list Z)
}.

(** Lines 134-161: one zone. *)
Definition zone_step (ps1grid : list zone) (im : footprint)
  (ra_min ra_max : Q) (st : loop_state) (zone_id : Z) : result loop_state :=
  let rows := filter (fun z => Z.eqb (ZONE z) zone_id) ps1grid in
  let idx_bkp := (-1)%Z in
  do p <- fold_result (projcell_step rows) [ra_min; ra_max]
            (projcell_idx_list st, idx_bkp);
  let l := fst p in
  do lo <- first l;
  do hi <- last l;
  let total_proj_cell_idx := arange lo (hi + 1) in
  do cells <- fold_result (cell_step im rows) total_proj_cell_idx
                (all_cells st);
  Ok (mkState l cells (examined st ++ [(zone_id, total_proj_cell_idx)])).

Definition ps1_loop (ps1grid : list zone) (im : footprint)
  : result loop_state :=
  let ra := fun c => fst (c im) in
  let de := fun c => snd (c im) in
  let ra_min := min4 (ra corner1) (ra corner2) (ra corner3) (ra corner4) in
  let ra_max := max4 (ra corner1) (ra corner2) (ra corner3) (ra corner4) in
  let dec_min := min4 (de corner1) (de corner2) (de corner3) (de corner4) in
  let dec_max := max4 (de corner1) (de corner2) (de corner3) (de corner4) in
  do zones <- all_zones_id ps1grid dec_min dec_max;
  fold_result (zone_step ps1grid im ra_min ra_max) zones
                       (mkState [] [] []).

(** Lines 163-168 *)
Definition ps1_grid (ps1grid : list zone) (im : footprint)
  : result (list skycell) :=
  do st <- ps1_loop ps1grid im;
  match all_cells st with
  | [cells] => Ok cells
  | tables => vstack tables
  end.

End Resolver.

End PS1.

(** * Concrete catalogs and images used by the scenarios *)

Module Scenario.

Import PS1.
Open Scope string_scope.

(** Three adjacent declination zones of four degrees, 72 projection cells
    per zone. *)
Definition zone0 : zone := mkZone 0 100 72 2 6000 6000 3000 3000 0 4.
Definition zone1 : zone := mkZone 1 172 72 6 6000 6000 3000 3000 4 8.
Definition zone2 : zone := mkZone 2 244 72 10 6000 6000 3000 3000 8 12.
Definition grid : list zone := [zone0; zone1; zone2].

(** RA 10 to 11, Dec 3 to 5: across the boundary of zones 0 and 1. *)
Definition im_two_zones : footprint :=
  mkFootprint (10, 3) (11, 3) (11, 5) (10, 5).

(** RA 10 to 11, Dec 4 to 8: exactly the declinations of zone 1. *)
Definition im_whole_zone : footprint :=
  mkFootprint (10, 4) (11, 4) (11, 8) (10, 8).

(** RA 10 to 11, Dec 4 to 9: all of zone 1 and the first degree of
    zone 2. *)
Definition im_from_boundary : footprint :=
  mkFootprint (10, 4) (11, 4) (11, 9) (10, 9).

(** RA 10 to 11, Dec -1 to 6: from below the catalog, across zone 0, into
    zone 1. *)
Definition im_below_grid : footprint :=
  mkFootprint (10, -1) (11, -1) (11, 6) (10, 6).

(** RA 10 to 11, Dec 1 to 3: inside zone 0. *)
Definition im_one_zone : footprint :=
  mkFootprint (10, 1) (11, 1) (11, 3) (10, 3).

(** RA 10 to 11, Dec 0 to 12: the declinations of the whole catalog. *)
Definition im_whole_grid : footprint :=
  mkFootprint (10, 0) (11, 0) (11, 12) (10, 12).

(** RA 2.5 + 2 ** -51 to 3, Dec 1 to 3: inside zone 0.  In binary64 the
    smallest right ascension gives 100 + ra * 72 / 360 = 100.5, a tie
    that [rint] rounds to 100; the sum of the three numbers is a little
    above 100.5. *)
Definition im_tie : footprint :=
  mkFootprint ((5 # 2) + (1 # 2251799813685248), 1) (3, 1) (3, 3)
              ((5 # 2) + (1 # 2251799813685248), 3).

(** A projection that sends every pixel to the reference point. *)
Definition flat_projection (crpix cdelt crval pix : Q * Q) : Q * Q := crval.

(** A projection that is linear in the pixel offsets, as the
    tangent-plane projection is to first order next to the reference
    point. *)
Definition linear_projection (crpix cdelt crval pix : Q * Q) : Q * Q :=
  (fst crval + (fst pix - fst crpix) * fst cdelt,
   snd crval + (snd pix - snd crpix) * snd cdelt).

(** The smallest and the largest of the numbers of a list. *)
Definition lowest (l : list Q) : Q := fold_right Qmin (hd 0 l) l.
Definition highest (l : list Q) : Q := fold_right Qmax (hd 0 l) l.

(** Two polygons whose extents in right ascension and in declination
    meet.  For rectangles with sides along the axes, which is what
    [linear_projection] makes of the sub-cells, this is whether the
    polygons have a point in common. *)
Definition extents_meet (p q : list (Q * Q)) : bool :=
  (Qle_bool (lowest (map fst p)) (highest (map fst q))
   && Qle_bool (lowest (map fst q)) (highest (map fst p))
   && Qle_bool (lowest (map snd p)) (highest (map snd q))
   && Qle_bool (lowest (map snd q)) (highest (map snd p)))%bool.

(** A polygon test for the image that meets every sub-cell it is tried
    against, and the table [ps1_grid] then returns for the image inside
    zone 0. *)
Definition all_overlap (p q : list (Q * Q)) : bool := true.

Definition cells_one_zone : list skycell :=
  Eval vm_compute in
    match ps1_grid flat_projection all_overlap grid im_one_zone with
    | Ok cells => cells
    | Raise _ => []
    end.

Definition first_cell : skycell :=
  Eval vm_compute in
    hd (mkSkycell EmptyString EmptyString 0 0 0 0) cells_one_zone.

(** The table [ps1_grid] returns for the image inside zone 0 with the
    linear projection and the test of the extents, and its second
    row. *)
Definition cells_met : list skycell :=
  Eval vm_compute in
    match ps1_grid linear_projection extents_meet grid im_one_zone with
    | Ok cells => cells
    | Raise _ => []
    end.

Definition cell_023 : skycell :=
  Eval vm_compute in
    nth 1 cells_met (mkSkycell EmptyString EmptyString 0 0 0 0).

(** Images of one telescope and filter, all at declination 0, taken at
    Julian dates 2459000, 2459000.01 and 2459000.02. *)
Definition image (name : string) (jd ra : Q) (inst : string)
  : string * Stacking.header :=
  (name, Stacking.mkHeader (Some jd) None ra 0 "T" inst "F").

(** An image whose header has neither [DATE-OBS] nor [JD]. *)
Definition image_without_date (name : string) (ra : Q)
  : string * Stacking.header :=
  (name, Stacking.mkHeader None None ra 0 "T" "I" "F").

Definition jd0 : Q := 2459000.
Definition jd1 : Q := 245900001 # 100.
Definition jd2 : Q := 245900002 # 100.

(** Two fields 50 degrees apart and a third image 0.1 degree from the
    first. *)
Definition three_images : list (string * Stacking.header) :=
  [image "a.fits" jd0 0 "I"; image "b.fits" jd1 50 "I";
   image "c.fits" jd2 (1 # 10) "I"].

(** The second image has no date. *)
Definition undated_second : list (string * Stacking.header) :=
  [image "a.fits" jd0 10 "I"; image_without_date "b.fits" 10].

(** The first image has no date. *)
Definition undated_first : list (string * Stacking.header) :=
  [image_without_date "a.fits" 10; image "b.fits" jd0 10 "I"].

(** Two images at the same position. *)
Definition same_position : list (string * Stacking.header) :=
  [image "a.fits" jd0 10 "I"; image "b.fits" jd1 10 "I"].

(** Two images at the same position, taken with two instruments of the
    same telescope through the same filter. *)
Definition two_instruments : list (string * Stacking.header) :=
  [image "a.fits" jd0 10 "I1"; image "b.fits" jd1 10 "I2"].

(** The tables [table_obs] returns for [three_images], with a radius of
    one degree, and for [same_position], with a radius of 0; the epochs
    are one hour long. *)
Definition table_three : Stacking.table :=
  Eval vm_compute in
    match Stacking.table_obs Stacking.separation_equator three_images 1 1 with
    | Ok t => t
    | Raise _ => []
    end.

Definition table_same : Stacking.table :=
  Eval vm_compute in
    match Stacking.table_obs Stacking.separation_equator same_position 0 1 with
    | Ok t => t
    | Raise _ => []
    end.

(** The row of the third image, c.fits, in [table_three]. *)
Definition row_c : Stacking.row :=
  Eval vm_compute in
    nth 2 table_three
        (Stacking.mkRow 0 "" "" "" "" 0 0 0 0 0 None None None).

End Scenario.

(** * ps1_survey.py: the files of the sub-cells

    [download_ps1_cells] and [prepare_PS1_sub] act on the file system
    and run commands.  The state they act on is a [world]; what
    [os.path.isfile], [os.path.isdir], [os.makedirs] and [os.system] do
    to it, and what [linear_rescale_ps1], [scamp] and
    [create_ps1_mosaic] do, are parameters.  What the functions print is
    left out. *)

(** [s.startswith(p)] *)
Fixpoint starts_with (p s : string) : bool :=
  match p with
  | EmptyString => true
  | String a p' =>
      match s with
      | EmptyString => false
      | String b s' => (Ascii.eqb a b && starts_with p' s')%bool
      end
  end.

(** [s.replace(old, new)] for a non-empty [old]: the occurrences of
    [old] are replaced from the left, and an occurrence that overlaps a
    replaced one is not one.  [skip] counts the characters of the
    occurrence just replaced that are still to pass. *)
Fixpoint replace_from (skip : nat) (old new s : string) : string :=
  match s with
  | EmptyString => EmptyString
  | String c s' =>
      match skip with
      | S k => replace_from k old new s'
      | O =>
          if starts_with old s
          then (new ++ replace_from (String.length old - 1) old new s')%string
          else String c (replace_from 0 old new s')
      end
  end.

Definition replace (old new s : string) : string := replace_from 0 old new s.

(** [s.split(c)[0]] for a one-character [c]: what comes before the
    first [c], all of [s] when it has none. *)
Fixpoint split_head (c : ascii) (s : string) : string :=
  match s with
  | EmptyString => EmptyString
  | String a s' =>
      if Ascii.eqb a c then EmptyString else String a (split_head c s')
  end.

(** [os.path.split(p)]: [tail] is what follows the last slash, [head]
    what comes before it, without the slashes it ends with unless it is
    made of slashes only. *)
Fixpoint split_last_slash (p : string) : string * string :=
  match p with
  | EmptyString => (EmptyString, EmptyString)
  | String a p' =>
      let '(head, tail) := split_last_slash p' in
      if Ascii.eqb a "/" then
        (String a head, tail)
      else
        match head with
        | EmptyString => (EmptyString, String a tail)
        | _ => (String a head, tail)
        end
  end.

Fixpoint all_slashes (s : string) : bool :=
  match s with
  | EmptyString => true
  | String a s' => (Ascii.eqb a "/" && all_slashes s')%bool
  end.

(** [s.rstrip("/")] *)
Fixpoint rstrip_slash (s : string) : string :=
  match s with
  | EmptyString => EmptyString
  | String a s' =>
      match rstrip_slash s' with
      | EmptyString => if Ascii.eqb a "/" then EmptyString
                       else String a EmptyString
      | t => String a t
      end
  end.

Definition os_path_split (p : string) : string * string :=
  let '(head, tail) := split_last_slash p in
  (if all_slashes head then head else rstrip_slash head, tail).

Module PS1Files.

Import PS1.
Open Scope string_scope.

(** Line 179 *)
Definition BaseURL : string := "http://ps1images.stsci.edu/".

(** Lines 182-183 *)
Definition cell_url_path (cell : skycell) : string :=
  "rings.v3.skycell/" ++ projcell_id cell ++ "/" ++ cell_id cell ++ "/".

(** Lines 186-189 *)
Definition cell_file (cell : skycell) (band aux : string) : string :=
  "rings.v3.skycell." ++ projcell_id cell ++ "." ++ cell_id cell
  ++ ".stk." ++ band ++ ".unconv" ++ aux ++ ".fits".

(** Line 191 *)
Definition local_cell_file (cell : skycell) (band aux : string) : string :=
  replace "_fits" ".fits" (replace "." "_" (cell_file cell band aux)).

(** Lines 197, 201 and 204 *)
Definition curl_command (FileNameFitsPath Link : string) : string :=
  "curl -m 7200 -L -o " ++ FileNameFitsPath ++ " " ++ Link.

Definition funpack_command (FileNameFitsPath : string) : string :=
  "fpack " ++ FileNameFitsPath ++ "; rm " ++ FileNameFitsPath
  ++ "; funpack " ++ FileNameFitsPath ++ ".fz".

Definition rm_command (FileNameFitsPath : string) : string :=
  "rm " ++ FileNameFitsPath ++ ".fz".

(** [linear_rescale_ps1], line 342: the file the mask of the rescaled
    image [filename] is written to. *)
Definition rescaled_mask_file (outputDir filename : string) : string :=
  outputDir ++ split_head "." filename ++ "_mask.fits".

(** [prepare_PS1_sub], lines 254-257: the files taken two by two;
    [ps1files[i+1]] raises when the list has an odd length. *)
Fixpoint pairs_of (inputimage : string) (ps1files : list string)
  : result (list (string * string * string)) :=
  match ps1files with
  | [] => Ok []
  | [ref] => Raise IndexError
  | ref :: mask :: rest =>
      do subfiles <- pairs_of inputimage rest;
      Ok ((inputimage, ref, mask) :: subfiles)
  end.

Section Download.

Variable world : Type.

(** [os.path.isfile], [os.path.isdir], [os.makedirs], [os.system] *)
Variable isfile : world -> string -> bool.
Variable isdir : world -> string -> bool.
Variable makedirs : string -> world -> world.
Variable system : string -> world -> world.

(** [linear_rescale_ps1(filename, inputDir, outputDir, band)], and
    [scamp(filename, load_config('PS1'), accuracy=0.1, itermax=3,
    band=band, verbose='QUIET')] of [astrometry], which can raise. *)
Variable linear_rescale_ps1 :
  string -> string -> string -> string -> world -> result world.
Variable scamp : string -> string -> world -> result world.

(** [create_ps1_mosaic(file_list, inputimage, outputDir, config, band,
    verbose)], which returns the list [imagefiles]. *)
Variable create_ps1_mosaic :
  list string -> string -> string -> string -> world
  -> result (list string * world).

(** Lines 185-221: one cell and one of the two files of the cell. *)
Definition download_file (band ps1Dir ps1RescaledDir : string)
  (cell : skycell) (st : list string * world) (aux : string)
  : result (list string * world) :=
  let '(file_list, w) := st in
  let Link := BaseURL ++ cell_url_path cell ++ cell_file cell band aux in
  let local_cell_file := local_cell_file cell band aux in
  let FileNameFitsPath := ps1Dir ++ local_cell_file in
  let w1 :=
    if isfile w FileNameFitsPath then w
    else
      let w' := system (curl_command FileNameFitsPath Link) w in
      if isfile w' FileNameFitsPath
      then system (rm_command FileNameFitsPath)
                  (system (funpack_command FileNameFitsPath) w')
      else w' in
  do w2 <-
    (if String.eqb aux "" then
       if isfile w1 FileNameFitsPath then
         if isfile w1 (ps1RescaledDir ++ local_cell_file) then Ok w1
         else
           do w' <- linear_rescale_ps1 local_cell_file ps1Dir
                                       ps1RescaledDir band w1;
           scamp (ps1RescaledDir ++ local_cell_file) band w'
       else Ok w1
     else Ok w1);
  Ok ((file_list ++ [(ps1RescaledDir ++ local_cell_file)%string])%list,
      w2).

(** [download_ps1_cells] *)
Definition download_ps1_cells (cell_table : list skycell)
  (band ps1Dir ps1RescaledDir : string) (w : world)
  : result (list string * world) :=
  let auxiliaryFiles := [""; ".mask"] in
  fold_result
    (fun st cell =>
       fold_result (download_file band ps1Dir ps1RescaledDir cell)
                   auxiliaryFiles st)
    cell_table ([], w).

(** [x[i]] *)
Definition item (l : list string) (i : nat) : result string :=
  match nth_error l i with
  | Some x => Ok x
  | None => Raise IndexError
  end.

(** [prepare_PS1_sub] *)
Definition prepare_PS1_sub (ps1_cell_table : list skycell)
  (band inputimage method : string) (w : world)
  : result (list (string * string * string) * world) :=
  let '(path, filenameInput) := os_path_split inputimage in
  let folder := if String.eqb path "" then "" else path ++ "/" in
  let ps1Dir := "ps1Dir/" in
  let w := if isdir w ps1Dir then w else makedirs ps1Dir w in
  let ps1RescaledDir := "ps1RescaledDir/" in
  let w := if isdir w ps1RescaledDir then w
           else makedirs ps1RescaledDir w in
  do d <- download_ps1_cells ps1_cell_table band ps1Dir ps1RescaledDir w;
  let '(ps1files, w) := d in
  if String.eqb method "mosaic" then
    let mosaicfile :=
      folder ++ split_head "." filenameInput ++ "_ps1_mosaic.fits" in
    if isfile w mosaicfile then Ok ([], w)
    else
      do m <- create_ps1_mosaic ps1files inputimage folder band w;
      let '(fileref_names, w) := m in
      do ref <- item fileref_names 0;
      do mask <- item fileref_names 1;
      Ok ([(inputimage, ref, mask)], w)
  else if String.eqb method "individual" then
    do subfiles <- pairs_of inputimage ps1files;
    Ok (subfiles, w)
  else Ok ([], w).

End Download.

End PS1Files.

(** * More runs of [table_obs] and [makelists] on the images of the
    scenarios *)

Module Runs.

Import Stacking.
Open Scope string_scope.

(** The three images with a radius of 60 degrees: the three are within
    the radius of the first. *)
Definition table_wide : table :=
  Eval vm_compute in
    match table_obs separation_equator Scenario.three_images 60 1 with
    | Ok t => t
    | Raise _ => []
    end.

(** The rows of a.fits and b.fits in [table_wide]. *)
Definition wide_a : row :=
  Eval vm_compute in
    nth 0 table_wide (mkRow 0 "" "" "" "" 0 0 0 0 0 None None None).

Definition wide_b : row :=
  Eval vm_compute in
    nth 1 table_wide (mkRow 0 "" "" "" "" 0 0 0 0 0 None None None).

(** The three images with epochs of minus one hour. *)
Definition table_negative : table :=
  Eval vm_compute in
    match table_obs separation_equator Scenario.three_images 1 (-1) with
    | Ok t => t
    | Raise _ => []
    end.

(** The two images at the same position, with epochs of no length. *)
Definition table_instant : table :=
  Eval vm_compute in
    match table_obs separation_equator Scenario.same_position 1 0 with
    | Ok t => t
    | Raise _ => []
    end.

(** The rows of a.fits and b.fits in [table_instant]. *)
Definition instant_a : row :=
  Eval vm_compute in
    nth 0 table_instant (mkRow 0 "" "" "" "" 0 0 0 0 0 None None None).

Definition instant_b : row :=
  Eval vm_compute in
    nth 1 table_instant (mkRow 0 "" "" "" "" 0 0 0 0 0 None None None).

(** Two images at the same position, 2 ** -8 day apart, which is 3/32
    hour, and an epoch length 2 ** -40 hour short of that.  The times are
    59016000 and 59016000.09375 hours; next to them the binary64 numbers
    are 2 ** -27 apart, and the sum 59016000 + (3/32 - 2 ** -40) rounds to
    59016000.09375. *)
Definition close_pair : list (string * header) :=
  [Scenario.image "a.fits" Scenario.jd0 10 "I";
   Scenario.image "b.fits" (Scenario.jd0 + (1 # 256)) 10 "I"].

Definition deltaT_short : Q := (3 # 32) - (1 # 1099511627776).

Definition table_close : table :=
  Eval vm_compute in
    match table_obs separation_equator close_pair 1 deltaT_short with
    | Ok t => t
    | Raise _ => []
    end.

(** The rows of a.fits and b.fits in [table_close]. *)
Definition close_a : row :=
  Eval vm_compute in
    nth 0 table_close (mkRow 0 "" "" "" "" 0 0 0 0 0 None None None).

Definition close_b : row :=
  Eval vm_compute in
    nth 1 table_close (mkRow 0 "" "" "" "" 0 0 0 0 0 None None None).

(** A text for the rounded coordinates, the same for all. *)
Definition no_text (x : Q) : string := "x".

(** What [makelists] writes for the three images, with a radius of 60
    arc minutes. *)
Definition manifest_three : manifest :=
  Eval vm_compute in
    match makelists separation_equator no_text Scenario.three_images 60 1 with
    | Ok m => m
    | Raise _ => []
    end.

(** A disk as the list of its files, commands that change nothing (no
    network), and a rescaling and a calibration that return. *)
Definition disk : Type := list string.

Definition on_disk (w : disk) (p : string) : bool :=
  existsb (String.eqb p) w.

Definition no_effect (cmd : string) (w : disk) : disk := w.

Definition rescale_returns (filename inputDir outputDir band : string)
  (w : disk) : result disk := Ok w.

Definition scamp_returns (filename band : string) (w : disk)
  : result disk := Ok w.

(** The disk with the two files of the first sub-cell of the image
    inside zone 0, in the band g, and its rescaled image. *)
Definition disk_first_cell : disk :=
  ["ps1Dir/rings_v3_skycell_0102_000_stk_g_unconv.fits";
   "ps1Dir/rings_v3_skycell_0102_000_stk_g_unconv_mask.fits";
   "ps1RescaledDir/rings_v3_skycell_0102_000_stk_g_unconv.fits"].

End Runs.

(** * stacking.py: the prefixes of the lists

    Lines 372-382 of [stacking]: from the path of each [.list] file that
    [makelists] wrote, the name up to its last underscore; the lists of
    the epochs of one field are then looked up by this prefix. *)

(** Where the last dot of [s] is: what comes before it and what follows
    it, when [s] has a dot. *)
Fixpoint split_last_dot (s : string) : option (string * string) :=
  match s with
  | EmptyString => None
  | String a s' =>
      match split_last_dot s' with
      | Some (root, ext) => Some (String a root, ext)
      | None => if Ascii.eqb a "." then Some (EmptyString, s') else None
      end
  end.

Fixpoint all_dots (s : string) : bool :=
  match s with
  | EmptyString => true
  | String a s' => (Ascii.eqb a "." && all_dots s')%bool
  end.

(** [os.path.splitext(p)[0]]: [p] without its extension.  The extension
    starts at the last dot of [p], when this dot comes after the last
    slash and after a character of the file name that is not a dot. *)
Definition splitext_root (p : string) : string :=
  let '(head, tail) := split_last_slash p in
  match split_last_dot tail with
  | Some (root, ext) => if all_dots root then p else (head ++ root)%string
  | None => p
  end.

(** [s.split(c)] for a one-character [c] *)
Fixpoint split_on (c : ascii) (s : string) : list string :=
  match s with
  | EmptyString => [EmptyString]
  | String a s' =>
      if Ascii.eqb a c then EmptyString :: split_on c s'
      else
        match split_on c s' with
        | [] => [String a EmptyString]
        | piece :: pieces => String a piece :: pieces
        end
  end.

Module StackingRun.

(** Lines 375-376 *)
Definition splitfilename (filename : string) : list string :=
  split_on "_" (splitext_root (snd (os_path_split filename))).

(** Lines 377-379: the pieces but the last one, each followed by an
    underscore. *)
Definition prefi (splitfilename : list string) : string :=
  fold_left (fun prefi piece => (prefi ++ piece ++ "_")%string)
            (removelast splitfilename) EmptyString.

(** The prefix appended for the list [filename] (line 380). *)
Definition list_prefix (filename : string) : string :=
  prefi (splitfilename filename).

(** [os.path.join(path_lists, name + ".list")] for a directory that
    does not end with a slash, as [tempfile.mkdtemp] returns it, and a
    name that does not start with one. *)
Definition list_path (path_lists name : string) : string :=
  (path_lists ++ "/" ++ name ++ ".list")%string.

End StackingRun.

(** * substraction.py: [substraction]

    The loop of [substraction] over the images, with [ps1_grid] and
    [prepare_PS1_sub] as above.  What it calls besides them
    ([utils.mkdir_p], [get_corner_coords], [utils.get_phot_cat],
    [registration], [hotpants]) acts on the world and is a parameter,
    taken to return; [regis_info] and [sub_files] are what
    [registration] and [hotpants] return. *)

Module Substraction.

Import PS1 PS1Files.
Open Scope string_scope.

(** Lines 54-63: the band of the reference images. *)
Definition ps1_band (band : string) : string :=
  if String.eqb band "B" then "g"
  else if String.eqb band "V" then "g"
  else if String.eqb band "R" then "r"
  else if String.eqb band "I" then "i"
  else if String.eqb band "g+r" then "r"
  else band.

(** Lines 39-45 *)
Definition resultDir_of (ima : string) : string :=
  let '(path, filename) := os_path_split ima in
  let folder := if String.eqb path "" then "" else path ++ "/" in
  folder ++ "substraction/".

Section Substraction.

Variable world : Type.
Variable regis_info : Type.
Variable sub_files : Type.

Variable isfile : world -> string -> bool.
Variable isdir : world -> string -> bool.
Variable makedirs : string -> world -> world.
Variable system : string -> world -> world.
Variable linear_rescale_ps1 :
  string -> string -> string -> string -> world -> result world.
Variable scamp : string -> string -> world -> result world.
Variable create_ps1_mosaic :
  list string -> string -> string -> string -> world
  -> result (list string * world).

Variable mkdir_p : string -> world -> world.
Variable get_corner_coords : world -> string -> footprint.
Variable get_phot_cat : world -> string -> string.
Variable wcs_pix2world : Q * Q -> Q * Q -> Q * Q -> Q * Q -> Q * Q.
Variable intersects : list (Q * Q) -> list (Q * Q) -> bool.
Variable ps1grid : list zone.
Variable registration :
  list (string * string * string) -> string -> world -> regis_info * world.
Variable hotpants : regis_info -> world -> sub_files * world.

(** Lines 37-82, for one image.  [subFiles] is a local of
    [substraction] that the loop assigns: [None] while it has not been
    assigned.  With [outLevel == 0] the names [rm_p] and [refim] are
    looked up, and neither is defined in the module. *)
Definition image_step (reference soft method : string) (outLevel : Z)
  (st : option sub_files * world) (ima : string)
  : result (option sub_files * world) :=
  let '(subFiles, w) := st in
  let resultDir := resultDir_of ima in
  let w := mkdir_p resultDir w in
  let im_coords := get_corner_coords w ima in
  do st1 <-
    (if String.eqb reference "ps1" then
       let band := ps1_band (get_phot_cat w ima) in
       do ps1_cell_table <- ps1_grid wcs_pix2world intersects ps1grid
                                     im_coords;
       do p <- prepare_PS1_sub isfile isdir makedirs system
                 linear_rescale_ps1 scamp create_ps1_mosaic
                 ps1_cell_table band ima method w;
       let '(subfiles, w) := p in
       let '(regis, w) := registration subfiles resultDir w in
       if String.eqb soft "hotpants" then
         let '(out, w) := hotpants regis w in Ok (Some out, w)
       else Ok (subFiles, w)
     else Ok (subFiles, w));
  if (outLevel =? 0)%Z then Raise NameError else Ok st1.

(** [substraction] *)
Definition substraction (filenames : list string)
  (reference soft method : string) (outLevel : Z) (w : world)
  : result (sub_files * world) :=
  do st <- fold_result (image_step reference soft method outLevel)
                       filenames (None, w);
  match fst st with
  | Some subFiles => Ok (subFiles, snd st)
  | None => Raise NameError
  end.

End Substraction.

End Substraction.

(** A run of [substraction] on one image, with the catalog and the
    polygon test of the scenarios, a disk that commands do not change,
    and a registration and a subtraction that return. *)

Module SubtractionRun.

Import PS1.
Open Scope string_scope.

Definition mosaic_fails (file_list : list string)
  (inputimage outputDir band : string) (w : Runs.disk)
  : result (list string * Runs.disk) := Raise ValueError.

Definition corners_in_zone0 (w : Runs.disk) (ima : string) : footprint :=
  Scenario.im_one_zone.

Definition band_B (w : Runs.disk) (ima : string) : string := "B".

Definition registration_returns (subfiles : list (string * string * string))
  (resultDir : string) (w : Runs.disk) : nat * Runs.disk :=
  (List.length subfiles, w).

Definition hotpants_returns (info : nat) (w : Runs.disk)
  : list string * Runs.disk := (["img_sub.fits"], w).

Definition run (filenames : list string) (reference soft : string)
  (outLevel : Z) : result (list string * Runs.disk) :=
  Substraction.substraction Runs.on_disk Runs.on_disk Runs.no_effect
    Runs.no_effect Runs.rescale_returns Runs.scamp_returns mosaic_fails
    Runs.no_effect corners_in_zone0 band_B Scenario.flat_projection
    Scenario.all_overlap Scenario.grid registration_returns
    hotpants_returns filenames reference soft "individual" outLevel [].

End SubtractionRun.

(** * Notions the statements are written with *)

Unset Implicit Arguments.

(** ** Floats *)

(** A binary64 number: a number that is its own rounding. *)
Definition binary64 (x : Q) : Prop := round64 x == x.

(** ** Strings *)

(** Whether the character [c] occurs in [s]. *)
Fixpoint has_char (c : ascii) (s : string) : bool :=
  match s with
  | EmptyString => false
  | String a s' => (Ascii.eqb a c || has_char c s')%bool
  end.

(** The digits [d] behind [n] zeros. *)
Fixpoint lead0 (n : nat) (d : uint) : uint :=
  match n with
  | O => d
  | S n' => D0 (lead0 n' d)
  end.

(** The number a ["%03d"] text stands for. *)
Definition read_int (s : string) : option Z :=
  option_map Z.of_int (NilEmpty.int_of_string s).

(** ** The names of the sub-cells *)

Module PS1Notions.

Import PS1.

(** The ten decimal digits, in order. *)
Definition digits : list ascii :=
  ["0"; "1"; "2"; "3"; "4"; "5"; "6"; "7"; "8"; "9"]%char.

(** The three-character name whose second and third characters are the
    digits [y] and [x]. *)
Definition name_0yx (y x : nat) : string :=
  String "0" (String (nth y digits "?"%char)
                     (String (nth x digits "?"%char) EmptyString)).

(** The hundred names of the sub-cells of a projection cell. *)
Definition subcell_names : list string :=
  flat_map (fun y => map (name_0yx y) (seq 0 10)) (seq 0 10).

Section Rows.

Variable w : Q * Q -> Q * Q -> Q * Q -> Q * Q -> Q * Q.
Variable inter : list (Q * Q) -> list (Q * Q) -> bool.

(** What lines 79-96 make of the sub-cell ([y], [x]) of the projection
    cell [n], with the parameters lines 149-156 take from the catalog row
    [z]. *)
Definition subcell_rows (im : footprint) (z : zone) (n : Z) (y x : nat)
  : list skycell :=
  cell_rows w inter im n (XCELL z) (YCELL z)
            ((inject_Z n - PROJCELL z) * 360 / NBAND z) (DEC z)
            (CRPIX1 z) (CRPIX2 z) (Z.of_nat y) (Z.of_nat x).

(** The row [sc] is the row of a sub-cell of a candidate cell of a zone
    already examined, computed with the one row the catalog has for that
    zone. *)
Definition from_examined (cat : list zone) (im : footprint)
  (ex : list (Z * list Z)) (sc : skycell) : Prop :=
  exists zone_id total n z y x,
    In (zone_id, total) ex /\ In n total /\
    filter (fun z' => Z.eqb (ZONE z') zone_id) cat = [z] /\
    (y < 10)%nat /\ (x < 10)%nat /\
    subcell_rows im z n y x = [sc].

(** The same, for every row of every table of [all_cells]. *)
Definition tables_from (cat : list zone) (im : footprint)
  (ex : list (Z * list Z)) (tables : list (list skycell)) : Prop :=
  forall tbl sc, In tbl tables -> In sc tbl -> from_examined cat im ex sc.

End Rows.

End PS1Notions.

(** ** Rows, groups and the traversals of the table *)

Module TableNotions.

Import Stacking.

(** The columns of a row that the scenarios look at. *)
Definition summary (r : row)
  : string * Z * Z * option Q * option Q :=
  (filename r, fieldID r, epochID r, RA_ref r, Dec_ref r).

(** The columns that the loop over the fields does not write. *)
Definition static (r : row)
  : nat * string * string * string * string * Q * Q * Q * Z :=
  (idx r, filename r, Telescope r, Instrument r, Filter r, RA r, Dec r, JD r,
   epochID r).

(** [first_by key t e] is the first row of [t], in table order, whose
    column [key] holds [e]. *)
Definition first_by (key : row -> Z) (t : table) (e : Z) : option row :=
  hd_error (filter (fun r => Z.eqb (key r) e) t).

(** The first row, in table order, of the field [key]. *)
Definition first_of_field (t : table) (key : Z) : option row :=
  first_by fieldID t key.

(** Everything but the epoch. *)
Definition no_epoch (r : row) : row := set_epoch 0 r.

(** The first row, in table order, of the epoch [e]. *)
Definition first_of_epoch (t : table) (e : Z) : option row :=
  first_by epochID t e.

(** The rows of the field [f] of the partition [k]:
    [obs_table[mask_field]]. *)
Definition members (T : table) (k : partkey) (f : Z) : table :=
  filter (mask_field_of (in_partition k) f) T.

(** Each row of the partition is alone in its field, and the fields are
    numbered in table order. *)
Definition singles_inv (fid : Z) (pre : table) : Prop :=
  map fieldID pre = map Z.of_nat (seq 1 (List.length pre)) /\
  fid = Z.of_nat (List.length pre).

Section Fields.

Variable separation : Q * Q -> Q * Q -> Q.
Variable radius : Q.

(** What the body of the loop of line 177 makes of the image [d] when
    the rows of the partition before it are [pre]: the next value of
    [field_id] and the row of [d]. *)
Definition assign_local (mask : row -> bool) (field_id : Z) (pre : table)
  (d : row) : Z * row :=
  let s := closest_field separation radius mask pre d in
  if negb (Z.eqb (field_ref s) (-1)) then
    (field_id, set_field (field_ref s) (ra_ref s) (dec_ref s) d)
  else
    ((field_id + 1)%Z,
     set_field (field_id + 1) (Some (RA d)) (Some (Dec d)) d).

(** The loop of line 177 as a traversal of the rows [todo], the rows
    [pre] being done. *)
Fixpoint cluster_rows (mask : row -> bool) (field_id : Z) (pre todo : table)
  : Z * table :=
  match todo with
  | [] => (field_id, pre)
  | d :: todo' =>
      cluster_rows mask (fst (assign_local mask field_id pre d))
                   (pre ++ [snd (assign_local mask field_id pre d)]) todo'
  end.

(** The separation of the positions of two rows. *)
Definition sep_of (d r : row) : Q :=
  separation (RA d, Dec d) (RA r, Dec r).

(** What the running minimum of lines 188-204 stands for. *)
Definition search_inv (t : table) (mask2 : row -> bool) (d : row)
  (s : search) : Prop :=
  sep_min s <= 100 /\
  (field_ref s = (-1)%Z \/
   exists fst,
     first_of_field (filter mask2 t) (field_ref s) = Some fst /\
     sep_of d fst < radius /\ sep_of d fst < 100).

(** Every row is the first of its field or lies within [radius] and
    within 100 degrees of it. *)
Definition near_first (pre : table) (r : row) : Prop :=
  exists fst,
    first_of_field pre (fieldID r) = Some fst /\
    (r = fst \/ (sep_of r fst < radius /\ sep_of r fst < 100)).

(** The state of the loop of line 177 after the rows [pre]. *)
Definition fields_inv (mask : row -> bool) (fid : Z) (pre : table)
  : Prop :=
  (1 <= fid)%Z /\
  (forall r, In r pre -> (1 <= fieldID r <= fid)%Z /\ mask r = true) /\
  (forall r, In r pre -> near_first pre r).

End Fields.

Section Epochs.

Variable deltaT : Q.

(** What the body of the loop of line 232 makes of the image [d]: the
    next values of [JD_ref] and [epoch_id] and the row of [d]. *)
Definition epoch_local (jr : Q) (eid : Z) (d : row) : Q * Z * row :=
  if Qle_bool (JD d) (add64 jr deltaT)
  then (jr, eid, set_epoch eid d)
  else (JD d, (eid + 1)%Z, set_epoch (eid + 1) d).

(** The loop of line 232 as a traversal of the rows [todo]. *)
Fixpoint sweep_rows (jr : Q) (eid : Z) (pre todo : table) : Q * Z * table :=
  match todo with
  | [] => (jr, eid, pre)
  | d :: todo' =>
      let '(jr', eid', d') := epoch_local jr eid d in
      sweep_rows jr' eid' (pre ++ [d']) todo'
  end.

(** The state of the sweep after the rows [pre]: [eid] epochs are open,
    the last one with the reference time [jr]. *)
Definition epochs_inv (jr : Q) (eid : Z) (pre : table) : Prop :=
  (forall e, In e (map epochID pre) <-> (1 <= e <= eid)%Z) /\
  (exists ref, first_of_epoch pre eid = Some ref /\ JD ref = jr) /\
  (forall m, In m pre ->
     exists ref, first_of_epoch pre (epochID m) = Some ref /\
                 JD ref <= JD m /\ JD m <= add64 (JD ref) deltaT) /\
  (forall e1 e2 r1 r2,
     first_of_epoch pre e1 = Some r1 -> first_of_epoch pre e2 = Some r2 ->
     (e1 < e2)%Z -> JD r1 < JD r2).

End Epochs.

Section Pipeline.

Variable separation : Q * Q -> Q * Q -> Q.
Variables radius deltaT : Q.

(** The table after the two loops, and the table between them. *)
Record grouped (T T1 : table) : Prop := {
  grouped_epochs : T = group_epochs deltaT T1;
  grouped_fields :
    exists t1,
      T1 = group_fields separation radius t1 /\
      NoDup (map idx t1) /\
      (forall r, In r t1 -> fieldID r = 0%Z);
  grouped_idx : NoDup (map idx T1);
  grouped_sorted : StronglySorted Qle (map JD T1);
  grouped_floats : forall r, In r T1 -> binary64 (JD r);
  grouped_no_epoch : T1 = map no_epoch T
}.

End Pipeline.

End TableNotions.

(** ** Views of the table and of the loops, for the properties of the
    whole pipeline *)

Module Views.

Import Stacking TableNotions.

(** What a row keeps of the image it was read from. *)
Definition row_cols (r : row)
  : string * string * string * string * Q * Q :=
  (filename r, Telescope r, Instrument r, Filter r, RA r, Dec r).

(** The same columns, as the header of the image gives them (lines
    98-104). *)
Definition image_cols (im : string * header)
  : string * string * string * string * Q * Q :=
  (fst im, hdr_TELESCOP (snd im), hdr_INSTRUME (snd im), hdr_FILTER (snd im),
   hdr_CRVAL1 (snd im), hdr_CRVAL2 (snd im)).

(** The reference of every row is the position of a row of [pre], and
    the rows of [pre] are in the partition. *)
Definition refs_inv (mask : row -> bool) (pre : table) : Prop :=
  forall r, In r pre ->
    mask r = true /\
    exists r', In r' pre /\
      RA_ref r = Some (RA r') /\ Dec_ref r = Some (Dec r').

(** The fields 1 to [fid] all have rows. *)
Definition cover_inv (fid : Z) (pre : table) : Prop :=
  forall f, (1 <= f <= fid)%Z -> In f (map fieldID pre).

(** One field, whose reference is the position of [first]. *)
Definition one_field_inv (mask : row -> bool) (first : row) (fid : Z)
  (pre : table) : Prop :=
  fid = 1%Z /\
  (exists tl, pre = set_field 1 (Some (RA first)) (Some (Dec first)) first
                    :: tl) /\
  forall r, In r pre ->
    mask r = true /\ fieldID r = 1%Z /\
    RA_ref r = Some (RA first) /\ Dec_ref r = Some (Dec first).

(** Every row of [pre] opened an epoch: the epochs are 2, 3, ... in
    table order, and [jr] is the time of the last row. *)
Definition fresh_epochs_inv (jr : Q) (eid : Z) (pre : table) : Prop :=
  map epochID pre = map Z.of_nat (seq 2 (List.length pre)) /\
  eid = Z.of_nat (S (List.length pre)) /\
  forall m, In m pre -> JD m <= jr.

(** A row without the name of its stack. *)
Definition no_stack (r : row) : row :=
  mkRow (idx r) (filename r) (Telescope r) (Instrument r) (Filter r)
        (RA r) (Dec r) (JD r) (fieldID r) (epochID r) (RA_ref r) (Dec_ref r)
        None.

(** The mask of lines 298-301. *)
Definition mask_group (mask : row -> bool) (key : Z * Z) (r : row) : bool :=
  (Z.eqb (fieldID r) (fst key) && Z.eqb (epochID r) (snd key) && mask r)%bool.

(** The file names the lists of one partition hold, list by list, as
    the table [T] gives them. *)
Definition lists_of (T : table) (k : partkey) : list (list string) :=
  map (fun key => map filename (filter (mask_group (in_partition k) key) T))
      (field_epoch_keys (filter (in_partition k) T)).



End Views.

(** ** Views of the resolver *)

Module ResolverViews.

Import PS1.

(** The pairs (y, x) of the loops of lines 77-78, in the order the loops
    take them. *)
Definition subcell_pairs : list (Z * Z) :=
  flat_map (fun y => map (fun x => (y, x)) (range 10)) (range 10).

(** The extent of the image in right ascension and in declination
    (lines 116-119). *)
Definition ra_min_of (im : footprint) : Q :=
  min4 (fst (corner1 im)) (fst (corner2 im)) (fst (corner3 im))
       (fst (corner4 im)).

Definition ra_max_of (im : footprint) : Q :=
  max4 (fst (corner1 im)) (fst (corner2 im)) (fst (corner3 im))
       (fst (corner4 im)).

Definition dec_min_of (im : footprint) : Q :=
  min4 (snd (corner1 im)) (snd (corner2 im)) (snd (corner3 im))
       (snd (corner4 im)).

Definition dec_max_of (im : footprint) : Q :=
  max4 (snd (corner1 im)) (snd (corner2 im)) (snd (corner3 im))
       (snd (corner4 im)).

(** The index of line 140-141 for the zone [z] and the right ascension
    [ra]. *)
Definition projcell_idx_of (z : zone) (ra : Q) : Z :=
  rint (add64 (PROJCELL z) (div64 (mul64 ra (NBAND z)) 360)).

(** No bound of the zone [z] lies strictly inside the zone [z'].  When
    this holds for every two zones of a catalog, in both orders, the
    declination intervals of two zones overlap only when they are the
    same. *)
Definition bounds_outside (z z' : zone) : Prop :=
  ~ (DEC_MIN z' < DEC_MIN z /\ DEC_MIN z < DEC_MAX z') /\
  ~ (DEC_MIN z' < DEC_MAX z /\ DEC_MAX z < DEC_MAX z').

End ResolverViews.

(** ** Views of the file names *)

(** [c.join(segs)] *)
Fixpoint join (c : ascii) (segs : list string) : string :=
  match segs with
  | [] => EmptyString
  | [s] => s
  | s :: segs' => (s ++ String c (join c segs'))%string
  end.

(** A piece of a file name: without a dot and without an underscore,
    and not beginning with the letters fits. *)
Definition plain (s : string) : Prop :=
  has_char "." s = false /\ has_char "_" s = false /\
  starts_with "fits" s = false.

(** The pieces of the name of the file of a sub-cell, before the
    extension. *)
Definition name_pieces (cell : PS1.skycell) (band : string) : list string :=
  ["rings"; "v3"; "skycell"; PS1.projcell_id cell; PS1.cell_id cell; "stk";
   band; "unconv"]%string.

(** The two files [download_ps1_cells] lists for a sub-cell: the
    rescaled image and its mask. *)
Definition listed_files (band ps1RescaledDir : string) (cell : PS1.skycell)
  : list string :=
  [(ps1RescaledDir ++ PS1Files.local_cell_file cell band "")%string;
   (ps1RescaledDir ++ PS1Files.local_cell_file cell band ".mask")%string].

(** * Properties

    ** Comparisons, sorting and keys *)

Lemma Qltb_lt (x y : Q) : Qltb x y = true <-> x < y.
Proof.
  unfold Qltb. rewrite negb_true_iff.
  split; intro H.
  - apply Qnot_le_lt. intro Hle. apply Qle_bool_iff in Hle. congruence.
  - destruct (Qle_bool y x) eqn:E; [|reflexivity].
    apply Qle_bool_iff in E. exfalso. apply (Qlt_not_le _ _ H E).
Qed.



Section SortFacts.

Variable A : Type.
Variable leb : A -> A -> bool.

Lemma insert_perm (x : A) (l : list A) :
  Permutation (x :: l) (insert leb x l).
Proof.
  induction l as [|y l IH]; simpl; [reflexivity|].
  destruct (leb x y); [reflexivity|].
  rewrite perm_swap. now constructor.
Qed.

Lemma isort_perm (l : list A) : Permutation l (isort leb l).
Proof.
  induction l as [|x l IH]; simpl; [constructor|].
  rewrite <- insert_perm. now constructor.
Qed.

Variable le : A -> A -> Prop.
Hypothesis leb_le : forall x y, leb x y = true -> le x y.
Hypothesis leb_total : forall x y, leb x y = false -> le y x.

Lemma insert_hdrel (x a : A) (l : list A) :
  le a x -> HdRel le a l -> HdRel le a (insert leb x l).
Proof.
  intros Hax Hl. destruct l as [|y l]; simpl; [now constructor|].
  destruct (leb x y); constructor; [exact Hax|].
  now inversion Hl.
Qed.

Lemma insert_sorted (x : A) (l : list A) :
  Sorted le l -> Sorted le (insert leb x l).
Proof.
  induction 1 as [|y l Hl IH Hy]; simpl; [repeat constructor|].
  destruct (leb x y) eqn:E.
  - constructor; [now constructor|]. constructor. now apply leb_le.
  - constructor; [exact IH|]. apply insert_hdrel; [|exact Hy].
    now apply leb_total.
Qed.

Lemma isort_sorted (l : list A) : Sorted le (isort leb l).
Proof.
  induction l as [|x l IH]; simpl; [constructor|].
  now apply insert_sorted.
Qed.

Variable eq_dec : forall x y : A, {x = y} + {x <> y}.

Lemma group_keys_In (l : list A) (x : A) :
  In x (group_keys leb eq_dec l) <-> In x l.
Proof.
  unfold group_keys. split; intro H.
  - apply (nodup_In eq_dec).
    apply (Permutation_in x (Permutation_sym (isort_perm _)) H).
  - apply (Permutation_in x (isort_perm _)). now apply nodup_In.
Qed.

Lemma group_keys_NoDup (l : list A) : NoDup (group_keys leb eq_dec l).
Proof.
  unfold group_keys.
  apply (Permutation_NoDup (isort_perm _)). apply NoDup_nodup.
Qed.

End SortFacts.

(** ** Lists *)

Lemma filter_filter_implies (A : Type) (p q : A -> bool) (l : list A) :
  (forall x, In x l -> q x = true -> p x = true) ->
  filter q (filter p l) = filter q l.
Proof.
  induction l as [|x l IH]; intro H; simpl; [reflexivity|].
  destruct (p x) eqn:Hp; simpl.
  - destruct (q x); rewrite IH; auto; intros; apply H; simpl; auto.
  - destruct (q x) eqn:Hq.
    + rewrite H in Hp; [discriminate|now left|exact Hq].
    + apply IH. intros; apply H; simpl; auto.
Qed.

Lemma filter_none (A : Type) (p : A -> bool) (l : list A) :
  (forall x, In x l -> p x = false) -> filter p l = [].
Proof.
  induction l as [|x l IH]; intro H; simpl; [reflexivity|].
  rewrite (H x (or_introl eq_refl)). apply IH. intros; apply H; now right.
Qed.

Lemma filter_all (A : Type) (p : A -> bool) (l : list A) :
  (forall x, In x l -> p x = true) -> filter p l = l.
Proof.
  induction l as [|x l IH]; intro H; simpl; [reflexivity|].
  rewrite (H x (or_introl eq_refl)). f_equal. apply IH.
  intros; apply H; now right.
Qed.

Lemma filter_map_commute (A B : Type) (f : A -> B) (p : B -> bool)
  (l : list A) :
  filter p (map f l) = map f (filter (fun x => p (f x)) l).
Proof.
  induction l as [|x l IH]; simpl; [reflexivity|].
  destruct (p (f x)); simpl; now rewrite IH.
Qed.

Lemma fold_left_ext_in (A B : Type) (f g : A -> B -> A) (l : list B) :
  (forall a b, In b l -> f a b = g a b) ->
  forall a, fold_left f l a = fold_left g l a.
Proof.
  induction l as [|b l IH]; intros H a; simpl; [reflexivity|].
  rewrite (H a b (or_introl eq_refl)). apply IH.
  intros; apply H; now right.
Qed.

(** A loop over distinct keys, seen through a view [V k] that only the
    step for [k] changes. *)
Section Keys.

Variables (T K R : Type).
Variable step : T -> K -> T.
Variable Inv : T -> Prop.
Variable V : K -> T -> R.
Variable L : K -> R -> R.

Hypothesis Inv_step : forall t k, Inv t -> Inv (step t k).
Hypothesis frame :
  forall t k k', Inv t -> k' <> k -> V k (step t k') = V k t.
Hypothesis hit : forall t k, Inv t -> V k (step t k) = L k (V k t).


Lemma fold_keys_frame (keys : list K) (k : K) (t : T) :
  Inv t -> ~ In k keys -> V k (fold_left step keys t) = V k t.
Proof.
  revert t. induction keys as [|k' keys IH]; intros t Ht Hk; simpl;
    [reflexivity|].
  rewrite IH; [|now apply Inv_step|intro; apply Hk; now right].
  apply frame; [exact Ht|]. intros ->. apply Hk. now left.
Qed.

Lemma fold_keys_hit (keys : list K) (k : K) (t : T) :
  Inv t -> NoDup keys -> In k keys ->
  V k (fold_left step keys t) = L k (V k t).
Proof.
  revert t. induction keys as [|k' keys IH]; intros t Ht Hnd Hk; simpl;
    [destruct Hk|].
  inversion Hnd as [|? ? Hnotin Hnd']; subst.
  destruct Hk as [->|Hk].
  - rewrite fold_keys_frame; [|now apply Inv_step|exact Hnotin].
    now apply hit.
  - rewrite IH; [|now apply Inv_step|exact Hnd'|exact Hk].
    f_equal. apply frame; [exact Ht|].
    intros ->. now apply Hnotin.
Qed.

End Keys.

(** ** Rounding to binary64

    [rint] and [round64] are monotone, and a binary64 number is its own
    rounding. *)

Lemma Qltb_ge x y : Qltb x y = false <-> y <= x.
Proof.
  unfold Qltb. rewrite negb_false_iff. apply Qle_bool_iff.
Qed.

(** ** rint *)

Lemma rint_cases x :
  let f := Qfloor x in
  (x - inject_Z f < 1 # 2 /\ rint x = f) \/
  (1 # 2 < x - inject_Z f /\ rint x = (f + 1)%Z) \/
  (x - inject_Z f == 1 # 2 /\ rint x = (if Z.even f then f else f + 1)%Z).
Proof.
  intros f. unfold rint. fold f.
  destruct (Qltb (x - inject_Z f) (1 # 2)) eqn:E1.
  - left. split; [now apply Qltb_lt|reflexivity].
  - destruct (Qltb (1 # 2) (x - inject_Z f)) eqn:E2.
    + right; left. split; [now apply Qltb_lt|reflexivity].
    + right; right. apply Qltb_ge in E1, E2. split; [|reflexivity].
      now apply Qle_antisym.
Qed.

Lemma Qfloor_bounds x : inject_Z (Qfloor x) <= x /\ x < inject_Z (Qfloor x) + 1.
Proof.
  split; [apply Qfloor_le|].
  generalize (Qlt_floor x). rewrite inject_Z_plus. now intros H.
Qed.

Lemma rint_inject m : rint (inject_Z m) = m.
Proof.
  destruct (rint_cases (inject_Z m)) as [[H E]|[[H E]|[H E]]];
    rewrite Qfloor_Z in *.
  - exact E.
  - exfalso. lra.
  - exfalso. lra.
Qed.

Lemma Qfloor_eq x f : inject_Z f <= x -> x < inject_Z f + 1 -> Qfloor x = f.
Proof.
  intros H1 H2. destruct (Qfloor_bounds x) as [H3 H4].
  assert (A : (Qfloor x < f + 1)%Z).
  { rewrite Zlt_Qlt. rewrite inject_Z_plus. change (inject_Z 1) with 1. lra. }
  assert (B : (f < Qfloor x + 1)%Z).
  { rewrite Zlt_Qlt. rewrite inject_Z_plus. change (inject_Z 1) with 1. lra. }
  lia.
Qed.

Lemma rint_mono x y : x <= y -> (rint x <= rint y)%Z.
Proof.
  intros Hxy.
  assert (Hf : (Qfloor x <= Qfloor y)%Z) by now apply Qfloor_resp_le.
  destruct (Qfloor_bounds x) as [Hx1 Hx2], (Qfloor_bounds y) as [Hy1 Hy2].
  destruct (Z.eq_dec (Qfloor x) (Qfloor y)) as [Heq|Hne].
  - destruct (rint_cases x) as [[H E]|[[H E]|[H E]]];
      destruct (rint_cases y) as [[H' E']|[[H' E']|[H' E']]];
      rewrite E, E'; rewrite <- ?Heq in *; try lia;
      try (exfalso; lra);
      destruct (Z.even (Qfloor x)); lia.
  - assert (Hlt : (Qfloor x + 1 <= Qfloor y)%Z) by lia.
    assert (Hrx : (rint x <= Qfloor x + 1)%Z).
    { destruct (rint_cases x) as [[H E]|[[H E]|[H E]]]; rewrite E;
        try lia. destruct (Z.even (Qfloor x)); lia. }
    assert (Hry : (Qfloor y <= rint y)%Z).
    { destruct (rint_cases y) as [[H E]|[[H E]|[H E]]]; rewrite E;
        try lia. destruct (Z.even (Qfloor y)); lia. }
    lia.
Qed.

Lemma rint_comp x y : x == y -> rint x = rint y.
Proof.
  intros H. apply Z.le_antisymm; apply rint_mono; rewrite H; apply Qle_refl.
Qed.

(** ** Powers of two *)

Lemma pow2_pos e : 0 < pow2 e.
Proof. apply Qpower_0_lt. reflexivity. Qed.

Lemma pow2_plus a b : pow2 (a + b) == pow2 a * pow2 b.
Proof. apply Qpower_plus. discriminate. Qed.

Lemma pow2_le a b : (a <= b)%Z -> pow2 a <= pow2 b.
Proof. intros H. apply Qpower_le_compat_l; [exact H|discriminate]. Qed.

Lemma pow2_lt a b : (a < b)%Z -> pow2 a < pow2 b.
Proof. intros H. apply Qpower_lt_compat_l; [exact H|reflexivity]. Qed.

Lemma pow2_inject n : (0 <= n)%Z -> pow2 n == inject_Z (2 ^ n).
Proof. intros H. unfold pow2. now rewrite Zpower_Qpower. Qed.

(** ** ilog2 *)

Lemma ilog2_spec x : 0 < x -> pow2 (ilog2 x) <= x /\ x < pow2 (ilog2 x + 1).
Proof.
  intros Hx. destruct x as [n d]. unfold ilog2. cbn [Qnum Qden].
  assert (Hn : (0 < n)%Z).
  { unfold Qlt in Hx. cbn in Hx. lia. }
  set (a := Z.log2 n). set (b := Z.log2 (Z.pos d)).
  destruct (Z.log2_spec n Hn) as [Ha1 Ha2]. fold a in Ha1, Ha2.
  destruct (Z.log2_spec (Z.pos d) eq_refl) as [Hb1 Hb2]. fold b in Hb1, Hb2.
  assert (Ha0 : (0 <= a)%Z) by apply Z.log2_nonneg.
  assert (Hb0 : (0 <= b)%Z) by apply Z.log2_nonneg.
  assert (Hq : n # d == inject_Z n / inject_Z (Z.pos d)) by apply Qmake_Qdiv.
  assert (Hdq : 0 < inject_Z (Z.pos d)) by (change 0 with (inject_Z 0); rewrite <- Zlt_Qlt; lia).
  (* the value lies strictly between 2^(a-b-1) and 2^(a-b+1) *)
  assert (Hup : n # d < pow2 (a - b + 1)).
  { replace (a - b + 1)%Z with ((a + 1) + - b)%Z by lia.
    rewrite pow2_plus. unfold pow2 at 2. rewrite Qpower_opp.
    fold (pow2 b). rewrite (pow2_inject (a + 1)), (pow2_inject b) by lia.
    rewrite Hq.
    assert (H2b : 0 < inject_Z (2 ^ b)) by (change 0 with (inject_Z 0); rewrite <- Zlt_Qlt; lia).
    apply Qlt_shift_div_r; [exact Hdq|].
    assert (E : inject_Z (2 ^ (a + 1)) * / inject_Z (2 ^ b) * inject_Z (Z.pos d)
                == inject_Z (2 ^ (a + 1)) * inject_Z (Z.pos d) / inject_Z (2 ^ b)).
    { field. intros C. rewrite C in H2b. now apply Qlt_irrefl in H2b. }
    rewrite E. apply Qlt_shift_div_l; [exact H2b|].
    rewrite <- !inject_Z_mult, <- Zlt_Qlt. nia. }
  assert (Hlo : pow2 (a - b - 1) < n # d).
  { replace (a - b - 1)%Z with (a + - (b + 1))%Z by lia.
    rewrite pow2_plus. unfold pow2 at 2. rewrite Qpower_opp.
    fold (pow2 (b + 1)). rewrite (pow2_inject a), (pow2_inject (b + 1)) by lia.
    rewrite Hq.
    assert (H2b : 0 < inject_Z (2 ^ (b + 1))) by (change 0 with (inject_Z 0); rewrite <- Zlt_Qlt; lia).
    apply Qlt_shift_div_l; [exact Hdq|].
    assert (E : inject_Z (2 ^ a) * / inject_Z (2 ^ (b + 1)) * inject_Z (Z.pos d)
                == inject_Z (2 ^ a) * inject_Z (Z.pos d) / inject_Z (2 ^ (b + 1))).
    { field. intros C. rewrite C in H2b. now apply Qlt_irrefl in H2b. }
    rewrite E. apply Qlt_shift_div_r; [exact H2b|].
    rewrite <- !inject_Z_mult, <- Zlt_Qlt. nia. }
  destruct (Qle_bool (pow2 (a - b)) (n # d)) eqn:E.
  - apply Qle_bool_iff in E. split; [exact E|exact Hup].
  - split; [apply Qlt_le_weak; exact Hlo|].
    replace (a - b - 1 + 1)%Z with (a - b)%Z by lia.
    apply Qnot_le_lt. intros C. apply Qle_bool_iff in C. congruence.
Qed.

Lemma ilog2_unique x e : pow2 e <= x -> x < pow2 (e + 1) -> ilog2 x = e.
Proof.
  intros H1 H2.
  assert (Hx : 0 < x) by (eapply Qlt_le_trans; [apply (pow2_pos e)|exact H1]).
  destruct (ilog2_spec x Hx) as [H3 H4].
  destruct (Z.lt_trichotomy (ilog2 x) e) as [C|[C|C]]; [|exact C|].
  - exfalso. assert (pow2 (ilog2 x + 1) <= pow2 e) by (apply pow2_le; lia). lra.
  - exfalso. assert (pow2 (e + 1) <= pow2 (ilog2 x)) by (apply pow2_le; lia). lra.
Qed.

Lemma ilog2_mono x y : 0 < x -> x <= y -> (ilog2 x <= ilog2 y)%Z.
Proof.
  intros Hx Hxy. assert (Hy : 0 < y) by lra.
  destruct (ilog2_spec x Hx) as [H1 H2], (ilog2_spec y Hy) as [H3 H4].
  destruct (Z_le_gt_dec (ilog2 x) (ilog2 y)) as [C|C]; [exact C|].
  exfalso. assert (pow2 (ilog2 y + 1) <= pow2 (ilog2 x)) by (apply pow2_le; lia).
  lra.
Qed.

Lemma ilog2_comp x y : 0 < x -> x == y -> ilog2 x = ilog2 y.
Proof.
  intros Hx H. assert (Hy : 0 < y) by lra.
  destruct (ilog2_spec y Hy) as [H3 H4].
  apply ilog2_unique; lra.
Qed.

(** ** Scaling by a power of two *)

Lemma scale_le z x q : z * pow2 q <= x <-> z <= x / pow2 q.
Proof.
  generalize (pow2_pos q); intros Hp. split; intros H.
  - apply Qle_shift_div_l; assumption.
  - apply (Qmult_le_r _ _ (pow2 q)) in H; [|exact Hp].
    assert (E : x / pow2 q * pow2 q == x) by (field; lra). lra.
Qed.

Lemma scale_lt z x q : x < z * pow2 q <-> x / pow2 q < z.
Proof.
  generalize (pow2_pos q); intros Hp. split; intros H.
  - apply Qlt_shift_div_r; assumption.
  - apply (Qmult_lt_r _ _ (pow2 q)) in H; [|exact Hp].
    assert (E : x / pow2 q * pow2 q == x) by (field; lra). lra.
Qed.

Lemma scale_inject m q : inject_Z m * pow2 q / pow2 q == inject_Z m.
Proof. generalize (pow2_pos q); intros Hp. field. lra. Qed.

(** ** The last place *)

Lemma ulp_exp_upper x : 0 < x -> x < pow2 (ulp_exp x + 53).
Proof.
  intros Hx. destruct (ilog2_spec x Hx) as [_ H].
  eapply Qlt_le_trans; [exact H|]. apply pow2_le. unfold ulp_exp. lia.
Qed.

Lemma ulp_exp_lower x :
  0 < x -> (-1074 < ulp_exp x)%Z -> pow2 (ulp_exp x + 52) <= x.
Proof.
  intros Hx Hq. destruct (ilog2_spec x Hx) as [H _].
  replace (ulp_exp x + 52)%Z with (ilog2 x); [exact H|]. unfold ulp_exp in *. lia.
Qed.

Lemma ulp_exp_mono x y : 0 < x -> x <= y -> (ulp_exp x <= ulp_exp y)%Z.
Proof.
  intros Hx Hxy. generalize (ilog2_mono x y Hx Hxy). unfold ulp_exp. lia.
Qed.

Lemma ulp_exp_comp x y : 0 < x -> x == y -> ulp_exp x = ulp_exp y.
Proof. intros Hx H. unfold ulp_exp. now rewrite (ilog2_comp x y Hx H). Qed.

(** The significand of a positive number has at most 53 bits, and 53 bits
    exactly for a normal number. *)
Lemma significand_upper x :
  0 < x -> (rint (x / pow2 (ulp_exp x)) <= 2 ^ 53)%Z.
Proof.
  intros Hx. rewrite <- (rint_inject (2 ^ 53)). apply rint_mono.
  apply Qlt_le_weak. apply scale_lt.
  rewrite <- pow2_inject by lia. rewrite <- pow2_plus.
  rewrite Z.add_comm. now apply ulp_exp_upper.
Qed.

Lemma significand_lower x :
  0 < x -> (-1074 < ulp_exp x)%Z -> (2 ^ 52 <= rint (x / pow2 (ulp_exp x)))%Z.
Proof.
  intros Hx Hq. rewrite <- (rint_inject (2 ^ 52)) at 1. apply rint_mono.
  apply scale_le. rewrite <- pow2_inject by lia. rewrite <- pow2_plus.
  rewrite Z.add_comm. now apply ulp_exp_lower.
Qed.

Lemma significand_nonneg x : 0 < x -> (0 <= rint (x / pow2 (ulp_exp x)))%Z.
Proof.
  intros Hx. rewrite <- (rint_inject 0) at 1. apply rint_mono.
  apply scale_le. change (inject_Z 0) with 0. lra.
Qed.

Lemma round_pos_nonneg x : 0 < x -> 0 <= round_pos x.
Proof.
  intros Hx. unfold round_pos. apply Qmult_le_0_compat.
  - change 0 with (inject_Z 0). rewrite <- Zle_Qle. now apply significand_nonneg.
  - apply Qlt_le_weak, pow2_pos.
Qed.

Lemma round_pos_comp x y : 0 < x -> x == y -> round_pos x == round_pos y.
Proof.
  intros Hx H. unfold round_pos. rewrite (ulp_exp_comp x y Hx H).
  rewrite (rint_comp (x / pow2 (ulp_exp y)) (y / pow2 (ulp_exp y))).
  - reflexivity.
  - now rewrite H.
Qed.

(** A number [m * 2 ** q], with [q] the last place of [x] and [m] of at
    most 53 bits, is its own rounding. *)
Lemma round_pos_grid m q :
  (0 < m <= 2 ^ 53)%Z -> (-1074 <= q)%Z ->
  (q = (-1074)%Z \/ (2 ^ 52 <= m)%Z) ->
  round_pos (inject_Z m * pow2 q) == inject_Z m * pow2 q.
Proof.
  intros Hm Hq Hn. set (y := inject_Z m * pow2 q).
  assert (Hy : 0 < y).
  { apply Qmult_lt_0_compat; [|apply pow2_pos].
    change 0 with (inject_Z 0). rewrite <- Zlt_Qlt. lia. }
  destruct (Z.eq_dec m (2 ^ 53)) as [E53|N53].
  - (* the next binade *)
    assert (Ey : y == pow2 (q + 53)).
    { unfold y. rewrite E53, <- pow2_inject by lia. rewrite <- pow2_plus.
      now rewrite Z.add_comm. }
    assert (El : ilog2 y = (q + 53)%Z).
    { apply ilog2_unique.
      - rewrite Ey. apply Qle_refl.
      - rewrite Ey. apply pow2_lt. lia. }
    unfold round_pos. assert (Eu : ulp_exp y = (q + 1)%Z) by (unfold ulp_exp; lia).
    rewrite Eu.
    assert (Es : y / pow2 (q + 1) == inject_Z (2 ^ 52)).
    { rewrite Ey. replace (q + 53)%Z with (52 + (q + 1))%Z by lia.
      rewrite (pow2_plus 52 (q + 1)), (pow2_inject 52) by lia.
      apply scale_inject. }
    rewrite (rint_comp _ _ Es), rint_inject. rewrite Ey.
    replace (q + 53)%Z with (52 + (q + 1))%Z by lia.
    rewrite (pow2_plus 52 (q + 1)), (pow2_inject 52) by lia. reflexivity.
  - assert (Hup : y < pow2 (q + 53)).
    { unfold y. rewrite Z.add_comm, pow2_plus. apply Qmult_lt_r; [apply pow2_pos|].
      rewrite pow2_inject by lia. rewrite <- Zlt_Qlt. lia. }
    assert (Eu : ulp_exp y = q).
    { destruct (ilog2_spec y Hy) as [H1 H2].
      assert (A : (ilog2 y < q + 53)%Z).
      { destruct (Z_lt_ge_dec (ilog2 y) (q + 53)) as [C|C]; [exact C|].
        exfalso. assert (pow2 (q + 53) <= pow2 (ilog2 y)) by (apply pow2_le; lia).
        lra. }
      destruct Hn as [Hs|Hn].
      + unfold ulp_exp. lia.
      + assert (B : (q + 52 <= ilog2 y)%Z).
        { destruct (Z_le_gt_dec (q + 52) (ilog2 y)) as [C|C]; [exact C|].
          exfalso.
          assert (pow2 (ilog2 y + 1) <= pow2 (q + 52)) by (apply pow2_le; lia).
          assert (pow2 (q + 52) <= y).
          { unfold y. rewrite Z.add_comm, pow2_plus.
            apply Qmult_le_r; [apply pow2_pos|].
            rewrite pow2_inject by lia. rewrite <- Zle_Qle. lia. }
          lra. }
        unfold ulp_exp. lia. }
    unfold round_pos. rewrite Eu.
    rewrite (rint_comp (y / pow2 q) (inject_Z m) (scale_inject m q)), rint_inject.
    reflexivity.
Qed.

Lemma round_pos_idem x :
  0 < x -> 0 < round_pos x -> round_pos (round_pos x) == round_pos x.
Proof.
  intros Hx Hr. unfold round_pos at 2 3. apply round_pos_grid.
  - split; [|now apply significand_upper].
    unfold round_pos in Hr.
    destruct (Z_lt_ge_dec 0 (rint (x / pow2 (ulp_exp x)))) as [C|C]; [exact C|].
    exfalso. generalize (significand_nonneg x Hx); intros H0.
    assert (E : rint (x / pow2 (ulp_exp x)) = 0%Z) by lia.
    rewrite E in Hr. change (inject_Z 0) with 0 in Hr. lra.
  - unfold ulp_exp. lia.
  - destruct (Z.eq_dec (ulp_exp x) (-1074)) as [E|N]; [now left|right].
    apply significand_lower; [exact Hx|]. unfold ulp_exp in *. lia.
Qed.

Lemma round_pos_mono x y : 0 < x -> x <= y -> round_pos x <= round_pos y.
Proof.
  intros Hx Hxy. assert (Hy : 0 < y) by lra.
  generalize (ulp_exp_mono x y Hx Hxy); intros Hq.
  destruct (Z.eq_dec (ulp_exp x) (ulp_exp y)) as [E|N].
  - unfold round_pos. rewrite E. apply Qmult_le_r; [apply pow2_pos|].
    rewrite <- Zle_Qle. apply rint_mono.
    apply Qmult_le_r; [apply Qinv_lt_0_compat, pow2_pos|exact Hxy].
  - assert (Hlt : (ulp_exp x + 1 <= ulp_exp y)%Z) by lia.
    assert (Hn : (-1074 < ulp_exp y)%Z) by (unfold ulp_exp in *; lia).
    apply Qle_trans with (pow2 (ulp_exp x + 53)).
    + unfold round_pos. rewrite Z.add_comm, pow2_plus.
      apply Qmult_le_r; [apply pow2_pos|].
      rewrite (pow2_inject 53) by lia. rewrite <- Zle_Qle.
      now apply significand_upper.
    + apply Qle_trans with (pow2 (ulp_exp y + 52)); [apply pow2_le; lia|].
      unfold round_pos. rewrite Z.add_comm, pow2_plus.
      apply Qmult_le_r; [apply pow2_pos|].
      rewrite (pow2_inject 52) by lia. rewrite <- Zle_Qle.
      now apply significand_lower.
Qed.

(** ** round64 *)

Lemma round64_pos x : 0 < x -> round64 x == round_pos x.
Proof.
  intros H. unfold round64. rewrite (proj1 (Qlt_alt 0 x) H).
  apply Qred_correct.
Qed.

Lemma round64_neg x : x < 0 -> round64 x == - round_pos (- x).
Proof.
  intros H. unfold round64. rewrite (proj1 (Qgt_alt 0 x) H).
  apply Qred_correct.
Qed.

Lemma round64_zero x : x == 0 -> round64 x = 0.
Proof.
  intros H. unfold round64. symmetry in H. rewrite (proj1 (Qeq_alt 0 x) H).
  reflexivity.
Qed.

Lemma round64_comp x y : x == y -> round64 x == round64 y.
Proof.
  intros H. destruct (Q_dec 0 x) as [[C|C]|C].
  - rewrite (round64_pos x C), (round64_pos y) by lra. now apply round_pos_comp.
  - rewrite (round64_neg x C), (round64_neg y) by lra.
    apply Qopp_comp. apply round_pos_comp; lra.
  - rewrite (round64_zero x), (round64_zero y) by lra. reflexivity.
Qed.

#[global] Instance round64_proper : Proper (Qeq ==> Qeq) round64.
Proof. intros x y H. now apply round64_comp. Qed.

Lemma round64_mono x y : x <= y -> round64 x <= round64 y.
Proof.
  intros Hxy. destruct (Q_dec 0 x) as [[Cx|Cx]|Cx].
  - rewrite (round64_pos x Cx), (round64_pos y) by lra. now apply round_pos_mono.
  - rewrite (round64_neg x Cx).
    assert (Hx : round_pos (- x) >= 0) by (apply round_pos_nonneg; lra).
    destruct (Q_dec 0 y) as [[Cy|Cy]|Cy].
    + rewrite (round64_pos y Cy).
      generalize (round_pos_nonneg y Cy). lra.
    + rewrite (round64_neg y Cy).
      assert (round_pos (- y) <= round_pos (- x)) by (apply round_pos_mono; lra).
      lra.
    + rewrite (round64_zero y) by lra. lra.
  - rewrite (round64_zero x) by lra.
    destruct (Q_dec 0 y) as [[Cy|Cy]|Cy].
    + rewrite (round64_pos y Cy). now apply round_pos_nonneg.
    + exfalso. lra.
    + rewrite (round64_zero y) by lra. apply Qle_refl.
Qed.

(** Adding a number that is not negative to a binary64 number does not
    give less, after rounding. *)
Lemma add64_grows x d : 0 <= d -> round64 x == x -> x <= add64 x d.
Proof.
  intros Hd Hx. rewrite <- Hx at 1. apply round64_mono. lra.
Qed.

Lemma round64_idem x : round64 (round64 x) == round64 x.
Proof.
  destruct (Q_dec 0 x) as [[C|C]|C].
  - rewrite (round64_pos x C).
    generalize (round_pos_nonneg x C); intros H0.
    destruct (Qlt_le_dec 0 (round_pos x)) as [P|P].
    + rewrite round64_pos by exact P. now apply round_pos_idem.
    + rewrite round64_zero by lra. lra.
  - rewrite (round64_neg x C).
    assert (Cx : 0 < - x) by lra.
    generalize (round_pos_nonneg (- x) Cx); intros H0.
    destruct (Qlt_le_dec 0 (round_pos (- x))) as [P|P].
    + rewrite round64_neg by lra.
      apply Qopp_comp.
      rewrite (round_pos_comp (- - round_pos (- x)) (round_pos (- x))).
      * now apply round_pos_idem.
      * lra.
      * ring.
    + rewrite round64_zero by lra. lra.
  - rewrite (round64_zero x) by lra. now rewrite round64_zero.
Qed.

(** ** Strings: the text of an integer and the last underscore *)

Lemma has_char_app c s1 s2 :
  has_char c (s1 ++ s2) = (has_char c s1 || has_char c s2)%bool.
Proof.
  induction s1 as [|a s1 IH]; simpl; [reflexivity|].
  rewrite IH. apply orb_assoc.
Qed.

Lemma string_app_assoc (s1 s2 s3 : string) :
  ((s1 ++ s2) ++ s3 = s1 ++ (s2 ++ s3))%string.
Proof.
  induction s1 as [|a s1 IH]; simpl; [reflexivity|]. now rewrite IH.
Qed.

(** A string is cut in one way only at its last occurrence of [c]. *)
Lemma split_at_last c (p1 p2 a b : string) :
  has_char c a = false -> has_char c b = false ->
  (p1 ++ String c a = p2 ++ String c b)%string ->
  p1 = p2 /\ a = b.
Proof.
  intros Ha Hb. revert p2.
  induction p1 as [|x p1 IH]; intros [|y p2] H; simpl in H.
  - injection H as ->. now split.
  - injection H as <- ->. rewrite has_char_app in Ha. simpl in Ha.
    rewrite Ascii.eqb_refl, orb_true_r in Ha. discriminate.
  - injection H as -> <-. rewrite has_char_app in Hb. simpl in Hb.
    rewrite Ascii.eqb_refl, orb_true_r in Hb. discriminate.
  - injection H as -> H. destruct (IH _ H) as [-> ->]. now split.
Qed.

Lemma uint_of_zeros n d :
  NilEmpty.uint_of_string (zeros n ++ NilEmpty.string_of_uint d)
  = Some (lead0 n d).
Proof.
  induction n as [|n IH]; simpl.
  - apply NilEmpty.usu.
  - now rewrite IH.
Qed.

Lemma of_uint_lead0 n d : Z.of_uint (lead0 n d) = Z.of_uint d.
Proof. induction n as [|n IH]; simpl; [reflexivity|exact IH]. Qed.

Lemma has_underscore_uint d :
  has_char "_" (NilEmpty.string_of_uint d) = false.
Proof. induction d; simpl; auto. Qed.

Lemma has_underscore_zeros n : has_char "_" (zeros n) = false.
Proof. induction n; simpl; auto. Qed.

Lemma has_minus_uint d :
  has_char "-" (NilEmpty.string_of_uint d) = false.
Proof. induction d; simpl; auto. Qed.

Lemma has_minus_zeros n : has_char "-" (zeros n) = false.
Proof. induction n; simpl; auto. Qed.

(** The text of a natural number, as [str_int] prints it. *)
Lemma str_int_nonneg (n : Z) :
  (0 <= n)%Z ->
  exists d, Z.to_int n = Pos d /\ str_int n = NilEmpty.string_of_uint d.
Proof.
  intro Hn. unfold str_int. destruct n as [|p|p]; [| |lia].
  - exists (D0 Nil). split; reflexivity.
  - exists (Pos.to_uint p). split; [reflexivity|].
    simpl. unfold NilZero.string_of_uint.
    destruct (Pos.to_uint p) eqn:E; try reflexivity.
    exfalso. revert E. apply DecimalPos.Unsigned.to_uint_nonnil.
Qed.

Lemma int_of_digits s :
  has_char "-" s = false ->
  NilEmpty.int_of_string s = option_map Pos (NilEmpty.uint_of_string s).
Proof.
  destruct s as [|a s]; simpl; [reflexivity|].
  intro H. apply orb_false_iff in H. destruct H as [-> _]. reflexivity.
Qed.

Lemma read_fmt_03d (n : Z) : read_int (fmt_03d n) = Some n.
Proof.
  unfold read_int, fmt_03d, pad0.
  destruct (n <? 0)%Z eqn:Hn.
  - apply Z.ltb_lt in Hn.
    destruct (str_int_nonneg (Z.abs n)) as [d [Hd ->]]; [lia|].
    simpl. rewrite uint_of_zeros. simpl.
    unfold Z.of_int. rewrite of_uint_lead0.
    change (Z.of_uint d) with (Z.of_int (Pos d)).
    rewrite <- Hd, DecimalZ.of_to. f_equal. lia.
  - apply Z.ltb_ge in Hn.
    destruct (str_int_nonneg n Hn) as [d [Hd ->]].
    rewrite int_of_digits.
    + rewrite uint_of_zeros. simpl. rewrite of_uint_lead0.
      change (Z.of_uint d) with (Z.of_int (Pos d)).
      now rewrite <- Hd, DecimalZ.of_to.
    + rewrite has_char_app, has_minus_zeros, has_minus_uint. reflexivity.
Qed.

Lemma fmt_03d_inj (n m : Z) : fmt_03d n = fmt_03d m -> n = m.
Proof.
  intro H. apply (f_equal read_int) in H.
  rewrite !read_fmt_03d in H. now injection H.
Qed.

Lemma fmt_03d_no_underscore (n : Z) : has_char "_" (fmt_03d n) = false.
Proof.
  unfold fmt_03d, pad0. destruct (n <? 0)%Z eqn:Hn.
  - destruct (str_int_nonneg (Z.abs n)) as [d [_ ->]]; [lia|].
    simpl. now rewrite has_char_app, has_underscore_zeros,
      has_underscore_uint.
  - apply Z.ltb_ge in Hn. destruct (str_int_nonneg n Hn) as [d [_ ->]].
    now rewrite has_char_app, has_underscore_zeros, has_underscore_uint.
Qed.

(** ** Loops that can raise *)

Lemma fold_result_inv (A B : Type) (P : A -> Prop) (f : A -> B -> result A)
  (l : list B) :
  (forall a b a', In b l -> P a -> f a b = Ok a' -> P a') ->
  forall a a', P a -> fold_result f l a = Ok a' -> P a'.
Proof.
  induction l as [|b l IH]; intros Hstep a a' Ha Hfold; simpl in Hfold.
  - injection Hfold as <-. exact Ha.
  - destruct (f a b) as [a1|e] eqn:Hf; simpl in Hfold; [|discriminate].
    apply (IH (fun a0 b0 a0' Hin => Hstep a0 b0 a0' (or_intror Hin)) a1 a').
    + apply (Hstep a b a1); [now left|exact Ha|exact Hf].
    + exact Hfold.
Qed.

Lemma fold_result_total (A B : Type) (f : A -> B -> result A) (l : list B) :
  (forall a b, exists a', f a b = Ok a') ->
  forall a, exists a', fold_result f l a = Ok a'.
Proof.
  intro Hf. induction l as [|b l IH]; intro a; simpl.
  - now exists a.
  - destruct (Hf a b) as [a1 ->]. simpl. apply IH.
Qed.

(** [H] is a completed loop; the goal follows from the invariant [Inv]. *)
Ltac loop_invariant Inv H :=
  eapply fold_result_inv with (P := Inv); [ | | exact H]; cbv beta.

(** A closed equation that holds by evaluation. *)
Ltac by_computation := vm_compute; reflexivity.

(** * The sky-grid resolver *)

Module PS1Facts.

Import PS1 PS1Notions ResolverViews.

Lemma subcell_names_hundred :
  List.length subcell_names = 100%nat /\ NoDup subcell_names.
Proof.
  split; [reflexivity|].
  apply (NoDup_count_occ' string_dec). intros s Hs.
  unfold subcell_names in Hs. simpl in Hs.
  repeat (destruct Hs as [<-|Hs]; [vm_compute; reflexivity|]).
  destruct Hs.
Qed.

Lemma cell_str_digits (y x : nat) :
  (y < 10)%nat -> (x < 10)%nat ->
  cell_str (Z.of_nat y) (Z.of_nat x) = name_0yx y x.
Proof.
  intros Hy Hx.
  do 10 (destruct y as [|y]; [do 10 (destruct x as [|x];
                                      [reflexivity|]); lia|]).
  lia.
Qed.

Section Resolver.

Variable w : Q * Q -> Q * Q -> Q * Q -> Q * Q -> Q * Q.
Variable inter : list (Q * Q) -> list (Q * Q) -> bool.

(** The sub-cell (y, x) gives one row, named after it, when its polygon
    meets the image, and no row otherwise. *)
Lemma cell_rows_cases im n Xcell Ycell ra dec crpix1 crpix2 (y x : nat) :
  (y < 10)%nat -> (x < 10)%nat ->
  cell_rows w inter im n Xcell Ycell ra dec crpix1 crpix2
            (Z.of_nat y) (Z.of_nat x) = [] \/
  (inter (corners im)
         (get_RADEC_coord w crpix1 crpix2 Xcell Ycell
                          (Z.of_nat x) (Z.of_nat y) ra dec) = true /\
   exists sc,
     cell_rows w inter im n Xcell Ycell ra dec crpix1 crpix2
               (Z.of_nat y) (Z.of_nat x) = [sc] /\
     projcell_id sc = projcell_str n /\ cell_id sc = name_0yx y x).
Proof.
  intros Hy Hx. unfold cell_rows.
  destruct (inter _ _) eqn:E; [right|now left].
  split; [reflexivity|].
  unfold get_RADEC_coord. cbn [map]. eexists. split; [reflexivity|].
  cbn [projcell_id cell_id]. split; [reflexivity|].
  now apply cell_str_digits.
Qed.

(** Every row [ps1_cell_coord] returns for the projection cell [n] is the
    row of one of its hundred sub-cells. *)
Lemma ps1_cell_coord_ids im n Xcell Ycell ra dec crpix1 crpix2 sc :
  In sc (ps1_cell_coord w inter im n Xcell Ycell ra dec crpix1 crpix2) ->
  exists y x,
    (y < 10)%nat /\ (x < 10)%nat /\
    cell_rows w inter im n Xcell Ycell ra dec crpix1 crpix2
              (Z.of_nat y) (Z.of_nat x) = [sc].
Proof.
  unfold ps1_cell_coord, range. intro H.
  apply in_flat_map in H. destruct H as [y [Hy H]].
  apply in_flat_map in H. destruct H as [x [Hx H]].
  apply in_map_iff in Hy. destruct Hy as [ny [<- Hny]].
  apply in_map_iff in Hx. destruct Hx as [nx [<- Hnx]].
  apply in_seq in Hny. apply in_seq in Hnx.
  exists ny, nx. split; [lia|]. split; [lia|].
  destruct (cell_rows_cases im n Xcell Ycell ra dec crpix1 crpix2 ny nx)
    as [E|[_ [sc' [E _]]]]; try lia; rewrite E in H.
  - destruct H.
  - destruct H as [<-|[]]. exact E.
Qed.


(** *** What one step of the loops leaves behind *)

Lemma float_col_one (A : Type) (f : A -> Q) (rows : list A) (v : Q) :
  float_col (map f rows) = Ok v -> exists z, rows = [z] /\ f z = v.
Proof.
  destruct rows as [|z [|z' rows]]; cbn; intro H; try discriminate.
  injection H as <-. now exists z.
Qed.

Lemma cell_step_inv im rows acc c acc' :
  cell_step w inter im rows acc c = Ok acc' ->
  acc' = acc \/
  exists z,
    rows = [z] /\
    acc' = acc ++ [ps1_cell_coord w inter im c (XCELL z) (YCELL z)
                     ((inject_Z c - PROJCELL z) * 360 / NBAND z) (DEC z)
                     (CRPIX1 z) (CRPIX2 z)].
Proof.
  unfold cell_step. intro H.
  destruct (float_col (map PROJCELL rows)) as [p|] eqn:Ep; simpl in H;
    [|discriminate].
  apply float_col_one in Ep. destruct Ep as [z [-> <-]].
  cbn [map float_col bind] in H. injection H as <-.
  destruct (0 <? _)%nat; [right|now left].
  exists z. now split.
Qed.

Lemma cell_step_total im z acc c :
  exists acc', cell_step w inter im [z] acc c = Ok acc'.
Proof. unfold cell_step. simpl. eauto. Qed.

Lemma zone_step_inv cat im ra_min ra_max st zone_id st' :
  zone_step w inter cat im ra_min ra_max st zone_id = Ok st' ->
  exists total,
    examined st' = examined st ++ [(zone_id, total)] /\
    fold_result
      (cell_step w inter im (filter (fun z => Z.eqb (ZONE z) zone_id) cat))
      total (all_cells st) = Ok (all_cells st').
Proof.
  unfold zone_step. intro H.
  destruct (fold_result _ [ra_min; ra_max] _) as [p|]; simpl in H;
    [|discriminate].
  destruct (first (fst p)) as [lo|]; simpl in H; [|discriminate].
  destruct (last (fst p)) as [hi|]; simpl in H; [|discriminate].
  destruct (fold_result _ (arange lo (hi + 1)) _) as [cells|] eqn:Hc;
    simpl in H; [|discriminate].
  injection H as <-. exists (arange lo (hi + 1)). now split.
Qed.

(** A zone that the catalog lists once runs to completion, whatever the
    projection and the polygon test answer. *)
Lemma zone_step_single cat im ra_min ra_max st zone_id z l b lo hi :
  filter (fun z => Z.eqb (ZONE z) zone_id) cat = [z] ->
  fold_result (projcell_step [z]) [ra_min; ra_max]
              (projcell_idx_list st, (-1)%Z) = Ok (l, b) ->
  first l = Ok lo -> last l = Ok hi ->
  exists cells,
    zone_step w inter cat im ra_min ra_max st zone_id
    = Ok (mkState l cells (examined st ++ [(zone_id, arange lo (hi + 1))])).
Proof.
  intros Hz Hp Hlo Hhi. unfold zone_step. rewrite Hz, Hp. simpl.
  rewrite Hlo, Hhi. simpl.
  destruct (fold_result_total _ _ (cell_step w inter im [z])
              (arange lo (hi + 1)) (cell_step_total im z) (all_cells st))
    as [cells ->].
  now exists cells.
Qed.

Lemma from_examined_app cat im ex ex' sc :
  from_examined w inter cat im ex sc ->
  from_examined w inter cat im (ex ++ ex') sc.
Proof.
  intros [zid [total [n [z [y [x [Hin H]]]]]]].
  exists zid, total, n, z, y, x. split; [apply in_or_app; now left|exact H].
Qed.

Lemma zone_step_tables cat im ra_min ra_max st zone_id st' :
  tables_from w inter cat im (examined st) (all_cells st) ->
  zone_step w inter cat im ra_min ra_max st zone_id = Ok st' ->
  tables_from w inter cat im (examined st') (all_cells st').
Proof.
  intros Hst H. apply zone_step_inv in H. destruct H as [total [Hex Hfold]].
  rewrite Hex.
  loop_invariant
    (fun acc => tables_from w inter cat im
                  (examined st ++ [(zone_id, total)]) acc) Hfold.
  - intros acc c acc' Hc Hacc Hstep.
    apply cell_step_inv in Hstep.
    destruct Hstep as [->|[z [Hz ->]]]; [exact Hacc|].
    intros tbl sc Htbl Hsc. apply in_app_or in Htbl.
    destruct Htbl as [Htbl|[<-|[]]]; [now apply (Hacc tbl)|].
    apply ps1_cell_coord_ids in Hsc. destruct Hsc as [y [x [Hy [Hx Hrow]]]].
    exists zone_id, total, c, z, y, x.
    split; [apply in_or_app; right; now left|].
    repeat split; assumption.
  - intros tbl sc Htbl Hsc. apply from_examined_app. now apply (Hst tbl).
Qed.

Lemma ps1_loop_tables cat im st :
  ps1_loop w inter cat im = Ok st ->
  tables_from w inter cat im (examined st) (all_cells st).
Proof.
  unfold ps1_loop. intro H.
  destruct (all_zones_id _ _ _) as [zones|]; simpl in H; [|discriminate].
  loop_invariant
    (fun s => tables_from w inter cat im (examined s) (all_cells s)) H.
  - intros s z s' _ Hs Hstep.
    exact (zone_step_tables _ _ _ _ _ _ _ Hs Hstep).
  - intros tbl sc [].
Qed.

Lemma ps1_grid_rows cat im cells sc :
  ps1_grid w inter cat im = Ok cells -> In sc cells ->
  exists st tbl,
    ps1_loop w inter cat im = Ok st /\ In tbl (all_cells st) /\ In sc tbl.
Proof.
  unfold ps1_grid. intros H Hsc.
  destruct (ps1_loop w inter cat im) as [st|]; simpl in H; [|discriminate].
  exists st.
  destruct (all_cells st) as [|t1 [|t2 rest]] eqn:Hall; simpl in H.
  - discriminate.
  - injection H as <-. exists t1. repeat split; [now left|exact Hsc].
  - injection H as <-.
    change (In sc (List.concat (t1 :: t2 :: rest))) in Hsc.
    apply in_concat in Hsc. destruct Hsc as [tbl [Htbl Hsc]].
    exists tbl. now repeat split.
Qed.

(** When no zone holds an end of the declination extent strictly inside,
    line 127 raises. *)
Lemma no_zone_selected cat im :
  (forall z, In z cat ->
     zone_mask
       (min4 (snd (corner1 im)) (snd (corner2 im)) (snd (corner3 im))
             (snd (corner4 im)))
       (max4 (snd (corner1 im)) (snd (corner2 im)) (snd (corner3 im))
             (snd (corner4 im))) z = false) ->
  ps1_grid w inter cat im = Raise IndexError.
Proof.
  intro Hnone. unfold ps1_grid, ps1_loop, all_zones_id.
  rewrite (filter_none _ _ _ Hnone). reflexivity.
Qed.

(** C10.  Every row of the table [ps1_grid] returns is the row lines 79-96
    make of a sub-cell (y, x), with y and x from 0 to 9, of a candidate
    cell [n] of a zone the loop examined, whose polygon meets the image.
    The row names the sub-cell by the three characters 0, y, x, one of
    the hundred distinct names of [subcell_names], and the projection
    cell by the decimal text of [n] with one 0 put in front exactly when
    [n] is below 1000. *)
Theorem skycell_names cat im cells sc :
  ps1_grid w inter cat im = Ok cells -> In sc cells ->
  exists st zone_id total n z y x,
    ps1_loop w inter cat im = Ok st /\
    In (zone_id, total) (examined st) /\ In n total /\
    filter (fun z' => Z.eqb (ZONE z') zone_id) cat = [z] /\
    (y < 10)%nat /\ (x < 10)%nat /\
    cell_rows w inter im n (XCELL z) (YCELL z)
              ((inject_Z n - PROJCELL z) * 360 / NBAND z) (DEC z)
              (CRPIX1 z) (CRPIX2 z) (Z.of_nat y) (Z.of_nat x) = [sc] /\
    inter (corners im)
          (get_RADEC_coord w (CRPIX1 z) (CRPIX2 z) (XCELL z) (YCELL z)
                           (Z.of_nat x) (Z.of_nat y)
                           ((inject_Z n - PROJCELL z) * 360 / NBAND z)
                           (DEC z)) = true /\
    cell_id sc = String "0" (String (nth y digits "?"%char)
                   (String (nth x digits "?"%char) EmptyString)) /\
    In (cell_id sc) subcell_names /\
    List.length subcell_names = 100%nat /\
    NoDup subcell_names /\
    projcell_id sc = (if (n <? 1000)%Z
                      then String "0" (str_int n) else str_int n).
Proof.
  intros Hgrid Hsc.
  destruct (ps1_grid_rows _ _ _ _ Hgrid Hsc) as [st [tbl [Hloop [Htbl Hin]]]].
  destruct (ps1_loop_tables _ _ _ Hloop tbl sc Htbl Hin)
    as [zid [total [n [z [y [x [Hex [Hn [Hz [Hy [Hx Hrow]]]]]]]]]]].
  unfold subcell_rows in Hrow.
  destruct (cell_rows_cases im n (XCELL z) (YCELL z)
              ((inject_Z n - PROJCELL z) * 360 / NBAND z) (DEC z)
              (CRPIX1 z) (CRPIX2 z) y x Hy Hx)
    as [E|[Hi [sc' [E [Hp Hc]]]]]; rewrite E in Hrow; [discriminate|].
  injection Hrow as ->.
  exists st, zid, total, n, z, y, x.
  split; [exact Hloop|]. split; [exact Hex|]. split; [exact Hn|].
  split; [exact Hz|]. split; [exact Hy|]. split; [exact Hx|].
  split; [exact E|]. split; [exact Hi|]. split; [exact Hc|]. split.
  - rewrite Hc. unfold subcell_names. apply in_flat_map.
    exists y. split; [apply in_seq; lia|].
    apply in_map. apply in_seq. lia.
  - split; [reflexivity|]. split; [apply subcell_names_hundred|exact Hp].
Qed.

(** C1.  A footprint whose smallest declination is the lower bound of a
    zone [z1] of the catalog and whose largest declination is the upper
    bound of a zone [z2], not below that of [z1] - the footprint that
    covers exactly one zone, or several adjacent ones - covers the
    declinations of [z1] and makes [ps1_grid] raise [IndexError],
    whatever the projection and the polygon test answer, when no bound
    of a zone lies strictly inside another zone: the mask of line 124
    then selects no zone. *)
Theorem footprint_on_zone_bounds_raises cat im z1 z2 :
  (forall z z', In z cat -> In z' cat -> bounds_outside z z') ->
  In z1 cat -> In z2 cat ->
  DEC_MIN z1 < DEC_MAX z1 -> DEC_MAX z1 <= DEC_MAX z2 ->
  dec_min_of im == DEC_MIN z1 -> dec_max_of im == DEC_MAX z2 ->
  (dec_min_of im <= DEC_MIN z1 /\ DEC_MIN z1 < DEC_MAX z1 /\
   DEC_MAX z1 <= dec_max_of im) /\
  ps1_grid w inter cat im = Raise IndexError.
Proof.
  intros Htile H1 H2 Hpos Hord Hmin Hmax.
  split; [rewrite Hmin, Hmax; repeat split;
          [apply Qle_refl|exact Hpos|exact Hord]|].
  apply no_zone_selected. intros z Hz.
  fold (dec_min_of im) (dec_max_of im).
  destruct (Htile z1 z H1 Hz) as [Ha _], (Htile z2 z H2 Hz) as [_ Hb].
  unfold zone_mask.
  apply orb_false_iff. split; apply andb_false_iff.
  - destruct (Qltb (DEC_MIN z) (dec_min_of im)) eqn:E1; [|now left].
    destruct (Qltb (dec_min_of im) (DEC_MAX z)) eqn:E2; [|now right].
    apply Qltb_lt in E1, E2. exfalso. apply Ha. rewrite <- Hmin. now split.
  - destruct (Qltb (DEC_MIN z) (dec_max_of im)) eqn:E1; [|now left].
    destruct (Qltb (dec_max_of im) (DEC_MAX z)) eqn:E2; [|now right].
    apply Qltb_lt in E1, E2. exfalso. apply Hb. rewrite <- Hmax. now split.
Qed.

(** C6.  For the image across zones 0 and 1 the loop examines the cell
    102 for zone 0 and the 73 cells 102..174 for zone 1, although both
    right-ascension extrema of the image round to the cell 174 of zone 1:
    [projcell_idx_list] still holds the index appended for zone 0. *)
Theorem second_zone_range_starts_in_first_zone :
  exists st,
    ps1_loop w inter Scenario.grid Scenario.im_two_zones = Ok st /\
    examined st = [(0%Z, [102%Z]); (1%Z, arange 102 175)] /\
    projcell_idx_list st = [102%Z; 174%Z] /\
    rint (PROJCELL Scenario.zone1 + 10 * NBAND Scenario.zone1 / 360) = 174%Z /\
    rint (PROJCELL Scenario.zone1 + 11 * NBAND Scenario.zone1 / 360) = 174%Z /\
    rint (PROJCELL Scenario.zone0 + 10 * NBAND Scenario.zone0 / 360) = 102%Z /\
    In 102%Z (arange 102 175) /\ List.length (arange 102 175) = 73%nat.
Proof.
  unfold ps1_loop.
  replace (all_zones_id Scenario.grid _ _) with (Ok [0%Z; 1%Z])
    by by_computation.
  cbn [bind fold_result].
  destruct (zone_step_single Scenario.grid Scenario.im_two_zones
              (min4 10 11 11 10) (max4 10 11 11 10) (mkState [] [] [])
              0%Z Scenario.zone0 [102%Z] 102%Z 102%Z 102%Z
              ltac:(by_computation) ltac:(by_computation)
              ltac:(by_computation) ltac:(by_computation))
    as [cells0 H0].
  cbn [fst snd Scenario.im_two_zones corner1 corner2 corner3 corner4].
  rewrite H0. cbn [bind].
  match goal with
  | |- context [zone_step _ _ _ _ _ _ ?s 1%Z] => set (st1 := s)
  end.
  destruct (zone_step_single Scenario.grid Scenario.im_two_zones
              (min4 10 11 11 10) (max4 10 11 11 10) st1
              1%Z Scenario.zone1 [102%Z; 174%Z] 174%Z 102%Z 174%Z
              ltac:(by_computation) ltac:(by_computation)
              ltac:(by_computation) ltac:(by_computation))
    as [cells1 H1].
  rewrite H1. cbn [bind]. subst st1.
  eexists. split; [reflexivity|]. cbn [examined projcell_idx_list app].
  repeat split; try by_computation.
  vm_compute. now left.
Qed.

(** C8.  For the image whose declinations are exactly those of zone 1,
    4 to 8, the mask of line 124 selects no zone and [ps1_grid] raises
    [IndexError].  For the image with declinations 4 to 9 only zone 2 is
    evaluated, although the interval [4, 8] of zone 1 lies inside the
    declination extent of the image: no zone holds the lower end 4
    strictly inside.  For the image with declinations -1 to 6, whose lower
    end is below the catalog, only zone 1 is evaluated, although the
    interval [0, 4] of zone 0 lies inside the extent. *)
Theorem zone_inside_extent_not_evaluated :
  (ps1_grid w inter Scenario.grid Scenario.im_whole_zone = Raise IndexError /\
   filter (zone_mask 4 8) Scenario.grid = []) /\
  ((exists st,
       ps1_loop w inter Scenario.grid Scenario.im_from_boundary = Ok st /\
       map fst (examined st) = [2%Z]) /\
   map ZONE (filter (zone_mask 4 9) Scenario.grid) = [2%Z] /\
   4 <= DEC_MIN Scenario.zone1 /\ DEC_MAX Scenario.zone1 <= 9) /\
  ((exists st,
       ps1_loop w inter Scenario.grid Scenario.im_below_grid = Ok st /\
       map fst (examined st) = [1%Z]) /\
   map ZONE (filter (zone_mask (-1) 6) Scenario.grid) = [1%Z] /\
   -1 <= DEC_MIN Scenario.zone0 /\ DEC_MAX Scenario.zone0 <= 6).
Proof.
  split; [split|split; (split; [|split; [|split]])].
  - unfold ps1_grid, ps1_loop.
    replace (all_zones_id Scenario.grid _ _) with (@Raise (list Z) IndexError)
      by by_computation.
    reflexivity.
  - by_computation.
  - unfold ps1_loop.
    replace (all_zones_id Scenario.grid _ _) with (Ok [2%Z])
      by by_computation.
    cbn [bind fold_result].
    destruct (zone_step_single Scenario.grid Scenario.im_from_boundary
                (min4 10 11 11 10) (max4 10 11 11 10) (mkState [] [] [])
                2%Z Scenario.zone2 [246%Z] 246%Z 246%Z 246%Z
                ltac:(by_computation) ltac:(by_computation)
                ltac:(by_computation) ltac:(by_computation))
      as [cells2 H2].
    cbn [fst snd Scenario.im_from_boundary corner1 corner2 corner3 corner4].
    rewrite H2. cbn [bind]. eexists. split; reflexivity.
  - by_computation.
  - vm_compute. discriminate.
  - vm_compute. discriminate.
  - unfold ps1_loop.
    replace (all_zones_id Scenario.grid _ _) with (Ok [1%Z])
      by by_computation.
    cbn [bind fold_result].
    destruct (zone_step_single Scenario.grid Scenario.im_below_grid
                (min4 10 11 11 10) (max4 10 11 11 10) (mkState [] [] [])
                1%Z Scenario.zone1 [174%Z] 174%Z 174%Z 174%Z
                ltac:(by_computation) ltac:(by_computation)
                ltac:(by_computation) ltac:(by_computation))
      as [cells1 H1].
    cbn [fst snd Scenario.im_below_grid corner1 corner2 corner3 corner4].
    rewrite H1. cbn [bind]. eexists. split; reflexivity.
  - by_computation.
  - vm_compute. discriminate.
  - vm_compute. discriminate.
Qed.

End Resolver.

(** C10 on the image inside zone 0, for the linear projection and the
    test of the extents: the image meets 28 sub-cells of the projection
    cell 102, the second of them in row 2 and column 3. *)
Lemma skycell_names_witness :
  exists st zone_id total n z y x,
    ps1_loop Scenario.linear_projection Scenario.extents_meet
             Scenario.grid Scenario.im_one_zone = Ok st /\
    In (zone_id, total) (examined st) /\ In n total /\
    filter (fun z' => Z.eqb (ZONE z') zone_id) Scenario.grid = [z] /\
    (y < 10)%nat /\ (x < 10)%nat /\
    cell_rows Scenario.linear_projection Scenario.extents_meet
              Scenario.im_one_zone n (XCELL z) (YCELL z)
              ((inject_Z n - PROJCELL z) * 360 / NBAND z) (DEC z)
              (CRPIX1 z) (CRPIX2 z) (Z.of_nat y) (Z.of_nat x)
    = [Scenario.cell_023] /\
    Scenario.extents_meet (corners Scenario.im_one_zone)
          (get_RADEC_coord Scenario.linear_projection
                           (CRPIX1 z) (CRPIX2 z) (XCELL z) (YCELL z)
                           (Z.of_nat x) (Z.of_nat y)
                           ((inject_Z n - PROJCELL z) * 360 / NBAND z)
                           (DEC z)) = true /\
    cell_id Scenario.cell_023
    = String "0" (String (nth y digits "?"%char)
                         (String (nth x digits "?"%char) EmptyString)) /\
    In (cell_id Scenario.cell_023) subcell_names /\
    List.length subcell_names = 100%nat /\
    NoDup subcell_names /\
    projcell_id Scenario.cell_023
    = (if (n <? 1000)%Z then String "0" (str_int n) else str_int n).
Proof.
  apply (skycell_names Scenario.linear_projection Scenario.extents_meet
           Scenario.grid Scenario.im_one_zone Scenario.cells_met).
  - by_computation.
  - right. left. reflexivity.
Defined.

(** C1 on the catalog of the three zones: the footprint with the
    declinations 4 to 8 of zone 1, and the footprint with the
    declinations 0 to 12 of the whole catalog. *)
Lemma footprint_on_zone_bounds_raises_witness :
  (forall w inter,
      (dec_min_of Scenario.im_whole_zone <= DEC_MIN Scenario.zone1 /\
       DEC_MIN Scenario.zone1 < DEC_MAX Scenario.zone1 /\
       DEC_MAX Scenario.zone1 <= dec_max_of Scenario.im_whole_zone) /\
      ps1_grid w inter Scenario.grid Scenario.im_whole_zone
      = Raise IndexError) /\
  (forall w inter,
      (dec_min_of Scenario.im_whole_grid <= DEC_MIN Scenario.zone0 /\
       DEC_MIN Scenario.zone0 < DEC_MAX Scenario.zone0 /\
       DEC_MAX Scenario.zone0 <= dec_max_of Scenario.im_whole_grid) /\
      ps1_grid w inter Scenario.grid Scenario.im_whole_grid
      = Raise IndexError).
Proof.
  assert (Htile : forall z z', In z Scenario.grid -> In z' Scenario.grid ->
                               bounds_outside z z').
  { intros z z' [<-|[<-|[<-|[]]]] [<-|[<-|[<-|[]]]];
      split; intros [A B]; vm_compute in A, B;
      first [discriminate A | discriminate B
            | apply A; reflexivity | apply B; reflexivity]. }
  split; intros w inter.
  - apply (footprint_on_zone_bounds_raises w inter Scenario.grid
             Scenario.im_whole_zone Scenario.zone1 Scenario.zone1 Htile).
    + right. left. reflexivity.
    + right. left. reflexivity.
    + reflexivity.
    + discriminate.
    + reflexivity.
    + reflexivity.
  - apply (footprint_on_zone_bounds_raises w inter Scenario.grid
             Scenario.im_whole_grid Scenario.zone0 Scenario.zone2 Htile).
    + left. reflexivity.
    + right. right. left. reflexivity.
    + reflexivity.
    + discriminate.
    + reflexivity.
    + reflexivity.
Defined.

End PS1Facts.

(** * Fields, epochs and the names of the lists *)

Module StackingFacts.

Import Stacking TableNotions.

(** ** The names of the lists *)

Section Names.

Variable str_round3 : Q -> string.

Lemma group_name_split tel band ra dec field_id epoch_id :
  exists p,
    group_name str_round3 tel band ra dec field_id epoch_id
    = ((p ++ String "_" (fmt_03d field_id))
         ++ String "_" (fmt_03d epoch_id))%string.
Proof.
  unfold group_name.
  exists (remove_char " " tel ++ "_" ++ remove_char " " band ++ "_"
          ++ remove_char "." (str_round3 ra) ++ "_"
          ++ remove_char "." (str_round3 dec) ++ "_field")%string.
  repeat rewrite string_app_assoc. reflexivity.
Qed.

(** C4, as amended.  The name of a list determines the pair
    (fieldID, epochID): two groups whose pairs differ get different names,
    whatever their telescopes, filters and reference coordinates are. *)
Theorem group_name_distinct_ids tel1 band1 ra1 dec1 tel2 band2 ra2 dec2
  (f1 e1 f2 e2 : Z) :
  (f1, e1) <> (f2, e2) ->
  group_name str_round3 tel1 band1 ra1 dec1 f1 e1
  <> group_name str_round3 tel2 band2 ra2 dec2 f2 e2.
Proof.
  intros Hne Heq.
  destruct (group_name_split tel1 band1 ra1 dec1 f1 e1) as [p1 H1].
  destruct (group_name_split tel2 band2 ra2 dec2 f2 e2) as [p2 H2].
  rewrite H1, H2 in Heq.
  apply split_at_last in Heq; try apply fmt_03d_no_underscore.
  destruct Heq as [Hf He].
  apply split_at_last in Hf; try apply fmt_03d_no_underscore.
  destruct Hf as [_ Hf].
  apply fmt_03d_inj in Hf. apply fmt_03d_inj in He.
  apply Hne. now rewrite Hf, He.
Qed.

End Names.

(** C4, as amended, on two epochs of one field. *)
Lemma group_name_distinct_ids_witness :
  (1%Z, 1%Z) <> (1%Z, 2%Z) /\
  forall str_round3,
    group_name str_round3 "T" "F" 10 0 1 1
    <> group_name str_round3 "T" "F" 10 0 1 2.
Proof.
  split; [discriminate|].
  intro str_round3.
  apply (group_name_distinct_ids str_round3 "T" "F" 10 0 "T" "F" 10 0
                                 1%Z 1%Z 1%Z 2%Z).
  discriminate.
Defined.

(** C4, as stated, fails.  The two images are in two partitions, (T, I1, F)
    and (T, I2, F); each is the only member of field 1, epoch 1 of its
    partition, and [makelists] writes both lists under one name: the
    instrument is not part of the name. *)
Lemma two_instruments_one_name :
  ("T", "I1", "F")%string <> ("T", "I2", "F")%string /\
  forall str_round3,
    makelists separation_equator str_round3 Scenario.two_instruments 10 1
    = Ok [(group_name str_round3 "T" "F" 10 0 1 1, ["a.fits"%string]);
          (group_name str_round3 "T" "F" 10 0 1 1, ["b.fits"%string])].
Proof.
  split; [discriminate|].
  intro str_round3. vm_compute. reflexivity.
Qed.

(** ** Scenarios on the equator *)

(** C2.  The third image is 0.1 degree from the first and 49.9 degrees
    from the second; it joins field 1, whose first member is at right
    ascension 0, and the reference written on its row is that of field 2,
    the last field the loop of line 190 went through. *)
Theorem reference_of_last_field_written :
  exists t,
    table_obs separation_equator Scenario.three_images 1 1 = Ok t /\
    map summary t
    = [("a.fits"%string, 1%Z, 1%Z, Some 0, Some 0);
       ("b.fits"%string, 2%Z, 1%Z, Some 50, Some 0);
       ("c.fits"%string, 1%Z, 1%Z, Some 50, Some 0)] /\
    map RA (filter (mask_field_of (fun _ => true) 1) t) = [0; 1 # 10].
Proof.
  eexists. split; [vm_compute; reflexivity|].
  split; vm_compute; reflexivity.
Qed.

(** C3.  The second image has no date: its row gets the time of the first
    image, 2459000 * 24 hours, and is grouped with it in one epoch.  When
    the first image has no date, [hr] is unbound and [table_obs] stops with
    a [NameError] for the whole directory. *)
Theorem undated_image_takes_previous_time :
  (exists t,
      table_obs separation_equator Scenario.undated_second 1 1 = Ok t /\
      map (fun r => (filename r, JD r, epochID r)) t
      = [("a.fits"%string, Scenario.jd0 * 24, 1%Z);
         ("b.fits"%string, Scenario.jd0 * 24, 1%Z)]) /\
  table_obs separation_equator Scenario.undated_first 1 1 = Raise NameError /\
  read_hr (snd (Scenario.image_without_date "b.fits" 10))
          (Some (Scenario.jd0 * 24))
  = Some (Scenario.jd0 * 24).
Proof.
  split; [|split; reflexivity].
  eexists. split; reflexivity.
Qed.

(** C7, as stated, fails.  With [radius] 0 two images at the same position
    of one partition open two fields. *)
Lemma zero_radius_same_position_two_fields :
  exists t,
    table_obs separation_equator Scenario.same_position 0 1 = Ok t /\
    map (fun r => (RA r, Dec r, part_of r, fieldID r)) t
    = [(10, 0, ("T", "I", "F")%string, 1%Z);
       (10, 0, ("T", "I", "F")%string, 2%Z)].
Proof.
  eexists. split; vm_compute; reflexivity.
Qed.

End StackingFacts.

(** * The table of observations *)

Module GroupingFacts.

Import Stacking TableNotions.

(** ** Rows and masks *)

Lemma static_idx r r' : static r = static r' -> idx r = idx r'.
Proof. unfold static. now intros [= -> _ _ _ _ _ _ _ _]. Qed.

Lemma in_partition_iff k r : in_partition k r = true <-> part_of r = k.
Proof.
  destruct k as [[tel inst] filt]. unfold in_partition, part_of.
  rewrite !andb_true_iff, !String.eqb_eq.
  split; [intros [[-> ->] ->]; reflexivity|intros [= -> -> ->]; auto].
Qed.

Lemma in_partition_static k r r' :
  static r = static r' -> in_partition k r = in_partition k r'.
Proof.
  destruct k as [[tel inst] filt]. unfold static, in_partition.
  now intros [= _ _ -> -> -> _ _ _ _].
Qed.

Lemma in_partition_part k r r' :
  part_of r = part_of r' -> in_partition k r = in_partition k r'.
Proof.
  destruct k as [[tel inst] filt]. unfold part_of, in_partition.
  now intros [= -> -> ->].
Qed.

Lemma in_partition_other k k' r :
  k' <> k -> in_partition k r = true -> in_partition k' r = false.
Proof.
  intros Hne Hk. destruct (in_partition k' r) eqn:Hk'; [|reflexivity].
  apply in_partition_iff in Hk. apply in_partition_iff in Hk'. congruence.
Qed.

Lemma idx_unique (t : table) (r r' : row) :
  NoDup (map idx t) -> In r t -> In r' t -> idx r = idx r' -> r = r'.
Proof.
  induction t as [|x t IH]; intros Hnd Hr Hr' Hidx; [destruct Hr|].
  simpl in Hnd. inversion Hnd as [|? ? Hx Hnd']; subst.
  destruct Hr as [->|Hr], Hr' as [->|Hr'].
  - reflexivity.
  - exfalso. apply Hx. rewrite Hidx. now apply in_map.
  - exfalso. apply Hx. rewrite <- Hidx. now apply in_map.
  - now apply IH.
Qed.

(** Two tables with the same static columns: a row of one with the index
    of a row of the other has its static columns. *)
Lemma static_unique (t t' : table) (r r' : row) :
  map static t = map static t' -> NoDup (map idx t) ->
  In r t -> In r' t' -> idx r = idx r' -> static r = static r'.
Proof.
  intros Hst Hnd Hr Hr' Hidx.
  assert (Hin : In (static r') (map static t))
    by (rewrite Hst; now apply in_map).
  apply in_map_iff in Hin. destruct Hin as [r0 [H0 Hr0]].
  rewrite <- H0. f_equal.
  apply (idx_unique t); auto.
  rewrite Hidx. symmetry. now apply static_idx.
Qed.

Lemma map_idx_static (t t' : table) :
  map static t = map static t' -> map idx t = map idx t'.
Proof.
  intro H.
  apply (f_equal (map (fun s : nat * string * string * string * string
                                * Q * Q * Q * Z =>
                         let '(i, _, _, _, _, _, _, _, _) := s in i))) in H.
  rewrite !map_map in H. exact H.
Qed.

Lemma map_JD_static (t t' : table) :
  map static t = map static t' -> map JD t = map JD t'.
Proof.
  intro H.
  apply (f_equal (map (fun s : nat * string * string * string * string
                                * Q * Q * Q * Z =>
                         let '(_, _, _, _, _, _, _, jd, _) := s in jd))) in H.
  rewrite !map_map in H. exact H.
Qed.

Lemma map_epochID_static (t t' : table) :
  map static t = map static t' -> map epochID t = map epochID t'.
Proof.
  intro H.
  apply (f_equal (map (fun s : nat * string * string * string * string
                                * Q * Q * Q * Z => snd s))) in H.
  rewrite !map_map in H. exact H.
Qed.

(** ** Assignments through a mask *)

Lemma assign_where_static m g t :
  (forall r, static (g r) = static r) ->
  map static (assign_where m g t) = map static t.
Proof.
  intro Hg. unfold assign_where. rewrite map_map. apply map_ext.
  intro r. destruct (m r); [apply Hg|reflexivity].
Qed.

Lemma assign_where_filter (p : row -> bool) m g t :
  (forall r, p (g r) = p r) ->
  filter p (assign_where m g t) = assign_where m g (filter p t).
Proof.
  intro Hg. unfold assign_where. rewrite filter_map_commute. f_equal.
  apply filter_ext. intro r. destruct (m r); [apply Hg|reflexivity].
Qed.

Lemma assign_where_untouched m g t :
  (forall r, In r t -> m r = false) -> assign_where m g t = t.
Proof.
  intro H. unfold assign_where. rewrite <- (map_id t) at 2.
  apply map_ext_in. intros r Hr. now rewrite (H r Hr).
Qed.

Lemma assign_where_at (d : row) g (pre post : table) :
  NoDup (map idx (pre ++ d :: post)) ->
  assign_where (mask_idx d) g (pre ++ d :: post) = pre ++ g d :: post.
Proof.
  intro Hnd. unfold assign_where at 1. rewrite map_app. simpl.
  unfold mask_idx at 2. rewrite Nat.eqb_refl.
  rewrite map_app in Hnd. simpl in Hnd.
  pose proof (NoDup_remove_2 _ _ _ Hnd) as Hd.
  f_equal; [|f_equal].
  - apply assign_where_untouched. intros r Hr. unfold mask_idx.
    apply Nat.eqb_neq. intro E. apply Hd. apply in_or_app. left.
    rewrite <- E. now apply in_map.
  - apply assign_where_untouched. intros r Hr. unfold mask_idx.
    apply Nat.eqb_neq. intro E. apply Hd. apply in_or_app. right.
    rewrite <- E. now apply in_map.
Qed.


Lemma assign_idx_frame (p : row -> bool) (d : row) g (t : table) :
  (forall r, p (g r) = p r) ->
  (forall r, In r t -> p r = true -> idx r <> idx d) ->
  filter p (assign_where (mask_idx d) g t) = filter p t.
Proof.
  intros Hg Hd. rewrite assign_where_filter by exact Hg.
  apply assign_where_untouched. intros r Hr.
  apply filter_In in Hr. destruct Hr as [Hr Hp].
  apply Nat.eqb_neq. now apply Hd.
Qed.

Lemma filter_andb (p q : row -> bool) (t : table) :
  filter (fun r => (p r && q r)%bool) t = filter p (filter q t).
Proof.
  induction t as [|r t IH]; simpl; [reflexivity|].
  destruct (q r); simpl.
  - rewrite andb_true_r. destruct (p r); now rewrite IH.
  - now rewrite andb_false_r.
Qed.

(** ** Keys name groups that have rows *)

Lemma partition_key_rows (t : table) k :
  In k (partition_keys t) -> filter (in_partition k) t <> [].
Proof.
  intros Hk E. apply group_keys_In in Hk. apply in_map_iff in Hk.
  destruct Hk as [r [Hp Hr]].
  assert (H : In r (filter (in_partition k) t)).
  { apply filter_In. split; [exact Hr|]. now apply in_partition_iff. }
  rewrite E in H. destruct H.
Qed.

Lemma field_key_rows (mask : row -> bool) (t : table) f :
  In f (field_keys (filter mask t)) -> filter (mask_field_of mask f) t <> [].
Proof.
  intros Hf E. apply group_keys_In in Hf. apply in_map_iff in Hf.
  destruct Hf as [r [Hid Hr]]. apply filter_In in Hr. destruct Hr as [Hr Hm].
  assert (H : In r (filter (mask_field_of mask f) t)).
  { apply filter_In. split; [exact Hr|]. unfold mask_field_of.
    rewrite Hm, andb_true_r. now apply Z.eqb_eq. }
  rewrite E in H. destruct H.
Qed.

(** ** The first row of a group *)

Lemma first_by_app key (pre post : table) e fst :
  first_by key pre e = Some fst -> first_by key (pre ++ post) e = Some fst.
Proof.
  unfold first_by. rewrite filter_app.
  destruct (filter _ pre); [discriminate|]. auto.
Qed.

Lemma first_by_new key (pre : table) (d : row) :
  (forall r, In r pre -> key r <> key d) ->
  first_by key (pre ++ [d]) (key d) = Some d.
Proof.
  intro H. unfold first_by. rewrite filter_app, filter_none.
  - simpl. now rewrite Z.eqb_refl.
  - intros r Hr. apply Z.eqb_neq. now apply H.
Qed.

Lemma first_by_In key (t : table) e fst :
  first_by key t e = Some fst -> In fst t /\ key fst = e.
Proof.
  unfold first_by. intro H.
  destruct (filter _ t) as [|x l] eqn:E; [discriminate|].
  injection H as ->.
  assert (Hin : In fst (filter (fun r => Z.eqb (key r) e) t))
    by (rewrite E; now left).
  apply filter_In in Hin. destruct Hin as [Hin Hk].
  split; [exact Hin|now apply Z.eqb_eq].
Qed.

Lemma first_by_other key (pre : table) (d : row) e :
  key d <> e -> first_by key (pre ++ [d]) e = first_by key pre e.
Proof.
  intro H. unfold first_by. rewrite filter_app. simpl.
  apply Z.eqb_neq in H. rewrite H. now rewrite app_nil_r.
Qed.

(** ** The fields of one partition *)

Section Fields.

Variable separation : Q * Q -> Q * Q -> Q.
Variable radius : Q.

Local Abbreviation closest_field := (closest_field separation radius).
Local Abbreviation assign_field := (assign_field separation radius).
Local Abbreviation fields_of_partition := (fields_of_partition separation radius).
Local Abbreviation group_fields := (group_fields separation radius).
Local Abbreviation assign_local := (TableNotions.assign_local separation radius).
Local Abbreviation cluster_rows := (TableNotions.cluster_rows separation radius).
Local Abbreviation sep_of := (TableNotions.sep_of separation).
Local Abbreviation search_inv := (TableNotions.search_inv separation radius).
Local Abbreviation near_first := (TableNotions.near_first separation radius).
Local Abbreviation fields_inv := (TableNotions.fields_inv separation radius).

(** The search of lines 187-204 reads the table through [mask2] only. *)
Lemma closest_field_depends mask (t t' : table) (d : row) :
  filter (mask2_of mask) t = filter (mask2_of mask) t' ->
  closest_field mask t d = closest_field mask t' d.
Proof.
  intro H. unfold Stacking.closest_field. rewrite H.
  apply fold_left_ext_in. intros s key _. unfold search_step.
  rewrite !(filter_andb (fun r => Z.eqb (fieldID r) key)), H. reflexivity.
Qed.

Lemma mask2_zeros mask (pre zs : table) :
  (forall r, In r zs -> fieldID r = 0%Z) ->
  filter (mask2_of mask) (pre ++ zs) = filter (mask2_of mask) pre.
Proof.
  intro Hz. rewrite filter_app, (filter_none _ _ zs), app_nil_r; auto.
  intros r Hr. unfold mask2_of. now rewrite (Hz r Hr).
Qed.

Lemma mask2_sub mask (t : table) :
  filter (mask2_of mask) (filter mask t) = filter (mask2_of mask) t.
Proof.
  apply filter_filter_implies. intros r _ H. unfold mask2_of in H.
  now apply andb_true_iff in H.
Qed.

(** *** The loop as a traversal

    When the image [d] is reached, the rows of the partition before it,
    [pre], have their fields and the rows after it have none. *)

Lemma assign_local_idx mask fid pre d :
  idx (snd (assign_local mask fid pre d)) = idx d.
Proof. unfold TableNotions.assign_local. now destruct (negb _). Qed.

Lemma assign_field_at mask fid (pre todo : table) (d : row) :
  NoDup (map idx (pre ++ d :: todo)) ->
  fieldID d = 0%Z -> (forall r, In r todo -> fieldID r = 0%Z) ->
  assign_field mask (fid, pre ++ d :: todo) d
  = (fst (assign_local mask fid pre d),
     pre ++ snd (assign_local mask fid pre d) :: todo).
Proof.
  intros Hnd Hd Hz. unfold Stacking.assign_field, TableNotions.assign_local.
  rewrite Hd. cbn [Z.eqb].
  rewrite (closest_field_depends mask (pre ++ d :: todo) pre)
    by (apply mask2_zeros; intros r [<-|Hr]; auto).
  destruct (negb _); cbn [fst snd]; now rewrite assign_where_at.
Qed.

Lemma fold_assign_field mask (todo : table) :
  forall fid pre,
    NoDup (map idx (pre ++ todo)) ->
    (forall r, In r todo -> fieldID r = 0%Z) ->
    fold_left (assign_field mask) todo (fid, pre ++ todo)
    = cluster_rows mask fid pre todo.
Proof.
  induction todo as [|d todo IH]; intros fid pre Hnd Hz;
    cbn [fold_left TableNotions.cluster_rows].
  - now rewrite app_nil_r.
  - rewrite (assign_field_at mask fid pre todo d Hnd
               (Hz d (or_introl eq_refl)) (fun r Hr => Hz r (or_intror Hr))).
    replace (pre ++ snd (assign_local mask fid pre d) :: todo)
      with ((pre ++ [snd (assign_local mask fid pre d)]) ++ todo)
      by (now rewrite <- app_assoc).
    apply IH; [|intros; apply Hz; now right].
    rewrite <- app_assoc. simpl. rewrite map_app in *. simpl in *.
    now rewrite assign_local_idx.
Qed.

(** The pass over a partition whose rows have no field yet. *)
Lemma fields_of_partition_rows k (first : row) (rest : table) :
  NoDup (map idx (first :: rest)) ->
  (forall r, In r (first :: rest) -> in_partition k r = true) ->
  (forall r, In r (first :: rest) -> fieldID r = 0%Z) ->
  fields_of_partition (first :: rest) k
  = snd (cluster_rows (in_partition k) 1
           [set_field 1 (Some (RA first)) (Some (Dec first)) first] rest).
Proof.
  intros Hnd Hk Hz. unfold Stacking.fields_of_partition.
  rewrite (filter_all _ _ (first :: rest)) by exact Hk.
  rewrite (assign_where_at first _ [] rest) by exact Hnd.
  cbn [app].
  rewrite filter_all.
  2:{ intros r [<-|Hr]; [|apply Hk; now right].
      rewrite <- (Hk first (or_introl eq_refl)).
      now apply in_partition_static. }
  cbn [app fold_left].
  change (Stacking.assign_field separation radius (in_partition k)
            (1%Z, set_field 1 (Some (RA first)) (Some (Dec first)) first
                  :: rest)
            (set_field 1 (Some (RA first)) (Some (Dec first)) first))
    with (1%Z, [set_field 1 (Some (RA first)) (Some (Dec first)) first]
               ++ rest).
  f_equal.
  apply (fold_assign_field (in_partition k) rest 1%Z
           [set_field 1 (Some (RA first)) (Some (Dec first)) first]).
  - exact Hnd.
  - intros; apply Hz; now right.
Qed.


(** *** What the pass leaves alone *)

Lemma assign_field_static mask st d :
  map static (snd (assign_field mask st d)) = map static (snd st).
Proof.
  destruct st as [fid t]. unfold Stacking.assign_field.
  destruct (Z.eqb (fieldID d) 0); [|reflexivity].
  destruct (negb _); cbn [snd]; now apply assign_where_static.
Qed.

Lemma fold_assign_field_static mask (S : table) :
  forall st,
    map static (snd (fold_left (assign_field mask) S st))
    = map static (snd st).
Proof.
  induction S as [|d S IH]; intro st; simpl; [reflexivity|].
  now rewrite IH, assign_field_static.
Qed.

Lemma fields_of_partition_static t k :
  map static (fields_of_partition t k) = map static t.
Proof.
  unfold Stacking.fields_of_partition.
  destruct (filter (in_partition k) t) as [|first ?]; [reflexivity|].
  rewrite fold_assign_field_static. cbn [snd].
  now apply assign_where_static.
Qed.

Lemma group_fields_static t : map static (group_fields t) = map static t.
Proof.
  unfold Stacking.group_fields. generalize (partition_keys t).
  intro keys. revert t.
  induction keys as [|k keys IH]; intro t; simpl; [reflexivity|].
  now rewrite IH, fields_of_partition_static.
Qed.

(** The pass for a partition computes the same rows on the rows of the
    partition alone. *)
Lemma assign_field_filter k st d :
  assign_field (in_partition k) (fst st, filter (in_partition k) (snd st)) d
  = (fst (assign_field (in_partition k) st d),
     filter (in_partition k) (snd (assign_field (in_partition k) st d))).
Proof.
  destruct st as [fid t]. unfold Stacking.assign_field. cbn [fst snd].
  destruct (Z.eqb (fieldID d) 0); [|reflexivity].
  rewrite (closest_field_depends (in_partition k)
             (filter (in_partition k) t) t) by apply mask2_sub.
  destruct (negb _); cbn [fst snd]; f_equal; symmetry;
    apply assign_where_filter; intro r; now apply in_partition_static.
Qed.

Lemma fold_assign_field_filter k (S : table) :
  forall st,
    fold_left (assign_field (in_partition k)) S
              (fst st, filter (in_partition k) (snd st))
    = (fst (fold_left (assign_field (in_partition k)) S st),
       filter (in_partition k)
              (snd (fold_left (assign_field (in_partition k)) S st))).
Proof.
  induction S as [|d S IH]; intro st; cbn [fold_left]; [reflexivity|].
  rewrite assign_field_filter. apply IH.
Qed.

Lemma fields_of_partition_filter k t :
  filter (in_partition k) (fields_of_partition t k)
  = fields_of_partition (filter (in_partition k) t) k.
Proof.
  unfold Stacking.fields_of_partition.
  rewrite (filter_filter_implies _ (in_partition k) (in_partition k)) by auto.
  destruct (filter (in_partition k) t) as [|first rest] eqn:E; [exact E|].
  rewrite <- E.
  rewrite <- (assign_where_filter (in_partition k))
    by (intro r; now apply in_partition_static).
  rewrite (filter_filter_implies _ (in_partition k) (in_partition k)) by auto.
  set (t1 := assign_where (mask_idx first) _ t).
  change (1%Z, filter (in_partition k) t1)
    with (fst (1%Z, t1), filter (in_partition k) (snd (1%Z, t1))).
  now rewrite fold_assign_field_filter.
Qed.

(** The pass for another partition does not touch the rows of [k]. *)
Lemma assign_field_frame (p : row -> bool) mask st d :
  (forall r r', static r = static r' -> p r = p r') ->
  (forall r, In r (snd st) -> p r = true -> idx r <> idx d) ->
  filter p (snd (assign_field mask st d)) = filter p (snd st).
Proof.
  intros Hp Hd. destruct st as [fid t]. unfold Stacking.assign_field.
  destruct (Z.eqb (fieldID d) 0); [|reflexivity].
  destruct (negb _); cbn [snd]; apply assign_idx_frame; auto;
    intro r; now apply Hp.
Qed.

Lemma rows_of_other_partition k k' (t tl : table) (d : row) :
  k' <> k -> NoDup (map idx t) ->
  map static tl = map static t ->
  (exists d0, In d0 t /\ static d0 = static d) ->
  in_partition k' d = true ->
  forall r, In r tl -> in_partition k r = true -> idx r <> idx d.
Proof.
  intros Hne Hnd Hst [d0 [Hd0 Hs0]] Hd r Hr Hk E.
  assert (Hs : static r = static d0).
  { apply (static_unique tl t); auto.
    - now rewrite (map_idx_static _ _ Hst).
    - rewrite E. symmetry. now apply static_idx. }
  pose proof (in_partition_other k k' r Hne Hk) as Hk'.
  rewrite (in_partition_static k' _ _ Hs),
    (in_partition_static k' _ _ Hs0), Hd in Hk'.
  discriminate.
Qed.

Lemma in_static_table (t t' : table) (d : row) :
  map static t' = map static t -> In d t' ->
  exists d0, In d0 t /\ static d0 = static d.
Proof.
  intros Hst Hd.
  assert (H : In (static d) (map static t))
    by (rewrite <- Hst; now apply in_map).
  apply in_map_iff in H. destruct H as [d0 [H0 Hd0]]. now exists d0.
Qed.

Lemma fold_assign_field_frame k k' (t : table) (S : table) :
  k' <> k -> NoDup (map idx t) ->
  (forall d, In d S ->
             in_partition k' d = true /\
             exists d0, In d0 t /\ static d0 = static d) ->
  forall st,
    map static (snd st) = map static t ->
    filter (in_partition k)
           (snd (fold_left (assign_field (in_partition k')) S st))
    = filter (in_partition k) (snd st).
Proof.
  intros Hne Hnd. induction S as [|d S IH]; intros HS st Hst;
    cbn [fold_left]; [reflexivity|].
  destruct (HS d (or_introl eq_refl)) as [Hd Hd0].
  rewrite IH.
  - apply assign_field_frame.
    + intros r r'. apply in_partition_static.
    + now apply (rows_of_other_partition k k' t).
  - intros d' Hd'. apply HS. now right.
  - now rewrite assign_field_static.
Qed.

Lemma fields_of_partition_frame k k' t :
  NoDup (map idx t) -> k' <> k ->
  filter (in_partition k) (fields_of_partition t k')
  = filter (in_partition k) t.
Proof.
  intros Hnd Hne. unfold Stacking.fields_of_partition.
  destruct (filter (in_partition k') t) as [|first rest] eqn:E;
    [reflexivity|].
  assert (Hfirst : In first t /\ in_partition k' first = true).
  { apply filter_In. rewrite E. now left. }
  set (g := set_field 1 (Some (RA first)) (Some (Dec first))).
  assert (Hst1 : map static (assign_where (mask_idx first) g t)
                 = map static t)
    by now apply assign_where_static.
  rewrite (fold_assign_field_frame k k' t); auto.
  - apply assign_idx_frame.
    + intro r. now apply in_partition_static.
    + apply (rows_of_other_partition k k' t); auto.
      * now exists first.
      * apply Hfirst.
  - intros d Hd. apply filter_In in Hd. destruct Hd as [Hd Hk'].
    split; [exact Hk'|]. now apply (in_static_table t _ d Hst1).
Qed.

(** The rows of the partition [k] after the loop over all partitions. *)
Lemma group_fields_partition t k :
  NoDup (map idx t) ->
  filter (in_partition k) (group_fields t)
  = fields_of_partition (filter (in_partition k) t) k.
Proof.
  intro Hnd. unfold Stacking.group_fields.
  set (Inv := fun t' : table => NoDup (map idx t')).
  set (V := fun (k0 : partkey) (t' : table) => filter (in_partition k0) t').
  set (L := fun (k0 : partkey) (p : table) => fields_of_partition p k0).
  assert (Hstep : forall t' k0, Inv t' -> Inv (fields_of_partition t' k0)).
  { intros t' k0 H. unfold Inv.
    now rewrite (map_idx_static _ _ (fields_of_partition_static t' k0)). }
  assert (Hframe : forall t' k0 k', Inv t' -> k' <> k0 ->
             V k0 (fields_of_partition t' k') = V k0 t')
    by (intros; now apply fields_of_partition_frame).
  assert (Hhit : forall t' k0, Inv t' ->
             V k0 (fields_of_partition t' k0) = L k0 (V k0 t'))
    by (intros; apply fields_of_partition_filter).
  destruct (in_dec partkey_eq_dec k (partition_keys t)) as [Hin|Hout].
  - apply (fold_keys_hit _ _ _ _ Inv V L Hstep Hframe Hhit); auto.
    apply group_keys_NoDup.
  - change (V k (fold_left (Stacking.fields_of_partition separation radius)
                           (partition_keys t) t) = L k (V k t)).
    rewrite (fold_keys_frame _ _ _ _ Inv V Hstep Hframe); auto.
    assert (HV : V k t = []).
    { apply filter_none. intros r Hr.
      destruct (in_partition k r) eqn:Hk; [|reflexivity].
      exfalso. apply Hout. apply group_keys_In. apply in_map_iff.
      exists r. split; [|exact Hr]. now apply in_partition_iff. }
    rewrite HV. reflexivity.
Qed.


(** *** The field the search returns *)

Lemma search_step_inv (t : table) mask2 d s key :
  search_inv t mask2 d s ->
  search_inv t mask2 d (search_step separation radius t mask2
                                    (RA d, Dec d) s key).
Proof.
  intros [Hmin Href]. unfold search_step.
  destruct (filter (fun r => (Z.eqb (fieldID r) key && mask2 r)%bool) t)
    as [|first rest] eqn:E; [now split|].
  rewrite (filter_andb (fun r => Z.eqb (fieldID r) key)) in E.
  fold (sep_of d first).
  destruct (Qltb (sep_of d first) radius) eqn:Hr; cbn [andb];
    [destruct (Qltb (sep_of d first) (sep_min s)) eqn:Hm|];
    unfold TableNotions.search_inv; cbn [sep_min field_ref];
      try (split; assumption).
  apply Qltb_lt in Hr. apply Qltb_lt in Hm.
  split; [lra|]. right. exists first.
  unfold first_of_field, first_by. rewrite E.
  repeat split; [exact Hr|lra].
Qed.

Lemma closest_field_inv mask (t : table) (d : row) :
  search_inv t (mask2_of mask) d (closest_field mask t d).
Proof.
  unfold Stacking.closest_field.
  generalize (field_keys (filter (mask2_of mask) t)). intro keys.
  assert (H0 : search_inv t (mask2_of mask) d search_init).
  { split; [cbn; lra|now left]. }
  revert H0. generalize search_init.
  induction keys as [|key keys IH]; intros s Hs; cbn [fold_left];
    [exact Hs|].
  apply IH. now apply search_step_inv.
Qed.

(** After the loop of line 190, [ra_ref] and [dec_ref] hold the
    coordinates of the first row of the field the loop took last, whichever
    field [field_ref] names. *)
Lemma search_refs_of_last_key (t : table) mask2 c s keys last fst :
  hd_error (filter (fun r => (Z.eqb (fieldID r) last && mask2 r)%bool) t)
  = Some fst ->
  ra_ref (fold_left (search_step separation radius t mask2 c)
                    (keys ++ [last]) s) = Some (RA fst) /\
  dec_ref (fold_left (search_step separation radius t mask2 c)
                     (keys ++ [last]) s) = Some (Dec fst).
Proof.
  intro H. rewrite fold_left_app. cbn [fold_left]. unfold search_step.
  destruct (filter _ t) as [|first rest]; [discriminate|].
  injection H as ->. now destruct (_ && _)%bool.
Qed.

(** *** The rows of a partition after the pass *)

Lemma near_first_app (pre post : table) r :
  near_first pre r -> near_first (pre ++ post) r.
Proof.
  intros [fst [Hf H]]. exists fst. split; [|exact H].
  now apply (first_by_app fieldID).
Qed.

Lemma mask2_all mask fid (pre : table) :
  fields_inv mask fid pre -> filter (mask2_of mask) pre = pre.
Proof.
  intros [_ [Hb _]]. apply filter_all. intros r Hr.
  destruct (Hb r Hr) as [Hf Hm]. unfold mask2_of. rewrite Hm, andb_true_r.
  apply negb_true_iff. apply Z.eqb_neq. lia.
Qed.

Lemma assign_local_inv mask fid (pre : table) (d : row) :
  (forall f ra dec r, mask (set_field f ra dec r) = mask r) ->
  mask d = true ->
  fields_inv mask fid pre ->
  fields_inv mask (fst (assign_local mask fid pre d))
             (pre ++ [snd (assign_local mask fid pre d)]).
Proof.
  intros Hmask Hd Hinv. pose proof Hinv as [Hfid [Hb Hn]].
  pose proof (closest_field_inv mask pre d) as [_ Hs].
  rewrite (mask2_all mask fid pre Hinv) in Hs.
  unfold TableNotions.assign_local.
  destruct (Z.eqb (field_ref (closest_field mask pre d)) (-1)) eqn:E;
    cbn [negb fst snd].
  - (* a new field *)
    set (d' := set_field (fid + 1) (Some (RA d)) (Some (Dec d)) d).
    split; [lia|]. split; intros r Hr; apply in_app_or in Hr.
    + destruct Hr as [Hr|[<-|[]]].
      * destruct (Hb r Hr). split; [lia|assumption].
      * unfold d'. rewrite Hmask. cbn. split; [lia|exact Hd].
    + destruct Hr as [Hr|[<-|[]]]; [now apply near_first_app, Hn|].
      exists d'. split; [|now left].
      apply (first_by_new fieldID). intros r Hr. unfold d'. cbn.
      destruct (Hb r Hr). lia.
  - (* the closest field *)
    apply Z.eqb_neq in E. destruct Hs as [Hs|[fst [Hf [Hr Hc]]]];
      [contradiction|].
    set (s := closest_field mask pre d) in *.
    set (d' := set_field (field_ref s) (ra_ref s) (dec_ref s) d).
    destruct (first_by_In _ _ _ _ Hf) as [Hin Hkey].
    split; [exact Hfid|]. split; intros r Hin'; apply in_app_or in Hin'.
    + destruct Hin' as [Hin'|[<-|[]]]; [now apply Hb|].
      unfold d'. rewrite Hmask. cbn. split; [|exact Hd].
      rewrite <- Hkey. now apply Hb.
    + destruct Hin' as [Hin'|[<-|[]]]; [now apply near_first_app, Hn|].
      exists fst. split; [now apply (first_by_app fieldID)|].
      right. split; assumption.
Qed.

Lemma cluster_rows_inv mask (todo : table) :
  (forall f ra dec r, mask (set_field f ra dec r) = mask r) ->
  (forall d, In d todo -> mask d = true) ->
  forall fid pre,
    fields_inv mask fid pre ->
    fields_inv mask (fst (cluster_rows mask fid pre todo))
               (snd (cluster_rows mask fid pre todo)).
Proof.
  intro Hmask. induction todo as [|d todo IH]; intros Hd fid pre Hinv;
    cbn [TableNotions.cluster_rows]; [exact Hinv|].
  apply IH; [intros; apply Hd; now right|].
  apply assign_local_inv; auto. apply Hd. now left.
Qed.


(** *** A radius below every separation *)

Lemma assign_local_single mask fid (pre : table) (d : row) :
  (forall c1 c2, radius <= separation c1 c2) ->
  singles_inv fid pre ->
  singles_inv (fst (assign_local mask fid pre d))
              (pre ++ [snd (assign_local mask fid pre d)]).
Proof.
  intros Hfar [Hids Hfid].
  pose proof (closest_field_inv mask pre d) as [_ Hs].
  unfold TableNotions.assign_local.
  destruct (Z.eqb (field_ref (closest_field mask pre d)) (-1)) eqn:E;
    cbn [negb fst snd].
  - unfold singles_inv. rewrite length_app, map_app, Hids. cbn [List.length].
    rewrite Nat.add_1_r, seq_S, map_app. cbn [map fieldID set_field].
    split; [|lia]. do 2 f_equal. lia.
  - apply Z.eqb_neq in E. destruct Hs as [Hs|[fst [_ [Hr _]]]];
      [contradiction|].
    exfalso. unfold sep_of in Hr.
    pose proof (Hfar (RA d, Dec d) (RA fst, Dec fst)). lra.
Qed.

Lemma cluster_rows_single mask (todo : table) :
  (forall c1 c2, radius <= separation c1 c2) ->
  forall fid pre,
    singles_inv fid pre ->
    singles_inv (fst (cluster_rows mask fid pre todo))
                (snd (cluster_rows mask fid pre todo)).
Proof.
  intro Hfar. induction todo as [|d todo IH]; intros fid pre Hinv;
    cbn [TableNotions.cluster_rows]; [exact Hinv|].
  apply IH. now apply assign_local_single.
Qed.

End Fields.


(** ** The epochs of one field *)

Section Epochs.

Variable deltaT : Q.

Local Abbreviation epoch_local := (TableNotions.epoch_local deltaT).
Local Abbreviation sweep_rows := (TableNotions.sweep_rows deltaT).
Local Abbreviation epochs_inv := (TableNotions.epochs_inv deltaT).

Lemma no_epoch_idx r r' : no_epoch r = no_epoch r' -> idx r = idx r'.
Proof. intro H. now apply (f_equal idx) in H. Qed.

Lemma no_epoch_part r r' : no_epoch r = no_epoch r' -> part_of r = part_of r'.
Proof. intro H. now apply (f_equal part_of) in H. Qed.

Lemma no_epoch_fieldID r r' :
  no_epoch r = no_epoch r' -> fieldID r = fieldID r'.
Proof. intro H. now apply (f_equal fieldID) in H. Qed.

Lemma mask_field_no_epoch k f r r' :
  no_epoch r = no_epoch r' ->
  mask_field_of (in_partition k) f r = mask_field_of (in_partition k) f r'.
Proof.
  intro H. unfold mask_field_of.
  now rewrite (no_epoch_fieldID _ _ H),
    (in_partition_part k _ _ (no_epoch_part _ _ H)).
Qed.

Lemma no_epoch_unique (t t' : table) (r r' : row) :
  map no_epoch t = map no_epoch t' -> NoDup (map idx t) ->
  In r t -> In r' t' -> idx r = idx r' -> no_epoch r = no_epoch r'.
Proof.
  intros Hst Hnd Hr Hr' Hidx.
  assert (Hin : In (no_epoch r') (map no_epoch t))
    by (rewrite Hst; now apply in_map).
  apply in_map_iff in Hin. destruct Hin as [r0 [H0 Hr0]].
  rewrite <- H0. f_equal.
  apply (idx_unique t); auto.
  rewrite Hidx. symmetry. now apply no_epoch_idx.
Qed.

Lemma map_idx_no_epoch (t t' : table) :
  map no_epoch t = map no_epoch t' -> map idx t = map idx t'.
Proof.
  intro H. apply (f_equal (map idx)) in H.
  rewrite !map_map in H. exact H.
Qed.

Lemma assign_where_no_epoch m e t :
  map no_epoch (assign_where m (set_epoch e) t) = map no_epoch t.
Proof.
  unfold assign_where. rewrite map_map. apply map_ext.
  intro r. now destruct (m r).
Qed.

Lemma assign_epoch_no_epoch st d :
  map no_epoch (snd (assign_epoch deltaT st d)) = map no_epoch (snd st).
Proof.
  destruct st as [[jr e] t]. unfold assign_epoch.
  destruct (Qle_bool _ _); cbn [snd]; apply assign_where_no_epoch.
Qed.

Lemma fold_assign_epoch_no_epoch (S : table) :
  forall st,
    map no_epoch (snd (fold_left (assign_epoch deltaT) S st))
    = map no_epoch (snd st).
Proof.
  induction S as [|d S IH]; intro st; cbn [fold_left]; [reflexivity|].
  now rewrite IH, assign_epoch_no_epoch.
Qed.

Lemma epochs_of_field_no_epoch mask t f :
  map no_epoch (epochs_of_field deltaT mask t f) = map no_epoch t.
Proof.
  unfold epochs_of_field.
  destruct (filter _ t) as [|first rest]; [reflexivity|].
  now rewrite fold_assign_epoch_no_epoch.
Qed.

Lemma fold_epochs_of_field_no_epoch mask (keys : list Z) :
  forall t,
    map no_epoch (fold_left (epochs_of_field deltaT mask) keys t)
    = map no_epoch t.
Proof.
  induction keys as [|f keys IH]; intro t; cbn [fold_left]; [reflexivity|].
  now rewrite IH, epochs_of_field_no_epoch.
Qed.

Lemma epochs_of_partition_no_epoch t k :
  map no_epoch (epochs_of_partition deltaT t k) = map no_epoch t.
Proof. apply fold_epochs_of_field_no_epoch. Qed.

Lemma group_epochs_no_epoch t :
  map no_epoch (group_epochs deltaT t) = map no_epoch t.
Proof.
  unfold group_epochs. generalize (partition_keys t). intro keys. revert t.
  induction keys as [|k keys IH]; intro t; cbn [fold_left]; [reflexivity|].
  now rewrite IH, epochs_of_partition_no_epoch.
Qed.

(** *** The sweep as a traversal *)

Lemma assign_epoch_at jr eid (pre todo : table) (d : row) :
  NoDup (map idx (pre ++ d :: todo)) ->
  assign_epoch deltaT (jr, eid, pre ++ d :: todo) d
  = (fst (fst (epoch_local jr eid d)), snd (fst (epoch_local jr eid d)),
     pre ++ snd (epoch_local jr eid d) :: todo).
Proof.
  intro Hnd. unfold assign_epoch, TableNotions.epoch_local.
  destruct (Qle_bool _ _); cbn [fst snd]; now rewrite assign_where_at.
Qed.

Lemma fold_assign_epoch (todo : table) :
  forall jr eid pre,
    NoDup (map idx (pre ++ todo)) ->
    fold_left (assign_epoch deltaT) todo (jr, eid, pre ++ todo)
    = sweep_rows jr eid pre todo.
Proof.
  induction todo as [|d todo IH]; intros jr eid pre Hnd;
    cbn [fold_left TableNotions.sweep_rows].
  - now rewrite app_nil_r.
  - rewrite (assign_epoch_at jr eid pre todo d Hnd).
    destruct (epoch_local jr eid d) as [[jr' eid'] d'] eqn:E. cbn [fst snd].
    replace (pre ++ d' :: todo) with ((pre ++ [d']) ++ todo)
      by (now rewrite <- app_assoc).
    apply IH. rewrite <- app_assoc, map_app. simpl.
    rewrite map_app in Hnd. simpl in Hnd.
    replace (idx d') with (idx d); [exact Hnd|].
    unfold TableNotions.epoch_local in E.
    destruct (Qle_bool _ _); now injection E as _ _ <-.
Qed.

(** The sweep over the rows of one field, when the table holds no other
    row. *)
Lemma epochs_of_field_rows mask f (first : row) (rest : table) :
  NoDup (map idx (first :: rest)) ->
  (forall r, In r (first :: rest) -> mask_field_of mask f r = true) ->
  epochs_of_field deltaT mask (first :: rest) f
  = snd (sweep_rows (JD first) 1 [] (first :: rest)).
Proof.
  intros Hnd Hm. unfold epochs_of_field.
  rewrite (filter_all _ _ (first :: rest)) by exact Hm.
  f_equal. apply (fold_assign_epoch (first :: rest) (JD first) 1%Z []).
  exact Hnd.
Qed.

(** *** What the sweep over a field leaves alone *)

Lemma assign_epoch_filter (p : row -> bool) st d :
  (forall r r', no_epoch r = no_epoch r' -> p r = p r') ->
  assign_epoch deltaT (fst st, filter p (snd st)) d
  = (fst (assign_epoch deltaT st d),
     filter p (snd (assign_epoch deltaT st d))).
Proof.
  intro Hp. destruct st as [[jr e] t]. unfold assign_epoch. cbn [fst snd].
  destruct (Qle_bool _ _); cbn [fst snd]; f_equal; symmetry;
    apply assign_where_filter; intro r; now apply Hp.
Qed.

Lemma fold_assign_epoch_filter (p : row -> bool) (S : table) :
  (forall r r', no_epoch r = no_epoch r' -> p r = p r') ->
  forall st,
    fold_left (assign_epoch deltaT) S (fst st, filter p (snd st))
    = (fst (fold_left (assign_epoch deltaT) S st),
       filter p (snd (fold_left (assign_epoch deltaT) S st))).
Proof.
  intro Hp. induction S as [|d S IH]; intro st; cbn [fold_left];
    [reflexivity|].
  rewrite assign_epoch_filter by exact Hp. apply IH.
Qed.

Lemma epochs_of_field_filter k f t :
  filter (mask_field_of (in_partition k) f)
         (epochs_of_field deltaT (in_partition k) t f)
  = epochs_of_field deltaT (in_partition k)
                    (filter (mask_field_of (in_partition k) f) t) f.
Proof.
  unfold epochs_of_field.
  rewrite (filter_filter_implies _ (mask_field_of (in_partition k) f)
             (mask_field_of (in_partition k) f)) by auto.
  destruct (filter (mask_field_of (in_partition k) f) t)
    as [|first rest] eqn:E; [exact E|].
  rewrite <- E.
  change (JD first, 1%Z, filter (mask_field_of (in_partition k) f) t)
    with (fst (JD first, 1%Z, t),
          filter (mask_field_of (in_partition k) f) (snd (JD first, 1%Z, t))).
  rewrite fold_assign_epoch_filter; [reflexivity|].
  intros r r'. apply mask_field_no_epoch.
Qed.

Lemma assign_epoch_frame (p : row -> bool) st d :
  (forall r r', no_epoch r = no_epoch r' -> p r = p r') ->
  (forall r, In r (snd st) -> p r = true -> idx r <> idx d) ->
  filter p (snd (assign_epoch deltaT st d)) = filter p (snd st).
Proof.
  intros Hp Hd. destruct st as [[jr e] t]. unfold assign_epoch.
  destruct (Qle_bool _ _); cbn [snd]; apply assign_idx_frame; auto;
    intro r; now apply Hp.
Qed.

(** The rows of the field [f] of the partition [k] are not rows of
    another field or partition. *)
Lemma rows_of_other_field k f k' f' (t tl : table) (d : row) :
  (k', f') <> (k, f) -> NoDup (map idx t) ->
  map no_epoch tl = map no_epoch t ->
  In d t -> mask_field_of (in_partition k') f' d = true ->
  forall r, In r tl -> mask_field_of (in_partition k) f r = true ->
            idx r <> idx d.
Proof.
  intros Hne Hnd Hst Hd Hd' r Hr Hk E.
  assert (Hs : no_epoch r = no_epoch d).
  { apply (no_epoch_unique tl t); auto.
    now rewrite (map_idx_no_epoch _ _ Hst). }
  rewrite (mask_field_no_epoch k f _ _ Hs) in Hk.
  unfold mask_field_of in Hk, Hd'.
  apply andb_true_iff in Hk. apply andb_true_iff in Hd'.
  destruct Hk as [Hf Hk], Hd' as [Hf' Hk'].
  apply Z.eqb_eq in Hf. apply Z.eqb_eq in Hf'.
  apply in_partition_iff in Hk. apply in_partition_iff in Hk'.
  apply Hne. congruence.
Qed.

Lemma epochs_of_field_frame k f k' f' t :
  NoDup (map idx t) -> (k', f') <> (k, f) ->
  filter (mask_field_of (in_partition k) f)
         (epochs_of_field deltaT (in_partition k') t f')
  = filter (mask_field_of (in_partition k) f) t.
Proof.
  intros Hnd Hne. unfold epochs_of_field.
  set (S := filter (mask_field_of (in_partition k') f') t).
  assert (HS : forall d, In d S ->
             In d t /\ mask_field_of (in_partition k') f' d = true)
    by (intros d Hd; now apply filter_In in Hd).
  destruct S as [|first rest] eqn:E; [reflexivity|]. rewrite <- E in *.
  clear E. generalize (JD first, 1%Z). intro je.
  assert (Hgen : forall tl,
             map no_epoch tl = map no_epoch t ->
             filter (mask_field_of (in_partition k) f)
                    (snd (fold_left (assign_epoch deltaT) S (je, tl)))
             = filter (mask_field_of (in_partition k) f) tl).
  { revert je. induction S as [|d S IH]; intros je tl Htl; cbn [fold_left];
      [reflexivity|].
    destruct (HS d (or_introl eq_refl)) as [Hd Hd'].
    destruct (assign_epoch deltaT (je, tl) d) as [je' tl'] eqn:Est.
    assert (Htl' : tl' = snd (assign_epoch deltaT (je, tl) d))
      by now rewrite Est.
    rewrite IH.
    - rewrite Htl'. apply assign_epoch_frame.
      + intros r r'. apply mask_field_no_epoch.
      + now apply (rows_of_other_field k f k' f' t).
    - intros d0 Hd0. apply HS. now right.
    - now rewrite Htl', assign_epoch_no_epoch. }
  now apply Hgen.
Qed.


(** *** The epochs of one partition and of the whole table *)

Lemma epochs_of_partition_field k f t :
  NoDup (map idx t) ->
  filter (mask_field_of (in_partition k) f) (epochs_of_partition deltaT t k)
  = epochs_of_field deltaT (in_partition k)
                    (filter (mask_field_of (in_partition k) f) t) f.
Proof.
  intro Hnd. unfold epochs_of_partition.
  set (Inv := fun t' : table => NoDup (map idx t')).
  set (V := fun (f0 : Z) (t' : table) =>
              filter (mask_field_of (in_partition k) f0) t').
  set (L := fun (f0 : Z) (g : table) =>
              epochs_of_field deltaT (in_partition k) g f0).
  set (step := epochs_of_field deltaT (in_partition k)).
  assert (Hstep : forall t' f0, Inv t' -> Inv (step t' f0)).
  { intros t' f0 H. unfold Inv, step.
    now rewrite (map_idx_no_epoch _ _ (epochs_of_field_no_epoch _ t' f0)). }
  assert (Hframe : forall t' f0 f', Inv t' -> f' <> f0 ->
             V f0 (step t' f') = V f0 t').
  { intros t' f0 f' H Hne. apply epochs_of_field_frame; [exact H|].
    intros [= E]. now apply Hne. }
  assert (Hhit : forall t' f0, Inv t' -> V f0 (step t' f0) = L f0 (V f0 t'))
    by (intros; apply epochs_of_field_filter).
  destruct (in_dec Z.eq_dec f (field_keys (filter (in_partition k) t)))
    as [Hin|Hout].
  - apply (fold_keys_hit _ _ _ _ Inv V L Hstep Hframe Hhit); auto.
    apply group_keys_NoDup.
  - change (V f (fold_left step (field_keys (filter (in_partition k) t)) t)
            = L f (V f t)).
    rewrite (fold_keys_frame _ _ _ _ Inv V Hstep Hframe); auto.
    assert (HV : V f t = []).
    { apply filter_none. intros r Hr.
      destruct (mask_field_of (in_partition k) f r) eqn:Hm; [|reflexivity].
      exfalso. apply Hout. apply group_keys_In. apply in_map_iff.
      unfold mask_field_of in Hm. apply andb_true_iff in Hm.
      destruct Hm as [Hf Hk]. exists r. split; [now apply Z.eqb_eq|].
      apply filter_In. now split. }
    rewrite HV. reflexivity.
Qed.

Lemma epochs_of_partition_frame k f k' t :
  NoDup (map idx t) -> k' <> k ->
  filter (mask_field_of (in_partition k) f) (epochs_of_partition deltaT t k')
  = filter (mask_field_of (in_partition k) f) t.
Proof.
  intros Hnd Hne. unfold epochs_of_partition.
  generalize (field_keys (filter (in_partition k') t)). intro keys.
  revert t Hnd. induction keys as [|f' keys IH]; intros t Hnd;
    cbn [fold_left]; [reflexivity|].
  rewrite IH.
  - apply epochs_of_field_frame; [exact Hnd|]. intros [= E _]. now apply Hne.
  - now rewrite (map_idx_no_epoch _ _ (epochs_of_field_no_epoch _ t f')).
Qed.

(** The rows of the field [f] of the partition [k] after the loop over
    all partitions and fields. *)
Lemma group_epochs_field k f t :
  NoDup (map idx t) ->
  filter (mask_field_of (in_partition k) f) (group_epochs deltaT t)
  = epochs_of_field deltaT (in_partition k)
                    (filter (mask_field_of (in_partition k) f) t) f.
Proof.
  intro Hnd. unfold group_epochs.
  set (Inv := fun t' : table => NoDup (map idx t')).
  set (V := fun (k0 : partkey) (t' : table) =>
              filter (mask_field_of (in_partition k0) f) t').
  set (L := fun (k0 : partkey) (g : table) =>
              epochs_of_field deltaT (in_partition k0) g f).
  assert (Hstep : forall t' k0, Inv t' -> Inv (epochs_of_partition deltaT t' k0)).
  { intros t' k0 H. unfold Inv.
    now rewrite (map_idx_no_epoch _ _ (epochs_of_partition_no_epoch t' k0)). }
  assert (Hframe : forall t' k0 k', Inv t' -> k' <> k0 ->
             V k0 (epochs_of_partition deltaT t' k') = V k0 t')
    by (intros; now apply epochs_of_partition_frame).
  assert (Hhit : forall t' k0, Inv t' ->
             V k0 (epochs_of_partition deltaT t' k0) = L k0 (V k0 t'))
    by (intros; now apply epochs_of_partition_field).
  destruct (in_dec partkey_eq_dec k (partition_keys t)) as [Hin|Hout].
  - apply (fold_keys_hit _ _ _ _ Inv V L Hstep Hframe Hhit); auto.
    apply group_keys_NoDup.
  - change (V k (fold_left (epochs_of_partition deltaT) (partition_keys t) t)
            = L k (V k t)).
    rewrite (fold_keys_frame _ _ _ _ Inv V Hstep Hframe); auto.
    assert (HV : V k t = []).
    { apply filter_none. intros r Hr.
      destruct (mask_field_of (in_partition k) f r) eqn:Hm; [|reflexivity].
      exfalso. apply Hout. apply group_keys_In. apply in_map_iff.
      unfold mask_field_of in Hm. apply andb_true_iff in Hm.
      destruct Hm as [_ Hk]. exists r. split; [|exact Hr].
      now apply in_partition_iff. }
    rewrite HV. reflexivity.
Qed.

(** *** The epochs the sweep assigns *)

Lemma epoch_local_inv jr eid (pre : table) (d : row) :
  jr <= add64 jr deltaT -> JD d <= add64 (JD d) deltaT -> jr <= JD d ->
  epochs_inv jr eid pre ->
  epochs_inv (fst (fst (epoch_local jr eid d)))
             (snd (fst (epoch_local jr eid d)))
             (pre ++ [snd (epoch_local jr eid d)]).
Proof.
  intros Hgr Hgd Hjr [E1 [[ref0 [Href0 Hjd0]] [E3 E4]]].
  assert (Heid : (1 <= eid)%Z).
  { destruct (first_by_In _ _ _ _ Href0) as [Hin Hk].
    assert (H : (1 <= eid <= eid)%Z); [|lia].
    apply E1. rewrite <- Hk at 1. now apply in_map. }
  unfold TableNotions.epoch_local.
  destruct (Qle_bool (JD d) (add64 jr deltaT)) eqn:Hle;
    cbn [fst snd].
  - (* the image joins the current epoch *)
    apply Qle_bool_iff in Hle.
    set (d' := set_epoch eid d).
    assert (Hsame : forall e r, first_of_epoch pre e = Some r ->
                                first_of_epoch (pre ++ [d']) e = Some r)
      by (intros; now apply (first_by_app epochID)).
    assert (Hback : forall e r, first_of_epoch (pre ++ [d']) e = Some r ->
                                first_of_epoch pre e = Some r).
    { intros e r H. destruct (Z.eq_dec e eid) as [->|Hne].
      - rewrite (Hsame _ _ Href0) in H. now rewrite <- H.
      - unfold first_of_epoch in H. rewrite first_by_other in H; auto. }
    split; [intro e; split|split; [|split]].
    + rewrite map_app, in_app_iff. cbn. intros [H|[<-|[]]]; [now apply E1|lia].
    + rewrite map_app, in_app_iff. intro H. left. now apply E1.
    + exists ref0. split; [now apply Hsame|exact Hjd0].
    + intros m Hm. apply in_app_or in Hm. destruct Hm as [Hm|[<-|[]]].
      * destruct (E3 m Hm) as [ref [Hr Hb]]. exists ref.
        split; [now apply Hsame|exact Hb].
      * exists ref0. cbn. split; [now apply Hsame|]. rewrite Hjd0. now split.
    + intros e1 e2 r1 r2 H1 H2. apply E4; now apply Hback.
  - (* the image opens an epoch *)
    assert (Hgt : add64 jr deltaT < JD d).
    { apply Qnot_le_lt. intro H. apply Qle_bool_iff in H. congruence. }
    set (d' := set_epoch (eid + 1) d).
    assert (Hfresh : forall r, In r pre -> epochID r <> (eid + 1)%Z).
    { intros r Hr E. assert (H : (1 <= eid + 1 <= eid)%Z); [|lia].
      apply E1. rewrite <- E. now apply in_map. }
    assert (Hnew : first_of_epoch (pre ++ [d']) (eid + 1) = Some d')
      by (apply (first_by_new epochID pre d'); exact Hfresh).
    assert (Hold : forall e, e <> (eid + 1)%Z ->
                     first_of_epoch (pre ++ [d']) e = first_of_epoch pre e).
    { intros e He. apply first_by_other. cbn. congruence. }
    assert (Hsame : forall e r, first_of_epoch pre e = Some r ->
                                first_of_epoch (pre ++ [d']) e = Some r)
      by (intros; now apply (first_by_app epochID)).
    assert (Hrefs : forall e r, first_of_epoch pre e = Some r ->
                                JD r <= jr).
    { intros e r Hr. destruct (first_by_In _ _ _ _ Hr) as [Hin Hk].
      assert (He : (1 <= e <= eid)%Z)
        by (apply E1; rewrite <- Hk; now apply in_map).
      destruct (Z.eq_dec e eid) as [->|Hne].
      - unfold first_of_epoch in *. rewrite Href0 in Hr.
        injection Hr as <-. rewrite Hjd0. apply Qle_refl.
      - apply Qlt_le_weak. rewrite <- Hjd0.
        apply (E4 e eid r ref0 Hr Href0). lia. }
    split; [intro e; split|split; [|split]].
    + rewrite map_app, in_app_iff. cbn.
      intros [H|[<-|[]]]; [apply E1 in H|]; lia.
    + rewrite map_app, in_app_iff. cbn. intro H.
      destruct (Z.eq_dec e (eid + 1)) as [->|Hne]; [right; now left|].
      left. apply E1. lia.
    + exists d'. split; [exact Hnew|reflexivity].
    + intros m Hm. apply in_app_or in Hm. destruct Hm as [Hm|[<-|[]]].
      * destruct (E3 m Hm) as [ref [Hr Hb]]. exists ref.
        split; [now apply Hsame|exact Hb].
      * exists d'. split; [exact Hnew|]. cbn [JD set_epoch d'].
        split; [apply Qle_refl|exact Hgd].
    + intros e1 e2 r1 r2 H1 H2 Hlt.
      destruct (Z.eq_dec e2 (eid + 1)) as [->|Hne2].
      * unfold first_of_epoch in *. rewrite Hnew in H2. injection H2 as <-.
        rewrite Hold in H1 by lia. cbn.
        pose proof (Hrefs _ _ H1). lra.
      * rewrite Hold in H2 by exact Hne2.
        destruct (Z.eq_dec e1 (eid + 1)) as [->|Hne1].
        -- exfalso. destruct (first_by_In _ _ _ _ H2) as [Hin Hk].
           assert (He : (1 <= e2 <= eid)%Z)
             by (apply E1; rewrite <- Hk; now apply in_map).
           lia.
        -- rewrite Hold in H1 by exact Hne1. now apply (E4 e1 e2).
Qed.

Lemma sweep_rows_inv (todo : table) :
  forall jr eid pre,
    (forall r, In r (pre ++ todo) -> JD r <= add64 (JD r) deltaT) ->
    StronglySorted Qle (map JD todo) ->
    (forall m d, In m pre -> In d todo -> JD m <= JD d) ->
    epochs_inv jr eid pre ->
    epochs_inv (fst (fst (sweep_rows jr eid pre todo)))
               (snd (fst (sweep_rows jr eid pre todo)))
               (snd (sweep_rows jr eid pre todo)).
Proof.
  induction todo as [|d todo IH]; intros jr eid pre Hg Hs Hpre Hinv;
    cbn [TableNotions.sweep_rows]; [exact Hinv|].
  assert (Hjr : jr <= JD d).
  { destruct Hinv as [_ [[ref [Href <-]] _]].
    destruct (first_by_In _ _ _ _ Href) as [Hin _].
    apply Hpre; [exact Hin|now left]. }
  assert (Hgr : jr <= add64 jr deltaT).
  { destruct Hinv as [_ [[ref [Href <-]] _]].
    destruct (first_by_In _ _ _ _ Href) as [Hin _].
    apply Hg. apply in_or_app. now left. }
  assert (Hgd : JD d <= add64 (JD d) deltaT)
    by (apply Hg; apply in_or_app; right; now left).
  pose proof (epoch_local_inv jr eid pre d Hgr Hgd Hjr Hinv) as Hstep.
  assert (Hjd : JD (snd (epoch_local jr eid d)) = JD d)
    by (unfold TableNotions.epoch_local; now destruct (Qle_bool _ _)).
  destruct (epoch_local jr eid d) as [[jr' eid'] d']. cbn [fst snd] in *.
  cbn [map] in Hs. apply StronglySorted_inv in Hs. destruct Hs as [Hs Hd].
  apply IH; [|exact Hs| |exact Hstep].
  - intros r Hr. apply in_app_or in Hr. destruct Hr as [Hr|Hr].
    + apply in_app_or in Hr. destruct Hr as [Hr|[<-|[]]].
      * apply Hg. apply in_or_app. now left.
      * now rewrite Hjd.
    + apply Hg. apply in_or_app. right. now right.
  - intros m x Hm Hx. apply in_app_or in Hm. destruct Hm as [Hm|[<-|[]]].
    + apply Hpre; [exact Hm|now right].
    + rewrite Hjd. rewrite Forall_forall in Hd. apply Hd. now apply in_map.
Qed.

(** The sweep over a field whose rows are in time order. *)
Lemma sweep_field (first : row) (rest : table) :
  (forall r, In r (first :: rest) -> JD r <= add64 (JD r) deltaT) ->
  StronglySorted Qle (map JD (first :: rest)) ->
  exists jr eid,
    epochs_inv jr eid (snd (sweep_rows (JD first) 1 [] (first :: rest))).
Proof.
  intros Hg Hs. cbn [TableNotions.sweep_rows].
  unfold TableNotions.epoch_local at 1.
  assert (Hle : Qle_bool (JD first) (add64 (JD first) deltaT) = true)
    by (apply Qle_bool_iff; apply Hg; now left).
  rewrite Hle. cbn [app].
  cbn [map] in Hs. apply StronglySorted_inv in Hs. destruct Hs as [Hs Hd].
  eexists. eexists.
  apply (sweep_rows_inv rest (JD first) 1%Z [set_epoch 1 first]).
  - intros r [<-|Hr]; [apply (Hg first); now left|apply Hg; now right].
  - exact Hs.
  - intros m d [<-|[]] Hx. cbn. rewrite Forall_forall in Hd. apply Hd.
    now apply in_map.
  - split; [intro e; split|split; [|split]].
    + cbn. intros [<-|[]]. lia.
    + cbn. intro. left. lia.
    + exists (set_epoch 1 first). split; reflexivity.
    + intros m [<-|[]]. exists (set_epoch 1 first).
      split; [reflexivity|]. cbn [JD set_epoch].
      split; [apply Qle_refl|apply Hg; now left].
    + intros e1 e2 r1 r2 H1 H2 Hlt. exfalso.
      destruct (first_by_In _ _ _ _ H1) as [[<-|[]] K1].
      destruct (first_by_In _ _ _ _ H2) as [[<-|[]] K2].
      cbn in K1, K2. lia.
Qed.

End Epochs.


(** ** The table [table_obs] returns *)

Lemma read_images_rows imgs :
  forall hr i t,
    read_images imgs hr i = Ok t ->
    map idx t = seq i (List.length imgs) /\
    (forall r, In r t -> fieldID r = 0%Z /\ epochID r = 0%Z).
Proof.
  induction imgs as [|[ima hdr] imgs IH]; intros hr i t H; cbn in H.
  - injection H as <-. split; [reflexivity|intros r []].
  - destruct (read_hr hdr hr) as [h|]; [|discriminate].
    destruct (read_images imgs (Some h) (S i)) as [t'|] eqn:E;
      cbn in H; [|discriminate].
    injection H as <-. destruct (IH _ _ _ E) as [Hidx Hz].
    split; [cbn; now rewrite Hidx|].
    intros r [<-|Hr]; [now split|now apply Hz].
Qed.

(** The times read from the headers are binary64 numbers. *)
Lemma read_hr_float hdr hr h :
  read_hr hdr hr = Some h ->
  (forall h0, hr = Some h0 -> binary64 h0) -> binary64 h.
Proof.
  unfold read_hr. intros H Hhr.
  destruct (hdr_DATE_OBS hdr) as [jd|].
  - injection H as <-. apply round64_idem.
  - destruct (hdr_JD hdr) as [jd|].
    + injection H as <-. apply round64_idem.
    + now apply Hhr.
Qed.

Lemma read_images_floats imgs :
  forall hr i t,
    read_images imgs hr i = Ok t ->
    (forall h0, hr = Some h0 -> binary64 h0) ->
    forall r, In r t -> binary64 (JD r).
Proof.
  induction imgs as [|[ima hdr] imgs IH]; intros hr i t H Hhr; cbn in H.
  - injection H as <-. intros r [].
  - destruct (read_hr hdr hr) as [h|] eqn:Eh; [|discriminate].
    destruct (read_images imgs (Some h) (S i)) as [t'|] eqn:E;
      cbn in H; [|discriminate].
    injection H as <-.
    pose proof (read_hr_float _ _ _ Eh Hhr) as Hh.
    intros r [<-|Hr]; [exact Hh|].
    apply (IH _ _ _ E); [|exact Hr].
    intros h0 E0. injection E0 as <-. exact Hh.
Qed.

(** What [table_obs] returns is the table of the two loops over the rows
    read, of which there is one at least. *)
Lemma table_obs_trace separation fradius fdeltaT imgs T :
  table_obs separation imgs fradius fdeltaT = Ok T ->
  exists t0,
    read_images imgs None 0 = Ok t0 /\ (t0 <> @nil row) /\
    T = group_table separation fradius fdeltaT t0.
Proof.
  unfold table_obs. intro H.
  destruct (read_images imgs None 0) as [t0|]; cbn in H; [|discriminate].
  exists t0. destruct t0 as [|r0 t0]; [discriminate|].
  injection H as <-. repeat split. discriminate.
Qed.

Lemma sort_JD_perm t : Permutation t (sort_JD t).
Proof. apply isort_perm. Qed.

Lemma sorted_map_JD (t : table) :
  StronglySorted (fun r1 r2 => JD r1 <= JD r2) t ->
  StronglySorted Qle (map JD t).
Proof.
  induction 1 as [|r t Ht IH Hr]; cbn; constructor; [exact IH|].
  rewrite Forall_forall in *. intros x Hx.
  apply in_map_iff in Hx. destruct Hx as [r' [<- Hr']]. now apply Hr.
Qed.

Lemma sort_JD_sorted t : StronglySorted Qle (map JD (sort_JD t)).
Proof.
  apply sorted_map_JD. apply Sorted_StronglySorted.
  - intros x y z. apply Qle_trans.
  - apply isort_sorted.
    + intros x y H. now apply Qle_bool_iff.
    + intros x y H. apply Qlt_le_weak. apply Qnot_le_lt. intro Hle.
      apply Qle_bool_iff in Hle. congruence.
Qed.

Lemma sorted_filter (p : row -> bool) (t : table) :
  StronglySorted Qle (map JD t) ->
  StronglySorted Qle (map JD (filter p t)).
Proof.
  induction t as [|r t IH]; cbn; intro H; [constructor|].
  apply StronglySorted_inv in H. destruct H as [Ht Hr].
  destruct (p r); cbn; [constructor|]; auto.
  rewrite Forall_forall in *. intros x Hx. apply Hr.
  apply in_map_iff in Hx. destruct Hx as [r' [<- Hr']].
  apply filter_In in Hr'. apply in_map. apply Hr'.
Qed.

(** The rows a mask selects keep distinct indices. *)
Lemma filter_idx_NoDup (mask : row -> bool) (t : table) :
  NoDup (map idx t) -> NoDup (map idx (filter mask t)).
Proof.
  induction t as [|r t IH]; cbn; intro Hnd; [constructor|].
  apply NoDup_cons_iff in Hnd. destruct Hnd as [Hr Ht].
  destruct (mask r); cbn; [|now apply IH].
  constructor; [|now apply IH].
  intro Hin. apply Hr. apply in_map_iff in Hin.
  destruct Hin as [r' [E Hr']]. rewrite <- E.
  apply in_map. now apply filter_In in Hr'.
Qed.

Lemma key_unique (key : row -> Z) (t : table) (r r' : row) :
  NoDup (map key t) -> In r t -> In r' t -> key r = key r' -> r = r'.
Proof.
  induction t as [|x t IH]; intros Hnd Hr Hr' Hk; [destruct Hr|].
  cbn in Hnd. inversion Hnd as [|? ? Hx Hnd']; subst.
  destruct Hr as [->|Hr], Hr' as [->|Hr'].
  - reflexivity.
  - exfalso. apply Hx. rewrite Hk. now apply in_map.
  - exfalso. apply Hx. rewrite <- Hk. now apply in_map.
  - now apply IH.
Qed.

Lemma no_epoch_zero r : epochID r = 0%Z -> no_epoch r = r.
Proof. destruct r. cbn. now intros ->. Qed.

Lemma hd_error_map (A B : Type) (f : A -> B) (l : list A) :
  hd_error (map f l) = option_map f (hd_error l).
Proof. now destruct l. Qed.

Section Pipeline.

Variable separation : Q * Q -> Q * Q -> Q.
Variables radius deltaT : Q.

Local Abbreviation grouped := (TableNotions.grouped separation radius deltaT).

Lemma table_obs_grouped imgs T :
  table_obs separation imgs radius deltaT = Ok T ->
  exists T1, grouped T T1.
Proof.
  intro H. destruct (table_obs_trace _ _ _ _ _ H) as [t0 [E [_ ->]]].
  unfold group_table.
  destruct (read_images_rows _ _ _ _ E) as [Hidx Hz].
  set (t1 := sort_JD t0).
  assert (Hnd : NoDup (map idx t1)).
  { apply (Permutation_NoDup (Permutation_map idx (sort_JD_perm t0))).
    rewrite Hidx. apply seq_NoDup. }
  assert (Hz1 : forall r, In r t1 -> fieldID r = 0%Z /\ epochID r = 0%Z).
  { intros r Hr. apply Hz.
    apply (Permutation_in r (Permutation_sym (sort_JD_perm t0)) Hr). }
  pose proof (group_fields_static separation radius t1) as Hst.
  exists (group_fields separation radius t1). constructor.
  - reflexivity.
  - exists t1. repeat split; [exact Hnd|]. intros r Hr. now apply Hz1.
  - now rewrite (map_idx_static _ _ Hst).
  - rewrite (map_JD_static _ _ Hst). apply sort_JD_sorted.
  - intros r Hr. apply (in_map JD) in Hr.
    rewrite (map_JD_static _ _ Hst) in Hr.
    apply in_map_iff in Hr. destruct Hr as [r0 [<- Hr0]].
    apply (read_images_floats _ _ _ _ E); [discriminate|].
    apply (Permutation_in r0 (Permutation_sym (sort_JD_perm t0)) Hr0).
  - rewrite group_epochs_no_epoch. symmetry.
    rewrite <- (map_id (group_fields separation radius t1)) at 2.
    apply map_ext_in. intros r Hr. apply no_epoch_zero.
    assert (Hin : In (epochID r)
                     (map epochID (group_fields separation radius t1)))
      by now apply in_map.
    rewrite (map_epochID_static _ _ Hst) in Hin.
    apply in_map_iff in Hin. destruct Hin as [r0 [<- Hr0]].
    now apply Hz1.
Qed.

Lemma grouped_idx_T T T1 : grouped T T1 -> NoDup (map idx T).
Proof.
  intro G. pose proof (grouped_idx _ _ _ _ _ G) as H.
  rewrite (grouped_no_epoch _ _ _ _ _ G), map_map in H. exact H.
Qed.

(** The rows of a partition between the two loops: those of the table
    returned, without their epochs, and the outcome of the traversal
    [cluster_rows]. *)
Lemma partition_rows T T1 k :
  grouped T T1 ->
  filter (in_partition k) T1 = map no_epoch (filter (in_partition k) T) /\
  (filter (in_partition k) T1 = [] \/
   exists first rest,
     in_partition k first = true /\
     (forall d, In d rest -> in_partition k d = true) /\
     filter (in_partition k) T1
     = snd (cluster_rows separation radius (in_partition k) 1
              [set_field 1 (Some (RA first)) (Some (Dec first)) first] rest)).
Proof.
  intro G. split.
  - rewrite (grouped_no_epoch _ _ _ _ _ G) at 1. now rewrite filter_map_commute.
  - destruct (grouped_fields _ _ _ _ _ G) as [t1 [-> [Hnd Hz]]].
    rewrite group_fields_partition by exact Hnd.
    destruct (filter (in_partition k) t1) as [|first rest] eqn:E;
      [now left|].
    right. exists first, rest.
    assert (Hin : forall r, In r (first :: rest) ->
                            In r t1 /\ in_partition k r = true)
      by (intros r Hr; apply filter_In; now rewrite E).
    split; [apply Hin; now left|].
    split; [intros d Hd; apply Hin; now right|].
    apply fields_of_partition_rows.
    + rewrite <- E. now apply filter_idx_NoDup.
    + intros r Hr. now apply Hin.
    + intros r Hr. apply Hz. now apply Hin.
Qed.

Lemma first_by_no_epoch (key : row -> Z) (P : table) e :
  (forall r, key (no_epoch r) = key r) ->
  first_by key (map no_epoch P) e = option_map no_epoch (first_by key P e).
Proof.
  intro Hk. unfold first_by. rewrite filter_map_commute, hd_error_map.
  do 2 f_equal. apply filter_ext. intro r. now rewrite Hk.
Qed.

(** C5, as amended.  In the table [table_obs] returns, with [deltaT] not
    negative, the rows of a field that has rows carry the epochs 1..n and
    no other; every row lies between the time of the first row of its
    epoch and the binary64 sum of that time and [deltaT], the bound the
    code compares it with; and the first rows of the epochs are in
    strictly increasing time order. *)
Theorem epochs_of_a_field imgs T k f :
  0 <= deltaT ->
  table_obs separation imgs radius deltaT = Ok T ->
  members T k f <> [] ->
  exists n,
    (1 <= n)%Z /\
    (forall e, In e (map epochID (members T k f)) <-> (1 <= e <= n)%Z) /\
    (forall m, In m (members T k f) ->
       exists ref,
         first_of_epoch (members T k f) (epochID m) = Some ref /\
         JD ref <= JD m /\ JD m <= add64 (JD ref) deltaT) /\
    (forall e1 e2 r1 r2,
       first_of_epoch (members T k f) e1 = Some r1 ->
       first_of_epoch (members T k f) e2 = Some r2 ->
       (e1 < e2)%Z -> JD r1 < JD r2).
Proof.
  intros HdT Hobs Hne.
  destruct (table_obs_grouped _ _ Hobs) as [T1 G].
  assert (Hmem : members T k f
                 = epochs_of_field deltaT (in_partition k) (members T1 k f) f).
  { unfold members. rewrite (grouped_epochs _ _ _ _ _ G).
    apply group_epochs_field. exact (grouped_idx _ _ _ _ _ G). }
  destruct (members T1 k f) as [|first rest] eqn:E.
  { exfalso. apply Hne. rewrite Hmem. reflexivity. }
  assert (Hnd : NoDup (map idx (first :: rest))).
  { rewrite <- E. apply filter_idx_NoDup. exact (grouped_idx _ _ _ _ _ G). }
  assert (Hmask : forall r, In r (first :: rest) ->
                            mask_field_of (in_partition k) f r = true).
  { intros r Hr. rewrite <- E in Hr. now apply filter_In in Hr. }
  assert (Hs : StronglySorted Qle (map JD (first :: rest))).
  { rewrite <- E. apply sorted_filter. exact (grouped_sorted _ _ _ _ _ G). }
  rewrite (epochs_of_field_rows deltaT _ f first rest Hnd Hmask) in Hmem.
  assert (Hg : forall r, In r (first :: rest) ->
                         JD r <= add64 (JD r) deltaT).
  { intros r Hr. apply add64_grows; [exact HdT|].
    apply (grouped_floats _ _ _ _ _ G). rewrite <- E in Hr.
    now apply filter_In in Hr. }
  destruct (sweep_field deltaT first rest Hg Hs)
    as [jr [n [E1 [[ref [Href _]] [E3 E4]]]]].
  rewrite <- Hmem in *. exists n.
  split; [|split; [exact E1|split; [exact E3|exact E4]]].
  destruct (first_by_In _ _ _ _ Href) as [Hin Hk].
  assert (H : (1 <= n <= n)%Z); [|lia].
  apply E1. rewrite <- Hk at 1. now apply in_map.
Qed.

(** C9.  In the table [table_obs] returns, every row is the first row of
    its field, which it opened, or lies less than 100 degrees, and less
    than [radius], from that first row, the reference of the field: no
    row was put in a field whose reference is 100 degrees away or more,
    whatever [radius] is. *)
Theorem field_reference_within_100_degrees imgs T r :
  table_obs separation imgs radius deltaT = Ok T -> In r T ->
  exists fst,
    first_of_field (filter (in_partition (part_of r)) T) (fieldID r)
    = Some fst /\
    (r = fst \/
     (sep_of separation r fst < 100 /\ sep_of separation r fst < radius)) /\
    (100 <= sep_of separation r fst -> r = fst).
Proof.
  intros Hobs Hr.
  destruct (table_obs_grouped _ _ Hobs) as [T1 G].
  remember (part_of r) as k eqn:Ek.
  destruct (partition_rows T T1 k G) as [HP Hrows].
  assert (HrP : In r (filter (in_partition k) T)).
  { apply filter_In. split; [exact Hr|]. now apply in_partition_iff. }
  assert (Hr1 : In (no_epoch r) (filter (in_partition k) T1))
    by (rewrite HP; now apply in_map).
  destruct Hrows as [Hnil|[first [rest [Hfirst [Hrest Hcl]]]]];
    [rewrite Hnil in Hr1; destruct Hr1|].
  assert (Hinv : fields_inv separation radius (in_partition k)
                   (fst (cluster_rows separation radius (in_partition k) 1
                           [set_field 1 (Some (RA first)) (Some (Dec first))
                                      first] rest))
                   (filter (in_partition k) T1)).
  { rewrite Hcl. apply cluster_rows_inv.
    - intros f0 ra dec r0. now apply in_partition_static.
    - exact Hrest.
    - split; [lia|]. split.
      + intros r0 [<-|[]]. split; [cbn [fieldID set_field]; lia|].
        rewrite <- Hfirst. now apply in_partition_static.
      + intros r0 [<-|[]]. eexists. split; [reflexivity|now left]. }
  destruct Hinv as [_ [_ Hnear]].
  destruct (Hnear _ Hr1) as [fst1 [Hf1 Hclose]].
  unfold first_of_field in Hf1. rewrite HP in Hf1.
  rewrite first_by_no_epoch in Hf1 by reflexivity.
  change (fieldID (no_epoch r)) with (fieldID r) in Hf1.
  destruct (first_by fieldID (filter (in_partition k) T) (fieldID r))
    as [fst|] eqn:Ef; [|discriminate].
  injection Hf1 as <-. exists fst.
  assert (Hcases : r = fst \/
            (sep_of separation r fst < 100 /\
             sep_of separation r fst < radius)).
  { destruct Hclose as [Heq|[H1 H2]]; [left|right; now split].
    destruct (first_by_In _ _ _ _ Ef) as [Hin _].
    apply filter_In in Hin.
    apply (idx_unique T); [exact (grouped_idx_T _ _ G)|exact Hr|apply Hin|].
    now apply no_epoch_idx. }
  split; [exact Ef|]. split; [exact Hcases|].
  intro Hfar. destruct Hcases as [H|[H _]]; [exact H|]. lra.
Qed.

(** C7, as amended.  When [radius] is 0, and separations are not
    negative, the rows of a partition carry, in table order, the fields
    1, 2, ..., one field each: two rows of a partition are never in one
    field, whether their coordinates are equal or not. *)
Theorem zero_radius_one_field_per_row imgs T k :
  radius == 0 -> (forall c1 c2, 0 <= separation c1 c2) ->
  table_obs separation imgs radius deltaT = Ok T ->
  map fieldID (filter (in_partition k) T)
  = map Z.of_nat (seq 1 (List.length (filter (in_partition k) T))) /\
  (forall r1 r2,
      In r1 (filter (in_partition k) T) ->
      In r2 (filter (in_partition k) T) ->
      fieldID r1 = fieldID r2 -> r1 = r2).
Proof.
  intros Hzero Hpos Hobs.
  destruct (table_obs_grouped _ _ Hobs) as [T1 G].
  destruct (partition_rows T T1 k G) as [HP Hrows].
  assert (Hids : map fieldID (filter (in_partition k) T)
                 = map Z.of_nat
                       (seq 1 (List.length (filter (in_partition k) T)))).
  { assert (H1 : map fieldID (filter (in_partition k) T1)
                 = map Z.of_nat
                       (seq 1 (List.length (filter (in_partition k) T1)))).
    { destruct Hrows as [->|[first [rest [_ [_ Hcl]]]]]; [reflexivity|].
      rewrite Hcl.
      apply (cluster_rows_single separation radius (in_partition k) rest).
      - intros c1 c2. rewrite Hzero. apply Hpos.
      - split; reflexivity. }
    rewrite HP, map_map, length_map in H1. exact H1. }
  split; [exact Hids|].
  intros r1 r2 H1 H2.
  apply (key_unique fieldID (filter (in_partition k) T)); auto.
  rewrite Hids. apply Finite.Injective_map_NoDup; [|apply seq_NoDup].
  intros x y. apply Nat2Z.inj.
Qed.

End Pipeline.


Lemma separation_equator_nonneg (c1 c2 : Q * Q) :
  0 <= separation_equator c1 c2.
Proof.
  unfold separation_equator. destruct (Qle_bool _ _); apply Qabs_nonneg.
Qed.

(** C5, as amended, on field 1 of the three images, whose two rows are
    0.48 hour apart. *)
Lemma epochs_of_a_field_witness :
  exists n,
    (1 <= n)%Z /\
    (forall e,
        In e (map epochID
                  (members Scenario.table_three ("T", "I", "F")%string 1))
        <-> (1 <= e <= n)%Z) /\
    (forall m,
        In m (members Scenario.table_three ("T", "I", "F")%string 1) ->
        exists ref,
          first_of_epoch
            (members Scenario.table_three ("T", "I", "F")%string 1)
            (epochID m) = Some ref /\
          JD ref <= JD m /\ JD m <= add64 (JD ref) 1) /\
    (forall e1 e2 r1 r2,
        first_of_epoch
          (members Scenario.table_three ("T", "I", "F")%string 1) e1
        = Some r1 ->
        first_of_epoch
          (members Scenario.table_three ("T", "I", "F")%string 1) e2
        = Some r2 ->
        (e1 < e2)%Z -> JD r1 < JD r2).
Proof.
  apply (epochs_of_a_field separation_equator 1 1
           Scenario.three_images Scenario.table_three
           ("T", "I", "F")%string 1%Z).
  - discriminate.
  - vm_compute. reflexivity.
  - vm_compute. discriminate.
Defined.

(** C5, the bound as the claim has it.  The second of the two images
    2 ** -8 day apart is put in the epoch of the first, with an epoch
    length 2 ** -40 hour short of their distance: its time is within the
    binary64 sum of line 233, and beyond the sum of the two numbers. *)
Theorem epoch_member_beyond_reference_plus_deltaT :
  0 <= Runs.deltaT_short /\
  table_obs separation_equator Runs.close_pair 1 Runs.deltaT_short
  = Ok Runs.table_close /\
  In Runs.close_b (members Runs.table_close ("T", "I", "F")%string 1) /\
  first_of_epoch (members Runs.table_close ("T", "I", "F")%string 1)
                 (epochID Runs.close_b) = Some Runs.close_a /\
  epochID Runs.close_b = 1%Z /\
  JD Runs.close_a == 59016000 /\
  JD Runs.close_b == 59016000 + (3 # 32) /\
  JD Runs.close_a + Runs.deltaT_short < JD Runs.close_b /\
  JD Runs.close_b <= add64 (JD Runs.close_a) Runs.deltaT_short.
Proof.
  split; [discriminate|].
  split; [vm_compute; reflexivity|].
  split; [right; left; reflexivity|].
  repeat split; vm_compute; try reflexivity; discriminate.
Qed.

(** C9 on the third of the three images, 0.1 degree from the first. *)
Lemma field_reference_within_100_degrees_witness :
  exists fst,
    first_of_field
      (filter (in_partition (part_of Scenario.row_c)) Scenario.table_three)
      (fieldID Scenario.row_c) = Some fst /\
    (Scenario.row_c = fst \/
     (sep_of separation_equator Scenario.row_c fst < 100 /\
      sep_of separation_equator Scenario.row_c fst < 1)) /\
    (100 <= sep_of separation_equator Scenario.row_c fst ->
     Scenario.row_c = fst).
Proof.
  apply (field_reference_within_100_degrees separation_equator 1 1
           Scenario.three_images Scenario.table_three Scenario.row_c).
  - vm_compute. reflexivity.
  - right. right. left. reflexivity.
Defined.

(** C7, as amended, on the two images at the same position. *)
Lemma zero_radius_one_field_per_row_witness :
  map fieldID
      (filter (in_partition ("T", "I", "F")%string) Scenario.table_same)
  = map Z.of_nat
        (seq 1 (List.length
                  (filter (in_partition ("T", "I", "F")%string)
                          Scenario.table_same))) /\
  (forall r1 r2,
      In r1 (filter (in_partition ("T", "I", "F")%string)
                    Scenario.table_same) ->
      In r2 (filter (in_partition ("T", "I", "F")%string)
                    Scenario.table_same) ->
      fieldID r1 = fieldID r2 -> r1 = r2).
Proof.
  apply (zero_radius_one_field_per_row separation_equator 0 1
           Scenario.same_position Scenario.table_same
           ("T", "I", "F")%string).
  - reflexivity.
  - exact separation_equator_nonneg.
  - vm_compute. reflexivity.
Defined.

End GroupingFacts.

(** * More on the table of observations *)

Module TableFacts.

Import Stacking TableNotions Views GroupingFacts.

(** ** The rows and their order *)

Lemma read_images_cols imgs :
  forall hr i t,
    read_images imgs hr i = Ok t -> map row_cols t = map image_cols imgs.
Proof.
  induction imgs as [|[ima hdr] imgs IH]; intros hr i t H; cbn in H.
  - now injection H as <-.
  - destruct (read_hr hdr hr) as [h|]; [|discriminate].
    destruct (read_images imgs (Some h) (S i)) as [t'|] eqn:E;
      cbn in H; [|discriminate].
    injection H as <-. cbn. f_equal. exact (IH _ _ _ E).
Qed.

Lemma map_through (A B C : Type) (f : A -> B) (g : B -> C) (h : A -> C)
  (l l' : list A) :
  (forall x, h x = g (f x)) -> map f l = map f l' -> map h l = map h l'.
Proof.
  intros Hh H.
  rewrite (map_ext h (fun x => g (f x)) Hh l),
          (map_ext h (fun x => g (f x)) Hh l').
  now rewrite <- !(map_map f g), H.
Qed.

Lemma row_cols_static (t t' : table) :
  map static t = map static t' -> map row_cols t = map row_cols t'.
Proof.
  apply (map_through _ _ _ static
           (fun s => let '(_, fn, tel, ins, fil, ra, dec, _, _) := s in
                     (fn, tel, ins, fil, ra, dec))).
  now intros [].
Qed.

Lemma row_cols_no_epoch (t t' : table) :
  map no_epoch t = map no_epoch t' -> map row_cols t = map row_cols t'.
Proof. apply (map_through _ _ _ no_epoch row_cols). now intros []. Qed.

Lemma idx_no_epoch (t t' : table) :
  map no_epoch t = map no_epoch t' -> map idx t = map idx t'.
Proof. apply (map_through _ _ _ no_epoch idx). now intros []. Qed.

Lemma cons_eq_inv (A : Type) (x y : A) (l l' : list A) :
  x :: l = y :: l' -> x = y /\ l = l'.
Proof. intro H. now injection H. Qed.

Lemma static_position r r' :
  static r = static r' -> RA r = RA r' /\ Dec r = Dec r'.
Proof. unfold static. intro H. injection H. intros. now split. Qed.

(** ** More on the loop over the images of a partition *)

Lemma fold_left_inv (A B : Type) (P : A -> Prop) (f : A -> B -> A)
  (l : list B) :
  (forall a b, In b l -> P a -> P (f a b)) ->
  forall a, P a -> P (fold_left f l a).
Proof.
  induction l as [|b l IH]; intros Hf a Ha; cbn [fold_left]; [exact Ha|].
  apply IH; [intros; apply Hf; auto; now right|].
  apply Hf; [now left|exact Ha].
Qed.

Section Fields.

Variable separation : Q * Q -> Q * Q -> Q.
Variable radius : Q.

Local Abbreviation closest_field := (closest_field separation radius).
Local Abbreviation assign_local := (TableNotions.assign_local separation radius).
Local Abbreviation cluster_rows := (TableNotions.cluster_rows separation radius).

(** When the search of lines 187-204 finds a field, [ra_ref] and
    [dec_ref] hold the position of a row the search looked at. *)
Lemma closest_field_refs mask (t : table) (d : row) :
  field_ref (closest_field mask t d) = (-1)%Z \/
  exists fst,
    In fst (filter (mask2_of mask) t) /\
    ra_ref (closest_field mask t d) = Some (RA fst) /\
    dec_ref (closest_field mask t d) = Some (Dec fst).
Proof.
  unfold Stacking.closest_field.
  apply (fold_left_inv _ _
           (fun s => field_ref s = (-1)%Z \/
                     exists fst, In fst (filter (mask2_of mask) t) /\
                                 ra_ref s = Some (RA fst) /\
                                 dec_ref s = Some (Dec fst)));
    [|now left].
  intros s key _ Hs. unfold search_step.
  destruct (filter (fun r => (Z.eqb (fieldID r) key && mask2_of mask r)%bool)
                   t) as [|first rest] eqn:E; [exact Hs|].
  assert (Hin : In first (filter (mask2_of mask) t)).
  { assert (H : In first (first :: rest)) by now left.
    rewrite <- E in H. apply filter_In in H. destruct H as [H1 H2].
    apply andb_true_iff in H2. apply filter_In. now split. }
  right. exists first. now destruct (_ && _)%bool.
Qed.

Lemma assign_local_static mask fid pre d :
  static (snd (assign_local mask fid pre d)) = static d.
Proof. unfold TableNotions.assign_local. now destruct (negb _). Qed.

Lemma cluster_rows_static mask (todo : table) :
  forall fid pre,
    map static (snd (cluster_rows mask fid pre todo))
    = map static (pre ++ todo).
Proof.
  induction todo as [|d todo IH]; intros fid pre;
    cbn [TableNotions.cluster_rows snd]; [now rewrite app_nil_r|].
  rewrite IH, <- app_assoc, !map_app. cbn [map app].
  now rewrite assign_local_static.
Qed.

(** *** Every row has the position of a row as its reference *)

Lemma assign_local_refs mask fid (pre : table) (d : row) :
  (forall f ra dec r, mask (set_field f ra dec r) = mask r) ->
  mask d = true ->
  refs_inv mask pre ->
  refs_inv mask (pre ++ [snd (assign_local mask fid pre d)]).
Proof.
  intros Hmask Hd Hinv r Hr. apply in_app_or in Hr.
  destruct Hr as [Hr|[<-|[]]].
  - destruct (Hinv r Hr) as [Hm [r' [Hr' H]]]. split; [exact Hm|].
    exists r'. split; [apply in_or_app; now left|exact H].
  - unfold TableNotions.assign_local.
    destruct (Z.eqb (field_ref (closest_field mask pre d)) (-1)) eqn:E;
      cbn [negb snd]; rewrite Hmask; (split; [exact Hd|]).
    + eexists. split; [apply in_or_app; right; now left|].
      cbn. split; reflexivity.
    + apply Z.eqb_neq in E.
      destruct (closest_field_refs mask pre d) as [E'|[fst [Hin [Hra Hdec]]]];
        [contradiction|].
      exists fst. apply filter_In in Hin.
      split; [apply in_or_app; left; apply Hin|]. cbn. now split.
Qed.

Lemma cluster_rows_refs mask (todo : table) :
  (forall f ra dec r, mask (set_field f ra dec r) = mask r) ->
  (forall d, In d todo -> mask d = true) ->
  forall fid pre,
    refs_inv mask pre ->
    refs_inv mask (snd (cluster_rows mask fid pre todo)).
Proof.
  intro Hmask. induction todo as [|d todo IH]; intros Hd fid pre Hinv;
    cbn [TableNotions.cluster_rows]; [exact Hinv|].
  apply IH; [intros; apply Hd; now right|].
  apply assign_local_refs; auto. apply Hd. now left.
Qed.

(** *** The fields are numbered without a gap *)

Lemma assign_local_cover mask fid (pre : table) (d : row) :
  cover_inv fid pre ->
  cover_inv (fst (assign_local mask fid pre d))
            (pre ++ [snd (assign_local mask fid pre d)]).
Proof.
  intros Hinv f Hf. rewrite map_app. apply in_or_app.
  unfold TableNotions.assign_local in *.
  destruct (negb _); cbn [fst snd map fieldID set_field] in *.
  - left. now apply Hinv.
  - destruct (Z.eq_dec f (fid + 1)) as [->|Hne]; [right; now left|].
    left. apply Hinv. lia.
Qed.

Lemma cluster_rows_cover mask (todo : table) :
  forall fid pre,
    cover_inv fid pre ->
    cover_inv (fst (cluster_rows mask fid pre todo))
              (snd (cluster_rows mask fid pre todo)).
Proof.
  induction todo as [|d todo IH]; intros fid pre Hinv;
    cbn [TableNotions.cluster_rows]; [exact Hinv|].
  apply IH. now apply assign_local_cover.
Qed.

(** *** A radius that holds the whole partition *)

Lemma nodup_constant (c : Z) (l : list Z) :
  l <> [] -> (forall x, In x l -> x = c) -> nodup Z.eq_dec l = [c].
Proof.
  induction l as [|x l IH]; intros Hne Hc; [contradiction|].
  cbn [nodup]. destruct (in_dec Z.eq_dec x l) as [Hin|Hnin].
  - apply IH; [intro E; now rewrite E in Hin|].
    intros y Hy. apply Hc. now right.
  - destruct l as [|y l].
    + cbn. f_equal. apply Hc. now left.
    + exfalso. apply Hnin. left.
      rewrite (Hc x (or_introl eq_refl)).
      apply Hc. right. now left.
Qed.

Lemma closest_field_one mask (first : row) (pre : table) (d : row) :
  one_field_inv mask first 1 pre ->
  separation (RA d, Dec d) (RA first, Dec first) < radius ->
  separation (RA d, Dec d) (RA first, Dec first) < 100 ->
  field_ref (closest_field mask pre d) = 1%Z /\
  ra_ref (closest_field mask pre d) = Some (RA first) /\
  dec_ref (closest_field mask pre d) = Some (Dec first).
Proof.
  intros [_ [[tl Hpre] Hall]] Hr Hc.
  assert (Hm2 : filter (mask2_of mask) pre = pre).
  { apply filter_all. intros r Hin. destruct (Hall r Hin) as [Hm [Hf _]].
    unfold mask2_of. now rewrite Hm, Hf. }
  assert (Hkeys : field_keys pre = [1%Z]).
  { unfold field_keys, group_keys. rewrite (nodup_constant 1).
    - reflexivity.
    - rewrite Hpre. discriminate.
    - intros x Hx. apply in_map_iff in Hx. destruct Hx as [r [<- Hin]].
      now destruct (Hall r Hin) as [_ [Hf _]]. }
  unfold Stacking.closest_field. rewrite Hm2, Hkeys.
  cbn [fold_left]. unfold search_step.
  rewrite (filter_all _ _ pre).
  2:{ intros r Hin. destruct (Hall r Hin) as [Hm [Hf _]].
      unfold mask2_of. now rewrite Hm, Hf. }
  rewrite Hpre. cbn [RA Dec set_field].
  apply Qltb_lt in Hr. apply Qltb_lt in Hc.
  rewrite Hr. cbn [search_init sep_min]. rewrite Hc.
  cbn. repeat split.
Qed.

Lemma cluster_rows_one mask (first : row) (todo : table) :
  (forall f ra dec r, mask (set_field f ra dec r) = mask r) ->
  (forall d, In d todo ->
     mask d = true /\
     separation (RA d, Dec d) (RA first, Dec first) < radius /\
     separation (RA d, Dec d) (RA first, Dec first) < 100) ->
  forall fid pre,
    one_field_inv mask first fid pre ->
    one_field_inv mask first (fst (cluster_rows mask fid pre todo))
                  (snd (cluster_rows mask fid pre todo)).
Proof.
  intro Hmask. induction todo as [|d todo IH]; intros Hd fid pre Hinv;
    cbn [TableNotions.cluster_rows]; [exact Hinv|].
  apply IH; [intros; apply Hd; now right|].
  destruct (Hd d (or_introl eq_refl)) as [Hm [Hr Hc]].
  pose proof Hinv as [-> [[tl Hpre] Hall]].
  destruct (closest_field_one mask first pre d Hinv Hr Hc) as [E1 [E2 E3]].
  unfold TableNotions.assign_local. rewrite E1, E2, E3.
  change (negb (1 =? -1)%Z) with true. cbn [fst snd].
  split; [reflexivity|]. split.
  - exists (tl ++ [set_field 1 (Some (RA first)) (Some (Dec first)) d]).
    now rewrite Hpre.
  - intros r Hin. apply in_app_or in Hin.
    destruct Hin as [Hin|[<-|[]]]; [now apply Hall|].
    rewrite Hmask. cbn. now repeat split.
Qed.

End Fields.

(** ** More on the sweep over the images of a field *)

Section Epochs.

Variable deltaT : Q.

Local Abbreviation epoch_local := (TableNotions.epoch_local deltaT).
Local Abbreviation sweep_rows := (TableNotions.sweep_rows deltaT).

Lemma sweep_rows_step jr eid (pre : table) d (todo : table) :
  sweep_rows jr eid pre (d :: todo)
  = sweep_rows (fst (fst (epoch_local jr eid d)))
               (snd (fst (epoch_local jr eid d)))
               (pre ++ [snd (epoch_local jr eid d)]) todo.
Proof.
  cbn [TableNotions.sweep_rows].
  now destruct (epoch_local jr eid d) as [[jr' eid'] d'].
Qed.

(** The epochs start at 1 and never go down. *)
Lemma sweep_rows_positive (todo : table) :
  forall jr eid pre,
    (1 <= eid)%Z -> (forall r, In r pre -> (1 <= epochID r)%Z) ->
    forall r, In r (snd (sweep_rows jr eid pre todo)) -> (1 <= epochID r)%Z.
Proof.
  induction todo as [|d todo IH]; intros jr eid pre Heid Hpre;
    [exact Hpre|].
  rewrite sweep_rows_step. unfold TableNotions.epoch_local.
  destruct (Qle_bool _ _); cbn [fst snd]; apply IH; try lia;
    intros r Hr; apply in_app_or in Hr;
    (destruct Hr as [Hr|[<-|[]]]; [now apply Hpre|cbn; lia]).
Qed.

(** The sweep writes the epochs only. *)
Lemma sweep_rows_JD (todo : table) :
  forall jr eid pre,
    map JD (snd (sweep_rows jr eid pre todo)) = map JD (pre ++ todo).
Proof.
  induction todo as [|d todo IH]; intros jr eid pre;
    [now rewrite app_nil_r|].
  rewrite sweep_rows_step, IH, !map_app. cbn [map].
  rewrite <- app_assoc. cbn [app]. do 3 f_equal.
  unfold TableNotions.epoch_local. now destruct (Qle_bool _ _).
Qed.

(** When the sum of line 233 is below the time it is computed from, for
    the times of all the images, no image is within the interval of the
    epoch that is open, not even the first one: every image opens an
    epoch. *)
Lemma sweep_rows_fresh (todo : table) :
  (forall d, In d todo -> add64 (JD d) deltaT < JD d) ->
  forall jr eid pre,
    add64 jr deltaT < jr ->
    StronglySorted Qle (map JD todo) ->
    (forall d, In d todo -> jr <= JD d) ->
    fresh_epochs_inv jr eid pre ->
    fresh_epochs_inv (fst (fst (sweep_rows jr eid pre todo)))
                     (snd (fst (sweep_rows jr eid pre todo)))
                     (snd (sweep_rows jr eid pre todo)).
Proof.
  induction todo as [|d todo IH]; intros Hneg jr eid pre Hlow Hs Hjr Hinv;
    [exact Hinv|].
  rewrite sweep_rows_step. unfold TableNotions.epoch_local.
  cbn [map] in Hs. apply StronglySorted_inv in Hs. destruct Hs as [Hs Hd].
  rewrite Forall_forall in Hd.
  assert (Hfar : Qle_bool (JD d) (add64 jr deltaT) = false).
  { destruct (Qle_bool (JD d) (add64 jr deltaT)) eqn:E; [|reflexivity].
    apply Qle_bool_iff in E.
    pose proof (Hjr d (or_introl eq_refl)). lra. }
  rewrite Hfar. cbn [fst snd].
  destruct Hinv as [Hids [Heid Hpre]].
  apply IH; [| |exact Hs| |].
  - intros d' Hd'. apply Hneg. now right.
  - apply Hneg. now left.
  - intros d' Hd'. apply Hd. now apply in_map.
  - split; [|split].
    + rewrite length_app, map_app, Hids. cbn [List.length].
      rewrite Nat.add_1_r, seq_S, map_app. cbn [map epochID set_epoch].
      do 2 f_equal. lia.
    + rewrite length_app. cbn [List.length]. lia.
    + intros m Hm. apply in_app_or in Hm.
      destruct Hm as [Hm|[<-|[]]]; [|apply Qle_refl].
      apply Qle_trans with jr; [now apply Hpre|].
      apply Hjr. now left.
Qed.

End Epochs.

(** ** The table [table_obs] returns, continued *)

Section Pipeline.

Variable separation : Q * Q -> Q * Q -> Q.
Variables radius deltaT : Q.

Local Abbreviation grouped := (TableNotions.grouped separation radius deltaT).

(** The rows of a field of the table returned are the outcome of the
    sweep over the rows the loop over the fields left. *)
Lemma members_trace T T1 k f :
  grouped T T1 -> members T k f <> [] ->
  exists first rest,
    StronglySorted Qle (map JD (first :: rest)) /\
    members T k f
    = snd (sweep_rows deltaT (JD first) 1 [] (first :: rest)).
Proof.
  intros G Hne.
  assert (Hmem : members T k f
                 = epochs_of_field deltaT (in_partition k) (members T1 k f) f).
  { unfold members. rewrite (grouped_epochs _ _ _ _ _ G).
    apply group_epochs_field. exact (grouped_idx _ _ _ _ _ G). }
  destruct (members T1 k f) as [|first rest] eqn:E.
  { exfalso. apply Hne. rewrite Hmem. reflexivity. }
  exists first, rest. split.
  - rewrite <- E. apply sorted_filter. exact (grouped_sorted _ _ _ _ _ G).
  - rewrite Hmem. apply epochs_of_field_rows.
    + rewrite <- E. apply filter_idx_NoDup. exact (grouped_idx _ _ _ _ _ G).
    + intros r Hr. rewrite <- E in Hr. now apply filter_In in Hr.
Qed.

(** The times in the table returned are binary64 numbers, and so are
    the times of the rows the sweep runs over. *)
Lemma grouped_float T T1 r : grouped T T1 -> In r T -> binary64 (JD r).
Proof.
  intros G Hr. change (JD r) with (JD (no_epoch r)).
  apply (grouped_floats _ _ _ _ _ G).
  rewrite (grouped_no_epoch _ _ _ _ _ G). now apply in_map.
Qed.

Lemma swept_rows_times T k f (first : row) (rest : table) :
  members T k f = snd (sweep_rows deltaT (JD first) 1 [] (first :: rest)) ->
  forall r, In r (first :: rest) ->
    exists m, In m (members T k f) /\ JD m = JD r.
Proof.
  intros Hsw r Hr. apply (in_map JD) in Hr.
  rewrite <- (app_nil_l (first :: rest)) in Hr.
  rewrite <- (sweep_rows_JD deltaT (first :: rest) (JD first) 1 []) in Hr.
  rewrite <- Hsw in Hr. apply in_map_iff in Hr.
  destruct Hr as [m [E Hm]]. now exists m.
Qed.

(** The rows of a partition between the two loops, with the invariants
    of the loop over the fields. *)
Lemma partition_trace T T1 k :
  grouped T T1 -> filter (in_partition k) T <> [] ->
  exists first rest,
    in_partition k first = true /\
    (forall d, In d rest -> in_partition k d = true) /\
    map no_epoch (filter (in_partition k) T)
    = snd (cluster_rows separation radius (in_partition k) 1
             [set_field 1 (Some (RA first)) (Some (Dec first)) first] rest).
Proof.
  intros G Hne. destruct (partition_rows _ _ _ T T1 k G) as [HP Hrows].
  destruct Hrows as [Hnil|[first [rest [Hfirst [Hrest Hcl]]]]].
  - exfalso. apply Hne. rewrite Hnil in HP.
    symmetry in HP. now apply map_eq_nil in HP.
  - exists first, rest. now rewrite <- HP.
Qed.

Lemma table_obs_cols imgs T :
  table_obs separation imgs radius deltaT = Ok T ->
  Permutation (map row_cols T) (map image_cols imgs) /\
  Permutation (map idx T) (seq 0 (List.length imgs)).
Proof.
  intro H. destruct (table_obs_trace _ _ _ _ _ H) as [t0 [E [_ ->]]].
  unfold group_table.
  destruct (read_images_rows _ _ _ _ E) as [Hidx _].
  pose proof (read_images_cols _ _ _ _ E) as Hcols.
  pose proof (group_fields_static separation radius (sort_JD t0)) as Hst.
  pose proof (group_epochs_no_epoch deltaT
                (group_fields separation radius (sort_JD t0))) as Hne.
  split.
  - rewrite (row_cols_no_epoch _ _ Hne), (row_cols_static _ _ Hst), <- Hcols.
    apply Permutation_map, Permutation_sym, sort_JD_perm.
  - rewrite (idx_no_epoch _ _ Hne), (map_idx_static _ _ Hst), <- Hidx.
    apply Permutation_map, Permutation_sym, sort_JD_perm.
Qed.

(** X1.  [table_obs] returns one row per image: the rows carry, in some
    order, the names, the telescopes, instruments and filters, and the
    positions of the images, and the numbers 0 .. n-1 as [idx]. *)
Theorem table_obs_keeps_images imgs T :
  table_obs separation imgs radius deltaT = Ok T ->
  Permutation (map row_cols T) (map image_cols imgs) /\
  Permutation (map idx T) (seq 0 (List.length imgs)) /\
  List.length T = List.length imgs.
Proof.
  intro Hobs. destruct (table_obs_cols imgs T Hobs) as [Hc Hi].
  split; [exact Hc|]. split; [exact Hi|].
  apply Permutation_length in Hc. now rewrite !length_map in Hc.
Qed.

(** X2.  The table [table_obs] returns is in time order: the sort of line
    152 is not undone by the two loops. *)
Theorem table_obs_in_time_order imgs T :
  table_obs separation imgs radius deltaT = Ok T ->
  StronglySorted Qle (map JD T) /\ NoDup (map idx T).
Proof.
  intro Hobs. destruct (table_obs_grouped _ _ _ _ _ Hobs) as [T1 G].
  split; [|exact (grouped_idx_T _ _ _ _ _ G)].
  pose proof (grouped_sorted _ _ _ _ _ G) as Hs.
  rewrite (grouped_no_epoch _ _ _ _ _ G), map_map in Hs. exact Hs.
Qed.


Lemma first_row_inv k (first : row) :
  in_partition k first = true ->
  fields_inv separation radius (in_partition k) 1
    [set_field 1 (Some (RA first)) (Some (Dec first)) first] /\
  refs_inv (in_partition k)
    [set_field 1 (Some (RA first)) (Some (Dec first)) first] /\
  cover_inv 1 [set_field 1 (Some (RA first)) (Some (Dec first)) first].
Proof.
  intro Hfirst.
  assert (Hm : in_partition k
                 (set_field 1 (Some (RA first)) (Some (Dec first)) first)
               = true)
    by (rewrite <- Hfirst; now apply in_partition_static).
  split; [|split].
  - split; [lia|]. split.
    + intros r0 [<-|[]]. split; [cbn [fieldID set_field]; lia|exact Hm].
    + intros r0 [<-|[]]. eexists. split; [reflexivity|now left].
  - intros r0 [<-|[]]. split; [exact Hm|].
    eexists. split; [now left|]. cbn. split; reflexivity.
  - intros f Hf. left. cbn. lia.
Qed.

Lemma in_partition_set_field k f ra dec r :
  in_partition k (set_field f ra dec r) = in_partition k r.
Proof. now apply in_partition_static. Qed.

Lemma grouped_row_assigned T T1 r :
  grouped T T1 -> In r T ->
  (1 <= fieldID r)%Z /\ (1 <= epochID r)%Z /\
  exists r', In r' T /\ part_of r' = part_of r /\
             RA_ref r = Some (RA r') /\ Dec_ref r = Some (Dec r').
Proof.
  intros G Hr.
  remember (part_of r) as k eqn:Ek.
  assert (HrP : In r (filter (in_partition k) T)).
  { apply filter_In. split; [exact Hr|]. now apply in_partition_iff. }
  assert (Hne : filter (in_partition k) T <> [])
    by (intro E; rewrite E in HrP; destruct HrP).
  destruct (partition_trace T T1 k G Hne)
    as [first [rest [Hfirst [Hrest Hcl]]]].
  destruct (first_row_inv k first Hfirst) as [Hf0 [Hr0 _]].
  pose proof (cluster_rows_inv separation radius (in_partition k) rest
                (in_partition_set_field k) Hrest _ _ Hf0) as [_ [Hb _]].
  pose proof (cluster_rows_refs separation radius (in_partition k) rest
                (in_partition_set_field k) Hrest 1%Z _ Hr0) as Hrefs.
  rewrite <- Hcl in Hb, Hrefs.
  assert (Hr1 : In (no_epoch r) (map no_epoch (filter (in_partition k) T)))
    by now apply in_map.
  split; [|split].
  - destruct (Hb _ Hr1) as [H _]. cbn in H. lia.
  - assert (Hm : In r (members T k (fieldID r))).
    { apply filter_In. split; [exact Hr|]. unfold mask_field_of.
      rewrite Z.eqb_refl. apply filter_In in HrP. apply HrP. }
    assert (Hne' : members T k (fieldID r) <> [])
      by (intro E; rewrite E in Hm; destruct Hm).
    destruct (members_trace T T1 k (fieldID r) G Hne')
      as [first' [rest' [_ Hsw]]].
    rewrite Hsw in Hm.
    apply (sweep_rows_positive deltaT (first' :: rest') (JD first') 1 []);
      [lia|intros ? []|exact Hm].
  - destruct (Hrefs _ Hr1) as [_ [r1 [Hin1 [Hra Hdec]]]].
    apply in_map_iff in Hin1. destruct Hin1 as [r' [<- Hr']].
    apply filter_In in Hr'. destruct Hr' as [Hr' Hk].
    exists r'. split; [exact Hr'|].
    split; [now apply in_partition_iff|]. now split.
Qed.

(** X3.  Every row of the table [table_obs] returns has a field and an
    epoch, numbered from 1, and a reference position, which is the
    position of an image of its partition. *)
Theorem table_obs_assigns_every_row imgs T r :
  table_obs separation imgs radius deltaT = Ok T -> In r T ->
  (1 <= fieldID r)%Z /\ (1 <= epochID r)%Z /\
  exists r', In r' T /\ part_of r' = part_of r /\
             RA_ref r = Some (RA r') /\ Dec_ref r = Some (Dec r').
Proof.
  intros Hobs Hr.
  destruct (table_obs_grouped _ _ _ _ _ Hobs) as [T1 G].
  exact (grouped_row_assigned T T1 r G Hr).
Qed.

(** X4.  The fields of a partition are numbered 1, 2, ..., n without a
    gap. *)
Theorem fields_numbered_without_gap imgs T k :
  table_obs separation imgs radius deltaT = Ok T ->
  filter (in_partition k) T <> [] ->
  exists n, (1 <= n)%Z /\
    forall f, In f (map fieldID (filter (in_partition k) T))
              <-> (1 <= f <= n)%Z.
Proof.
  intros Hobs Hne.
  destruct (table_obs_grouped _ _ _ _ _ Hobs) as [T1 G].
  destruct (partition_trace T T1 k G Hne)
    as [first [rest [Hfirst [Hrest Hcl]]]].
  destruct (first_row_inv k first Hfirst) as [Hf0 [_ Hc0]].
  pose proof (cluster_rows_inv separation radius (in_partition k) rest
                (in_partition_set_field k) Hrest _ _ Hf0) as [Hn [Hb _]].
  pose proof (cluster_rows_cover separation radius (in_partition k) rest
                _ _ Hc0) as Hcov.
  rewrite <- Hcl in Hb, Hcov.
  unfold cover_inv in Hcov. rewrite map_map in Hcov.
  eexists. split; [exact Hn|]. intro f. split; [|apply Hcov].
  intro Hin. apply in_map_iff in Hin. destruct Hin as [r [<- Hr]].
  apply (Hb (no_epoch r)). now apply in_map.
Qed.

(** X5.  When every image of a partition but the earliest lies within
    [radius], and within 100 degrees, of the earliest one, the partition
    is one field, whose reference is the position of that image. *)
Theorem radius_holding_partition_gives_one_field imgs T k fst tl :
  table_obs separation imgs radius deltaT = Ok T ->
  filter (in_partition k) T = fst :: tl ->
  (forall r, In r tl ->
     sep_of separation r fst < radius /\ sep_of separation r fst < 100) ->
  forall r, In r (filter (in_partition k) T) ->
    fieldID r = 1%Z /\
    RA_ref r = Some (RA fst) /\ Dec_ref r = Some (Dec fst).
Proof.
  intros Hobs HP Hnear.
  destruct (table_obs_grouped _ _ _ _ _ Hobs) as [T1 G].
  assert (Hne : filter (in_partition k) T <> [])
    by (rewrite HP; discriminate).
  destruct (partition_trace T T1 k G Hne)
    as [first [rest [Hfirst [Hrest Hcl]]]].
  pose proof (cluster_rows_static separation radius (in_partition k) rest 1%Z
                [set_field 1 (Some (RA first)) (Some (Dec first)) first])
    as Hst.
  rewrite <- Hcl, HP in Hst. cbn [map app] in Hst.
  apply cons_eq_inv in Hst. destruct Hst as [Hst0 Hst].
  destruct (static_position _ _ Hst0) as [Hra Hdec].
  cbn [RA Dec no_epoch set_epoch set_field] in Hra, Hdec.
  symmetry in Hra, Hdec.
  assert (Hinv : one_field_inv (in_partition k) first 1
                   [set_field 1 (Some (RA first)) (Some (Dec first)) first]).
  { split; [reflexivity|]. split; [now exists []|].
    intros r0 [<-|[]]. rewrite in_partition_set_field. cbn. now repeat split. }
  assert (Hrest' : forall d, In d rest ->
            in_partition k d = true /\
            separation (RA d, Dec d) (RA first, Dec first) < radius /\
            separation (RA d, Dec d) (RA first, Dec first) < 100).
  { intros d Hd. split; [now apply Hrest|].
    destruct (in_static_table (map no_epoch tl) rest d (eq_sym Hst) Hd)
      as [d0 [Hd0 Hs]].
    apply in_map_iff in Hd0. destruct Hd0 as [r0 [<- Hr0]].
    destruct (static_position _ _ Hs) as [Hra' Hdec'].
    cbn [RA Dec no_epoch set_epoch] in Hra', Hdec'.
    rewrite <- Hra', <- Hdec', Hra, Hdec. now apply Hnear. }
  pose proof (cluster_rows_one separation radius (in_partition k) first rest
                (in_partition_set_field k) Hrest' _ _ Hinv) as [_ [_ Hall]].
  rewrite <- Hcl, Hra, Hdec in Hall.
  intros r Hr.
  destruct (Hall (no_epoch r)) as [_ H]; [now apply in_map|exact H].
Qed.

(** X6.  With a [deltaT] so far below 0 that the binary64 sum [JD +
    deltaT] is below [JD] for the times of the images of a field, every
    image of the field is an epoch of its own, and the epochs are numbered
    from 2: the test of line 233 fails for the first image too. *)
Theorem negative_deltaT_numbers_epochs_from_two imgs T k f :
  table_obs separation imgs radius deltaT = Ok T ->
  (forall m, In m (members T k f) -> add64 (JD m) deltaT < JD m) ->
  map epochID (members T k f)
  = map Z.of_nat (seq 2 (List.length (members T k f))).
Proof.
  intros Hobs Hneg.
  destruct (table_obs_grouped _ _ _ _ _ Hobs) as [T1 G].
  destruct (members T k f) as [|m ms] eqn:E; [reflexivity|].
  assert (Hne : members T k f <> []) by (rewrite E; discriminate).
  rewrite <- E in Hneg.
  destruct (members_trace T T1 k f G Hne) as [first [rest [Hs Hsw]]].
  assert (Hlow : forall d, In d (first :: rest) ->
                           add64 (JD d) deltaT < JD d).
  { intros d Hd. destruct (swept_rows_times T k f first rest Hsw d Hd)
      as [m0 [Hm0 <-]]. now apply Hneg. }
  rewrite <- E, Hsw.
  apply (sweep_rows_fresh deltaT (first :: rest) Hlow (JD first) 1 []).
  - apply Hlow. now left.
  - exact Hs.
  - intros d [<-|Hd]; [apply Qle_refl|].
    cbn [map] in Hs. apply StronglySorted_inv in Hs. destruct Hs as [_ Hd'].
    rewrite Forall_forall in Hd'. apply Hd'. now apply in_map.
  - split; [reflexivity|]. split; [reflexivity|intros ? []].
Qed.

(** X7.  With [deltaT] equal to 0, two images of a field are in the same
    epoch exactly when they were taken at the same time. *)
Theorem zero_deltaT_groups_equal_times imgs T k f m1 m2 :
  deltaT == 0 ->
  table_obs separation imgs radius deltaT = Ok T ->
  In m1 (members T k f) -> In m2 (members T k f) ->
  (epochID m1 = epochID m2 <-> JD m1 == JD m2).
Proof.
  intros Hzero Hobs H1 H2.
  destruct (table_obs_grouped _ _ _ _ _ Hobs) as [T1 G].
  assert (Hne : members T k f <> [])
    by (intro E; rewrite E in H1; destruct H1).
  destruct (members_trace T T1 k f G Hne) as [first [rest [Hs Hsw]]].
  assert (HdT : 0 <= deltaT) by (rewrite Hzero; apply Qle_refl).
  assert (Hsame : forall r, In r (members T k f) ->
                            add64 (JD r) deltaT == JD r).
  { intros r Hr. unfold add64.
    assert (Hfl : binary64 (JD r)).
    { apply (grouped_float T T1 r G). now apply filter_In in Hr. }
    apply Qeq_trans with (round64 (JD r)); [|exact Hfl].
    apply round64_comp. rewrite Hzero. ring. }
  assert (Hg : forall r, In r (first :: rest) ->
                         JD r <= add64 (JD r) deltaT).
  { intros r Hr. destruct (swept_rows_times T k f first rest Hsw r Hr)
      as [m0 [Hm0 <-]]. rewrite (Hsame m0 Hm0). apply Qle_refl. }
  destruct (sweep_field deltaT first rest Hg Hs)
    as [jr [n [_ [_ [E3 E4]]]]].
  rewrite <- Hsw in E3, E4.
  destruct (E3 _ H1) as [r1 [Hr1 [Ha1 Hb1]]].
  destruct (E3 _ H2) as [r2 [Hr2 [Ha2 Hb2]]].
  rewrite (Hsame r1) in Hb1
    by (destruct (first_by_In _ _ _ _ Hr1) as [Hin _]; exact Hin).
  rewrite (Hsame r2) in Hb2
    by (destruct (first_by_In _ _ _ _ Hr2) as [Hin _]; exact Hin).
  split.
  - intro Heq. rewrite Heq in Hr1. rewrite Hr1 in Hr2.
    injection Hr2 as <-. lra.
  - intro Heq.
    destruct (Z.lt_trichotomy (epochID m1) (epochID m2)) as [Hlt|[He|Hgt]];
      [|exact He|].
    + pose proof (E4 _ _ _ _ Hr1 Hr2 Hlt). lra.
    + pose proof (E4 _ _ _ _ Hr2 Hr1 Hgt). lra.
Qed.

End Pipeline.

(** ** The lists [makelists] writes *)



Lemma no_stack_filter (p : row -> bool) (t : table) :
  (forall r, p (no_stack r) = p r) ->
  forall t', map no_stack t = map no_stack t' ->
    map no_stack (filter p t) = map no_stack (filter p t').
Proof.
  intro Hp. induction t as [|r t IH]; intros [|r' t'] H; try discriminate;
    [reflexivity|].
  cbn [map] in H. apply cons_eq_inv in H. destruct H as [Hr Ht].
  cbn [filter]. rewrite <- (Hp r), <- (Hp r'), Hr.
  destruct (p (no_stack r')); cbn [map]; [rewrite Hr; f_equal|]; now apply IH.
Qed.

Lemma mask_group_no_stack (mask : row -> bool) key r :
  (forall r, mask (no_stack r) = mask r) ->
  mask_group mask key (no_stack r) = mask_group mask key r.
Proof. intro Hm. unfold mask_group. now rewrite Hm. Qed.

Lemma in_partition_no_stack k r : in_partition k (no_stack r) = in_partition k r.
Proof. now destruct k as [[tel inst] filt]. Qed.


Lemma field_epoch_key_rows (mask : row -> bool) (t : table) key :
  In key (field_epoch_keys (filter mask t)) ->
  filter (mask_group mask key) t <> [].
Proof.
  intro H. apply group_keys_In in H. apply in_map_iff in H.
  destruct H as [r [<- Hr]]. apply filter_In in Hr. destruct Hr as [Hr Hm].
  assert (Hin : In r (filter (mask_group mask (fieldID r, epochID r)) t)).
  { apply filter_In. split; [exact Hr|]. unfold mask_group. cbn [fst snd].
    now rewrite !Z.eqb_refl, Hm. }
  intro E. rewrite E in Hin. destruct Hin.
Qed.

Lemma fold_assign_stack_no_stack name (rows : table) :
  forall t,
    map no_stack
        (fold_left (fun t data =>
                      assign_where (mask_idx data)
                                   (set_stack_filename name) t) rows t)
    = map no_stack t.
Proof.
  induction rows as [|d rows IH]; intro t; cbn [fold_left]; [reflexivity|].
  rewrite IH. unfold assign_where. rewrite map_map. apply map_ext.
  intro r. now destruct (mask_idx d r).
Qed.

Section Lists.

Variable str_round3 : Q -> string.

(** One list: with a group that has rows and references that are set,
    neither [x[mask_field][0]] nor [np.round] raises; the list holds the
    file names of the group, and the table changes in the column
    [stack_filename] only. *)
Lemma write_list_step (mask : row -> bool) (T : table) lists fields key :
  (forall r, mask (no_stack r) = mask r) ->
  (forall r, In r T -> RA_ref r <> None /\ Dec_ref r <> None) ->
  filter (mask_group mask key) T <> [] ->
  map no_stack fields = map no_stack T ->
  exists st',
    write_list str_round3 mask (lists, fields) key = Ok st' /\
    map snd (fst st')
    = map snd lists ++ [map filename (filter (mask_group mask key) T)] /\
    map no_stack (snd st') = map no_stack T.
Proof.
  intros Hmask Hrefs Hne Hfields.
  pose proof (no_stack_filter (mask_group mask key) fields
                (fun r => mask_group_no_stack mask key r Hmask) T Hfields)
    as Hrows.
  destruct key as [f e]. unfold write_list.
  change (fun r : row =>
            ((fieldID r =? f)%Z && (epochID r =? e)%Z && mask r)%bool)
    with (mask_group mask (f, e)).
  remember (filter (mask_group mask (f, e)) fields) as rows eqn:Erows.
  destruct (filter (mask_group mask (f, e)) T) as [|r0 rest0] eqn:ET;
    [contradiction|].
  destruct rows as [|first rest]; [discriminate|].
  cbn [map] in Hrows. pose proof Hrows as Hall.
  apply cons_eq_inv in Hrows. destruct Hrows as [Hfirst _].
  assert (Hr0 : In r0 T).
  { assert (H : In r0 (r0 :: rest0)) by now left.
    rewrite <- ET in H. now apply filter_In in H. }
  destruct (Hrefs r0 Hr0) as [Hra Hdec].
  assert (Era : RA_ref first = RA_ref r0)
    by exact (f_equal RA_ref Hfirst).
  assert (Edec : Dec_ref first = Dec_ref r0)
    by exact (f_equal Dec_ref Hfirst).
  rewrite Era, Edec.
  destruct (RA_ref r0) as [ra|]; [|contradiction].
  destruct (Dec_ref r0) as [dec|]; [|contradiction].
  eexists. split; [reflexivity|]. cbn [fst snd]. split.
  - rewrite map_app. cbn [map snd]. do 2 f_equal.
    apply (map_through _ _ _ no_stack filename filename (first :: rest)
             (r0 :: rest0)); [reflexivity|exact Hall].
  - now rewrite fold_assign_stack_no_stack.
Qed.

Lemma fold_write_list (mask : row -> bool) (T : table) (keys : list (Z * Z)) :
  (forall r, mask (no_stack r) = mask r) ->
  (forall r, In r T -> RA_ref r <> None /\ Dec_ref r <> None) ->
  (forall key, In key keys -> filter (mask_group mask key) T <> []) ->
  forall lists fields,
    map no_stack fields = map no_stack T ->
    exists st',
      fold_result (write_list str_round3 mask) keys (lists, fields) = Ok st' /\
      map snd (fst st')
      = map snd lists
        ++ map (fun key => map filename (filter (mask_group mask key) T)) keys /\
      map no_stack (snd st') = map no_stack T.
Proof.
  intros Hmask Hrefs. induction keys as [|key keys IH];
    intros Hkeys lists fields Hfields.
  - eexists. split; [reflexivity|]. cbn [fst snd map].
    now rewrite app_nil_r.
  - destruct (write_list_step mask T lists fields key Hmask Hrefs
                (Hkeys key (or_introl eq_refl)) Hfields)
      as [[lists1 fields1] [H1 [Hl1 Hf1]]].
    destruct (IH (fun k Hk => Hkeys k (or_intror Hk)) lists1 fields1 Hf1)
      as [st' [H2 [Hl2 Hf2]]].
    exists st'. cbn [fold_result]. rewrite H1. cbn [bind].
    split; [exact H2|]. split; [|exact Hf2].
    cbn [fst] in Hl1. rewrite Hl2, Hl1, <- app_assoc. reflexivity.
Qed.

Lemma lists_of_partition_step (T : table) k lists fields :
  (forall r, In r T -> RA_ref r <> None /\ Dec_ref r <> None) ->
  map no_stack fields = map no_stack T ->
  exists st',
    lists_of_partition str_round3 (lists, fields) k = Ok st' /\
    map snd (fst st') = map snd lists ++ lists_of T k /\
    map no_stack (snd st') = map no_stack T.
Proof.
  intros Hrefs Hfields. unfold lists_of_partition. cbn [snd].
  assert (Hkeys : field_epoch_keys (filter (in_partition k) fields)
                  = field_epoch_keys (filter (in_partition k) T)).
  { unfold field_epoch_keys. f_equal.
    apply (map_through _ _ _ no_stack
             (fun r => (fieldID r, epochID r))
             (fun r => (fieldID r, epochID r))); [reflexivity|].
    apply no_stack_filter; [apply in_partition_no_stack|exact Hfields]. }
  rewrite Hkeys.
  apply (fold_write_list (in_partition k) T
           (field_epoch_keys (filter (in_partition k) T))
           (in_partition_no_stack k) Hrefs);
    [|exact Hfields].
  intros key Hk. now apply field_epoch_key_rows.
Qed.

Lemma fold_lists_of_partition (T : table) (ks : list partkey) :
  (forall r, In r T -> RA_ref r <> None /\ Dec_ref r <> None) ->
  forall lists fields,
    map no_stack fields = map no_stack T ->
    exists st',
      fold_result (lists_of_partition str_round3) ks (lists, fields) = Ok st' /\
      map snd (fst st') = map snd lists ++ flat_map (lists_of T) ks /\
      map no_stack (snd st') = map no_stack T.
Proof.
  intros Hrefs. induction ks as [|k ks IH]; intros lists fields Hfields.
  - eexists. split; [reflexivity|]. cbn [fst snd flat_map].
    now rewrite app_nil_r.
  - destruct (lists_of_partition_step T k lists fields Hrefs Hfields)
      as [[lists1 fields1] [H1 [Hl1 Hf1]]].
    destruct (IH lists1 fields1 Hf1) as [st' [H2 [Hl2 Hf2]]].
    exists st'. cbn [fold_result]. rewrite H1. cbn [bind].
    split; [exact H2|]. split; [|exact Hf2].
    cbn [fst] in Hl1. cbn [flat_map]. rewrite Hl2, Hl1, <- app_assoc.
    reflexivity.
Qed.



End Lists.




Section MakeLists.

Variable separation : Q * Q -> Q * Q -> Q.
Variable str_round3 : Q -> string.
Variables radius deltaT : Q.

(** [makelists] on the table [table_obs] returns for the radius in
    degrees. *)
Lemma makelists_trace imgs T :
  table_obs separation imgs (radius / 60) deltaT = Ok T ->
  exists m,
    makelists separation str_round3 imgs radius deltaT = Ok m /\
    map snd m = flat_map (lists_of T) (partition_keys T).
Proof.
  intro Hobs. unfold makelists. rewrite Hobs. cbn [bind].
  destruct (table_obs_grouped _ _ _ _ _ Hobs) as [T1 G].
  assert (Hrefs : forall r, In r T -> RA_ref r <> None /\ Dec_ref r <> None).
  { intros r Hr.
    destruct (grouped_row_assigned _ _ _ T T1 r G Hr)
      as [_ [_ [r' [_ [_ [-> ->]]]]]].
    split; discriminate. }
  destruct (fold_lists_of_partition str_round3 T (partition_keys T) Hrefs
              [] T eq_refl) as [st' [H [Hl _]]].
  exists (fst st'). split; [|exact Hl].
  exact (f_equal (fun r => bind r (fun st => Ok (fst st))) H).
Qed.

(** X8.  Whenever [table_obs] returns a table, the lookups of [makelists]
    succeed for every list: no group is empty and no reference is
    missing, so neither [x[mask_field][0]] nor [np.round] raises, and
    the lists written are those of the groups of the table. *)
Theorem makelists_lookups_succeed imgs T :
  table_obs separation imgs (radius / 60) deltaT = Ok T ->
  exists m,
    makelists separation str_round3 imgs radius deltaT = Ok m /\
    map snd m = flat_map (lists_of T) (partition_keys T).
Proof. exact (makelists_trace imgs T). Qed.


(** X10.  Each list holds the images of one group (partition, field, epoch)
    of the table, in time order, and holds one image at least. *)
Theorem makelists_lists_are_groups imgs T m files :
  table_obs separation imgs (radius / 60) deltaT = Ok T ->
  makelists separation str_round3 imgs radius deltaT = Ok m ->
  In files (map snd m) ->
  exists k key,
    files = map filename (filter (mask_group (in_partition k) key) T) /\
    files <> [] /\
    StronglySorted Qle (map JD (filter (mask_group (in_partition k) key) T)).
Proof.
  intros Hobs Hm Hin.
  destruct (makelists_trace imgs T Hobs) as [m' [Hm' Hl]].
  rewrite Hm in Hm'. injection Hm' as <-. rewrite Hl in Hin.
  apply in_flat_map in Hin. destruct Hin as [k [_ Hin]].
  unfold lists_of in Hin. apply in_map_iff in Hin.
  destruct Hin as [key [<- Hkey]].
  exists k, key. split; [reflexivity|]. split.
  - pose proof (field_epoch_key_rows (in_partition k) T key Hkey) as Hne.
    intro E. apply map_eq_nil in E. contradiction.
  - apply sorted_filter.
    destruct (table_obs_grouped _ _ _ _ _ Hobs) as [T1 G].
    pose proof (grouped_sorted _ _ _ _ _ G) as Hs.
    rewrite (grouped_no_epoch _ _ _ _ _ G), map_map in Hs. exact Hs.
Qed.

End MakeLists.

(** ** The properties on the images of the scenarios *)

Lemma table_obs_keeps_images_witness :
  Permutation (map row_cols Scenario.table_three)
              (map image_cols Scenario.three_images) /\
  Permutation (map idx Scenario.table_three) (seq 0 3) /\
  List.length Scenario.table_three = 3%nat.
Proof.
  apply (table_obs_keeps_images separation_equator 1 1
           Scenario.three_images Scenario.table_three).
  vm_compute. reflexivity.
Defined.

Lemma table_obs_in_time_order_witness :
  StronglySorted Qle (map JD Scenario.table_three) /\
  NoDup (map idx Scenario.table_three).
Proof.
  apply (table_obs_in_time_order separation_equator 1 1
           Scenario.three_images Scenario.table_three).
  vm_compute. reflexivity.
Defined.

Lemma table_obs_assigns_every_row_witness :
  (1 <= fieldID Scenario.row_c)%Z /\ (1 <= epochID Scenario.row_c)%Z /\
  exists r', In r' Scenario.table_three /\
             part_of r' = part_of Scenario.row_c /\
             RA_ref Scenario.row_c = Some (RA r') /\
             Dec_ref Scenario.row_c = Some (Dec r').
Proof.
  apply (table_obs_assigns_every_row separation_equator 1 1
           Scenario.three_images Scenario.table_three Scenario.row_c).
  - vm_compute. reflexivity.
  - right. right. left. reflexivity.
Defined.

Lemma fields_numbered_without_gap_witness :
  exists n, (1 <= n)%Z /\
    forall f,
      In f (map fieldID
                (filter (in_partition ("T", "I", "F")%string)
                        Scenario.table_three))
      <-> (1 <= f <= n)%Z.
Proof.
  apply (fields_numbered_without_gap separation_equator 1 1
           Scenario.three_images Scenario.table_three
           ("T", "I", "F")%string).
  - vm_compute. reflexivity.
  - vm_compute. discriminate.
Defined.

Lemma radius_holding_partition_gives_one_field_witness :
  fieldID Runs.wide_b = 1%Z /\
  RA_ref Runs.wide_b = Some (RA Runs.wide_a) /\
  Dec_ref Runs.wide_b = Some (Dec Runs.wide_a).
Proof.
  apply (radius_holding_partition_gives_one_field separation_equator 60 1
           Scenario.three_images Runs.table_wide ("T", "I", "F")%string
           Runs.wide_a (List.tl Runs.table_wide)).
  - vm_compute. reflexivity.
  - vm_compute. reflexivity.
  - intros r [<-|[<-|[]]]; split; vm_compute; reflexivity.
  - right. left. reflexivity.
Defined.

Lemma negative_deltaT_numbers_epochs_from_two_witness :
  map epochID (members Runs.table_negative ("T", "I", "F")%string 1)
  = map Z.of_nat
        (seq 2 (List.length
                  (members Runs.table_negative ("T", "I", "F")%string 1))).
Proof.
  apply (negative_deltaT_numbers_epochs_from_two separation_equator 1 (-1)
           Scenario.three_images Runs.table_negative
           ("T", "I", "F")%string 1%Z).
  - vm_compute. reflexivity.
  - intros m [<-|[<-|[]]]; vm_compute; reflexivity.
Defined.

Lemma zero_deltaT_groups_equal_times_witness :
  epochID Runs.instant_a = epochID Runs.instant_b
  <-> JD Runs.instant_a == JD Runs.instant_b.
Proof.
  apply (zero_deltaT_groups_equal_times separation_equator 1 0
           Scenario.same_position Runs.table_instant
           ("T", "I", "F")%string 1%Z).
  - reflexivity.
  - vm_compute. reflexivity.
  - left. reflexivity.
  - right. left. reflexivity.
Defined.

Lemma makelists_lookups_succeed_witness :
  exists m,
    makelists separation_equator Runs.no_text Scenario.three_images 60 1
    = Ok m /\
    map snd m
    = flat_map (lists_of Scenario.table_three)
               (partition_keys Scenario.table_three).
Proof.
  apply (makelists_lookups_succeed separation_equator Runs.no_text 60 1
           Scenario.three_images Scenario.table_three).
  vm_compute. reflexivity.
Defined.


Lemma makelists_lists_are_groups_witness :
  exists k key,
    ["a.fits"; "c.fits"]%string
    = map filename
          (filter (mask_group (in_partition k) key) Scenario.table_three) /\
    ["a.fits"; "c.fits"]%string <> [] /\
    StronglySorted Qle
      (map JD (filter (mask_group (in_partition k) key)
                      Scenario.table_three)).
Proof.
  apply (makelists_lists_are_groups separation_equator Runs.no_text 60 1
           Scenario.three_images Scenario.table_three Runs.manifest_three).
  - vm_compute. reflexivity.
  - vm_compute. reflexivity.
  - left. reflexivity.
Defined.

End TableFacts.

(** * More on the sky-grid resolver *)

Module ResolverFacts.

Import PS1 PS1Notions ResolverViews PS1Facts.

(** ** Lists *)

Lemma flat_map_pairs (A B C : Type) (g : A -> B -> list C) (xs : list B)
  (ys : list A) :
  flat_map (fun y => flat_map (g y) xs) ys
  = flat_map (fun p => g (fst p) (snd p))
             (flat_map (fun y => map (fun x => (y, x)) xs) ys).
Proof.
  induction ys as [|y ys IH]; cbn [flat_map]; [reflexivity|].
  rewrite flat_map_app, IH. f_equal. clear IH.
  induction xs as [|x xs IHx]; cbn [flat_map map fst snd]; [reflexivity|].
  now rewrite IHx.
Qed.

Lemma flat_map_filter (A B : Type) (p : A -> bool) (f : A -> B)
  (l : list A) :
  flat_map (fun a => if p a then [f a] else []) l = map f (filter p l).
Proof.
  induction l as [|a l IH]; cbn [flat_map filter]; [reflexivity|].
  destruct (p a); cbn [app map]; now rewrite IH.
Qed.

(** Distinct images under [f] come from distinct elements. *)
Lemma distinct_images (A B : Type) (f : A -> B) (l : list A) (a b : A) :
  NoDup (map f l) -> In a l -> In b l -> f a = f b -> a = b.
Proof.
  induction l as [|x l IH]; intros Hnd Ha Hb Hf; [destruct Ha|].
  cbn [map] in Hnd. apply NoDup_cons_iff in Hnd. destruct Hnd as [Hx Hnd].
  destruct Ha as [->|Ha], Hb as [->|Hb]; auto.
  - exfalso. apply Hx. rewrite Hf. now apply in_map.
  - exfalso. apply Hx. rewrite <- Hf. now apply in_map.
Qed.

Lemma distinct_images_kept (A B : Type) (f : A -> B) (p : A -> bool)
  (l : list A) :
  NoDup (map f l) -> NoDup (map f (filter p l)).
Proof.
  intro Hnd. induction l as [|x l IH]; [constructor|].
  cbn [map] in Hnd. apply NoDup_cons_iff in Hnd.
  cbn [filter]. destruct (p x); [|now apply IH].
  cbn [map]. apply NoDup_cons_iff. split; [|now apply IH].
  intro Hin. apply in_map_iff in Hin. destruct Hin as [b [Hb Hin]].
  apply filter_In in Hin. destruct Hnd as [Hx _]. apply Hx.
  rewrite <- Hb. apply in_map. apply Hin.
Qed.

Lemma subcell_pairs_names :
  map (fun p => cell_str (fst p) (snd p)) subcell_pairs = subcell_names.
Proof. vm_compute. reflexivity. Qed.

Lemma subcell_pairs_In (y x : Z) :
  (0 <= y < 10)%Z -> (0 <= x < 10)%Z -> In (y, x) subcell_pairs.
Proof.
  intros Hy Hx. unfold subcell_pairs, range. apply in_flat_map.
  exists y. split.
  - apply in_map_iff. exists (Z.to_nat y). split; [lia|].
    apply in_seq. lia.
  - apply in_map_iff. exists x. split; [reflexivity|].
    apply in_map_iff. exists (Z.to_nat x). split; [lia|].
    apply in_seq. lia.
Qed.

(** ** The smallest and the largest of four values *)

Lemma Qmin_le (x y : Q) : Qmin x y <= x /\ Qmin x y <= y.
Proof.
  unfold Qmin. destruct (Qle_bool x y) eqn:E.
  - apply Qle_bool_iff in E. split; [apply Qle_refl|exact E].
  - assert (~ x <= y) by (intro H; apply Qle_bool_iff in H; congruence).
    split; [lra|apply Qle_refl].
Qed.

Lemma Qmax_le (x y : Q) : x <= Qmax x y /\ y <= Qmax x y.
Proof.
  unfold Qmax. destruct (Qle_bool x y) eqn:E.
  - apply Qle_bool_iff in E. split; [exact E|apply Qle_refl].
  - assert (~ x <= y) by (intro H; apply Qle_bool_iff in H; congruence).
    split; [apply Qle_refl|lra].
Qed.

Lemma min4_le (a b c d : Q) :
  min4 a b c d <= a /\ min4 a b c d <= b /\
  min4 a b c d <= c /\ min4 a b c d <= d.
Proof.
  unfold min4.
  pose proof (Qmin_le a b) as [? ?].
  pose proof (Qmin_le (Qmin a b) c) as [? ?].
  pose proof (Qmin_le (Qmin (Qmin a b) c) d) as [? ?].
  repeat split; lra.
Qed.

Lemma max4_le (a b c d : Q) :
  a <= max4 a b c d /\ b <= max4 a b c d /\
  c <= max4 a b c d /\ d <= max4 a b c d.
Proof.
  unfold max4.
  pose proof (Qmax_le a b) as [? ?].
  pose proof (Qmax_le (Qmax a b) c) as [? ?].
  pose proof (Qmax_le (Qmax (Qmax a b) c) d) as [? ?].
  repeat split; lra.
Qed.


(** ** The text of a projection cell *)

Lemma read_projcell_str (n : Z) :
  (0 <= n)%Z -> read_int (projcell_str n) = Some n.
Proof.
  intro Hn. unfold read_int, projcell_str.
  destruct (str_int_nonneg n Hn) as [d [Hd E]].
  assert (H : forall k, read_int (zeros k ++ str_int n) = Some n).
  { intro k. unfold read_int. rewrite E, int_of_digits.
    - rewrite uint_of_zeros. simpl. rewrite of_uint_lead0.
      change (Z.of_uint d) with (Z.of_int (Pos d)).
      now rewrite <- Hd, DecimalZ.of_to.
    - now rewrite has_char_app, has_minus_zeros, has_minus_uint. }
  destruct (n <? 1000)%Z; [exact (H 1%nat)|exact (H 0%nat)].
Qed.

Lemma projcell_str_widths :
  forallb (fun i =>
             Nat.eqb (String.length (projcell_str (100 + Z.of_nat i))) 4)
          (seq 0 (Z.to_nat 9900)) = true.
Proof. vm_compute. reflexivity. Qed.

(** X11.  The text [ps1_cell_coord] makes of a projection cell stands for the
    number of the cell, so two cells never share a text; and it has the
    four characters of the names [skycell.nnnn.0yx] for the cells 100 to
    9999. *)
Theorem projcell_str_names_the_cell (n m : Z) :
  (0 <= n)%Z -> (0 <= m)%Z ->
  read_int (projcell_str n) = Some n /\
  (projcell_str n = projcell_str m -> n = m) /\
  ((100 <= n <= 9999)%Z -> String.length (projcell_str n) = 4%nat).
Proof.
  intros Hn Hm. split; [now apply read_projcell_str|]. split.
  - intro H. apply (f_equal read_int) in H.
    rewrite !read_projcell_str in H by assumption. now injection H.
  - intro Hr. pose proof projcell_str_widths as H.
    rewrite forallb_forall in H.
    specialize (H (Z.to_nat (n - 100))).
    replace (100 + Z.of_nat (Z.to_nat (n - 100)))%Z with n in H by lia.
    apply Nat.eqb_eq. apply H. apply in_seq. lia.
Qed.

Section Resolver.

Variable w : Q * Q -> Q * Q -> Q * Q -> Q * Q -> Q * Q.
Variable inter : list (Q * Q) -> list (Q * Q) -> bool.

(** ** The table of one projection cell *)

(** The rows of [ps1_cell_coord], as a selection among the hundred
    sub-cells. *)
Lemma ps1_cell_coord_ids_filter im n X Y ra dec c1 c2 :
  map cell_id (ps1_cell_coord w inter im n X Y ra dec c1 c2)
  = map (fun p => cell_str (fst p) (snd p))
        (filter (fun p => inter (corners im)
                            (get_RADEC_coord w c1 c2 X Y (snd p) (fst p)
                                             ra dec))
                subcell_pairs).
Proof.
  unfold ps1_cell_coord, subcell_pairs.
  rewrite flat_map_pairs, <- flat_map_filter.
  generalize (flat_map (fun y => map (fun x => (y, x)) (range 10))
                       (range 10)).
  intro l. induction l as [|[y x] l IH]; cbn [flat_map map];
    [reflexivity|].
  rewrite map_app, IH. f_equal. cbn [fst snd].
  unfold cell_rows, get_RADEC_coord.
  destruct (inter _ _); reflexivity.
Qed.

(** X12.  [ps1_cell_coord] lists the sub-cell (y, x) exactly when the polygon
    of its four corners intersects the image, and lists no sub-cell
    twice. *)
Theorem ps1_cell_coord_lists_intersecting_cells
  im n X Y ra dec c1 c2 (y x : Z) :
  (0 <= y < 10)%Z -> (0 <= x < 10)%Z ->
  (In (cell_str y x)
      (map cell_id (ps1_cell_coord w inter im n X Y ra dec c1 c2))
   <-> inter (corners im) (get_RADEC_coord w c1 c2 X Y x y ra dec) = true)
  /\ NoDup (map cell_id (ps1_cell_coord w inter im n X Y ra dec c1 c2)).
Proof.
  intros Hy Hx. rewrite ps1_cell_coord_ids_filter.
  assert (Hnd : NoDup (map (fun p => cell_str (fst p) (snd p))
                           subcell_pairs)).
  { rewrite subcell_pairs_names. apply subcell_names_hundred. }
  split; [|now apply distinct_images_kept].
  split.
  - intro Hin. apply in_map_iff in Hin. destruct Hin as [[y' x'] [Hn Hin]].
    apply filter_In in Hin. destruct Hin as [Hin Hp].
    assert (E : (y', x') = (y, x)).
    { apply (distinct_images _ _ (fun p => cell_str (fst p) (snd p))
               subcell_pairs); auto.
      now apply subcell_pairs_In. }
    injection E as -> ->. exact Hp.
  - intro Hp.
    apply (in_map (fun p => cell_str (fst p) (snd p)) _ (y, x)).
    apply filter_In. split; [now apply subcell_pairs_In|exact Hp].
Qed.

(** X13.  Every row of [ps1_cell_coord] gives, as [RA_min], [RA_max],
    [dec_min] and [dec_max], a box that holds the four corners of its
    sub-cell. *)
Theorem ps1_cell_coord_box_holds_corners im n X Y ra dec c1 c2 sc :
  In sc (ps1_cell_coord w inter im n X Y ra dec c1 c2) ->
  exists y x,
    (0 <= y < 10)%Z /\ (0 <= x < 10)%Z /\
    cell_id sc = cell_str y x /\
    RA_min sc <= RA_max sc /\ dec_min sc <= dec_max sc /\
    forall c, In c (get_RADEC_coord w c1 c2 X Y x y ra dec) ->
      RA_min sc <= fst c /\ fst c <= RA_max sc /\
      dec_min sc <= snd c /\ snd c <= dec_max sc.
Proof.
  unfold ps1_cell_coord, range. intro H.
  apply in_flat_map in H. destruct H as [y [Hy H]].
  apply in_flat_map in H. destruct H as [x [Hx H]].
  apply in_map_iff in Hy. destruct Hy as [ny [<- Hny]].
  apply in_map_iff in Hx. destruct Hx as [nx [<- Hnx]].
  apply in_seq in Hny. apply in_seq in Hnx.
  exists (Z.of_nat ny), (Z.of_nat nx).
  split; [lia|]. split; [lia|].
  unfold cell_rows in H. unfold get_RADEC_coord in *.
  destruct (inter _ _); [|destruct H].
  cbn [map] in *. destruct H as [<-|[]].
  cbn [cell_id RA_min RA_max dec_min dec_max].
  set (p1 := w _ _ _ (0, 0)). set (p2 := w _ _ _ (X, 0)).
  set (p3 := w _ _ _ (X, Y)). set (p4 := w _ _ _ (0, Y)).
  pose proof (min4_le (fst p1) (fst p2) (fst p3) (fst p4))
    as [? [? [? ?]]].
  pose proof (max4_le (fst p1) (fst p2) (fst p3) (fst p4))
    as [? [? [? ?]]].
  pose proof (min4_le (snd p1) (snd p2) (snd p3) (snd p4))
    as [? [? [? ?]]].
  pose proof (max4_le (snd p1) (snd p2) (snd p3) (snd p4))
    as [? [? [? ?]]].
  split; [reflexivity|]. split; [lra|]. split; [lra|].
  intros c [<-|[<-|[<-|[<-|[]]]]]; repeat split; assumption.
Qed.

(** ** The loop over the zones *)

Lemma cell_step_nonempty im rows acc c acc' :
  cell_step w inter im rows acc c = Ok acc' ->
  (forall t, In t acc -> t <> []) -> forall t, In t acc' -> t <> [].
Proof.
  unfold cell_step. intros H Hacc.
  repeat match type of H with
         | bind ?r _ = Ok _ => destruct r; simpl in H; [|discriminate]
         end.
  injection H as <-.
  match goal with |- context [List.length ?q] => set (query := q) end.
  destruct (0 <? List.length query)%nat eqn:E; [|exact Hacc].
  intros t Ht. apply in_app_or in Ht. destruct Ht as [Ht|[<-|[]]];
    [now apply Hacc|].
  apply Nat.ltb_lt in E. intro E0. rewrite E0 in E. cbn in E. lia.
Qed.

Lemma ps1_loop_nonempty cat im st :
  ps1_loop w inter cat im = Ok st ->
  forall t, In t (all_cells st) -> t <> [].
Proof.
  unfold ps1_loop. intro H.
  destruct (all_zones_id _ _ _) as [zones|]; simpl in H; [|discriminate].
  loop_invariant (fun s => forall t, In t (all_cells s) -> t <> []) H.
  - intros s z s' _ Hs Hstep.
    apply zone_step_inv in Hstep. destruct Hstep as [total [_ Hfold]].
    loop_invariant (fun acc : list (list skycell) =>
                      forall t, In t acc -> t <> []) Hfold.
    + intros acc c acc' _ Hacc Hc. exact (cell_step_nonempty _ _ _ _ _ Hc Hacc).
    + exact Hs.
  - intros t [].
Qed.

(** X14.  [ps1_grid] never returns an empty table: it returns one row at
    least, or raises. *)
Theorem ps1_grid_never_returns_empty cat im cells :
  ps1_grid w inter cat im = Ok cells -> cells <> [].
Proof.
  unfold ps1_grid. intro H.
  destruct (ps1_loop w inter cat im) as [st|] eqn:Hloop; simpl in H;
    [|discriminate].
  pose proof (ps1_loop_nonempty cat im st Hloop) as Hne.
  destruct (all_cells st) as [|t1 [|t2 rest]]; simpl in H.
  - discriminate.
  - injection H as <-. apply Hne. now left.
  - injection H as <-. intro E.
    apply (Hne t1 (or_introl eq_refl)).
    destruct t1; [reflexivity|discriminate].
Qed.

Lemma ps1_loop_eq cat im :
  ps1_loop w inter cat im
  = bind (all_zones_id cat (dec_min_of im) (dec_max_of im))
         (fun zones =>
            fold_result (zone_step w inter cat im (ra_min_of im)
                                   (ra_max_of im))
                        zones (mkState [] [] [])).
Proof. reflexivity. Qed.

Lemma arange_one (n : Z) : arange n (n + 1) = [n].
Proof.
  unfold arange. replace (n + 1 - n)%Z with 1%Z by lia.
  change (Z.to_nat 1) with 1%nat. cbn [seq map]. f_equal.
  change (Z.of_nat 0) with 0%Z. lia.
Qed.

(** X15.  When the declination extent of the image selects one zone, and the
    catalog has one row for it, the cells examined are those from the
    index of the smallest right ascension of the image to the index of
    the largest, the index being the one lines 140-141 compute in
    binary64. *)
Theorem single_zone_examines_its_range cat im z :
  filter (zone_mask (dec_min_of im) (dec_max_of im)) cat = [z] ->
  filter (fun z' => Z.eqb (ZONE z') (ZONE z)) cat = [z] ->
  projcell_idx_of z (ra_min_of im) <> (-1)%Z ->
  exists st,
    ps1_loop w inter cat im = Ok st /\
    examined st
    = [(ZONE z, arange (projcell_idx_of z (ra_min_of im))
                       (projcell_idx_of z (ra_max_of im) + 1))].
Proof.
  intros Hsel Hrow Hidx. rewrite ps1_loop_eq.
  unfold all_zones_id. rewrite Hsel. cbn [map first last bind].
  rewrite arange_one. cbn [fold_result].
  set (lo := projcell_idx_of z (ra_min_of im)) in *.
  set (hi := projcell_idx_of z (ra_max_of im)).
  assert (Hp : exists l,
             fold_result (projcell_step [z]) [ra_min_of im; ra_max_of im]
                         ([], (-1)%Z) = Ok (l, hi) /\
             first l = Ok lo /\ last l = Ok hi).
  { cbn [fold_result]. unfold projcell_step at 1.
    cbn [map float_col bind]. fold (projcell_idx_of z (ra_min_of im)).
    fold lo. apply Z.eqb_neq in Hidx. rewrite Hidx. cbn [negb app].
    unfold projcell_step. cbn [map float_col bind].
    fold (projcell_idx_of z (ra_max_of im)). fold hi.
    destruct (Z.eqb hi lo) eqn:E; cbn [negb app].
    - apply Z.eqb_eq in E. exists [lo]. rewrite E. now repeat split.
    - exists [lo; hi]. now repeat split. }
  destruct Hp as [l [Hl [Hlo Hhi]]].
  destruct (zone_step_single w inter cat im (ra_min_of im) (ra_max_of im)
              (mkState [] [] []) (ZONE z) z l hi lo hi Hrow Hl Hlo Hhi)
    as [cells Hz].
  rewrite Hz. cbn [bind]. eexists. split; reflexivity.
Qed.

(** X16.  When no zone of the catalog holds the smallest or the largest
    declination of the image strictly between its bounds, [ps1_grid]
    raises [IndexError] at [ps1grid[mask]['ZONE'][0]]: so it does for an
    empty catalog, for an image outside the catalog and for an image
    whose two ends are on bounds of zones. *)
Theorem no_zone_holding_an_end_raises_IndexError cat im :
  (forall z, In z cat ->
     ~ (DEC_MIN z < dec_min_of im /\ dec_min_of im < DEC_MAX z) /\
     ~ (DEC_MIN z < dec_max_of im /\ dec_max_of im < DEC_MAX z)) ->
  ps1_grid w inter cat im = Raise IndexError.
Proof.
  intro Hout. unfold ps1_grid. rewrite ps1_loop_eq. unfold all_zones_id.
  rewrite filter_none; [reflexivity|].
  intros z Hz. destruct (Hout z Hz) as [H1 H2]. unfold zone_mask.
  apply orb_false_iff. split; apply andb_false_iff.
  - destruct (Qltb (DEC_MIN z) (dec_min_of im)) eqn:E1; [|now left].
    right. destruct (Qltb (dec_min_of im) (DEC_MAX z)) eqn:E2; [|reflexivity].
    exfalso. apply H1. split; now apply Qltb_lt.
  - destruct (Qltb (DEC_MIN z) (dec_max_of im)) eqn:E1; [|now left].
    right. destruct (Qltb (dec_max_of im) (DEC_MAX z)) eqn:E2; [|reflexivity].
    exfalso. apply H2. split; now apply Qltb_lt.
Qed.

End Resolver.

(** ** The properties on the catalog of the scenarios *)

Lemma ps1_cell_coord_lists_intersecting_cells_witness :
  (In (cell_str 0 0)
      (map cell_id
           (ps1_cell_coord Scenario.flat_projection Scenario.all_overlap
              Scenario.im_one_zone 102 6000 6000 10 2 3000 3000))
   <-> Scenario.all_overlap
         (corners Scenario.im_one_zone)
         (get_RADEC_coord Scenario.flat_projection 3000 3000 6000 6000 0 0
                          10 2) = true)
  /\ NoDup (map cell_id
                (ps1_cell_coord Scenario.flat_projection Scenario.all_overlap
                   Scenario.im_one_zone 102 6000 6000 10 2 3000 3000)).
Proof.
  apply (ps1_cell_coord_lists_intersecting_cells
           Scenario.flat_projection Scenario.all_overlap
           Scenario.im_one_zone 102 6000 6000 10 2 3000 3000 0 0); lia.
Defined.

Lemma ps1_cell_coord_box_holds_corners_witness :
  exists y x,
    (0 <= y < 10)%Z /\ (0 <= x < 10)%Z /\
    cell_id Scenario.first_cell = cell_str y x /\
    RA_min Scenario.first_cell <= RA_max Scenario.first_cell /\
    dec_min Scenario.first_cell <= dec_max Scenario.first_cell /\
    forall c,
      In c (get_RADEC_coord Scenario.flat_projection 3000 3000 6000 6000
                            x y (720 # 72) 2) ->
      RA_min Scenario.first_cell <= fst c /\
      fst c <= RA_max Scenario.first_cell /\
      dec_min Scenario.first_cell <= snd c /\
      snd c <= dec_max Scenario.first_cell.
Proof.
  apply (ps1_cell_coord_box_holds_corners
           Scenario.flat_projection Scenario.all_overlap
           Scenario.im_one_zone 102 6000 6000 (720 # 72) 2 3000 3000
           Scenario.first_cell).
  vm_compute. left. reflexivity.
Defined.

Lemma projcell_str_names_the_cell_witness :
  read_int (projcell_str 102) = Some 102%Z /\
  (projcell_str 102 = projcell_str 174 -> 102%Z = 174%Z) /\
  ((100 <= 102 <= 9999)%Z -> String.length (projcell_str 102) = 4%nat).
Proof.
  apply (projcell_str_names_the_cell 102 174); lia.
Defined.

Lemma ps1_grid_never_returns_empty_witness :
  Scenario.cells_one_zone <> [].
Proof.
  apply (ps1_grid_never_returns_empty
           Scenario.flat_projection Scenario.all_overlap
           Scenario.grid Scenario.im_one_zone Scenario.cells_one_zone).
  vm_compute. reflexivity.
Defined.

Lemma single_zone_examines_its_range_witness :
  (exists st,
      ps1_loop Scenario.linear_projection Scenario.extents_meet
               Scenario.grid Scenario.im_tie = Ok st /\
      examined st
      = [(ZONE Scenario.zone0,
          arange (projcell_idx_of Scenario.zone0
                                  (ra_min_of Scenario.im_tie))
                 (projcell_idx_of Scenario.zone0
                                  (ra_max_of Scenario.im_tie) + 1))]) /\
  projcell_idx_of Scenario.zone0 (ra_min_of Scenario.im_tie) = 100%Z /\
  projcell_idx_of Scenario.zone0 (ra_max_of Scenario.im_tie) = 101%Z /\
  rint (PROJCELL Scenario.zone0
        + ra_min_of Scenario.im_tie * NBAND Scenario.zone0 / 360) = 101%Z.
Proof.
  split; [|repeat split; vm_compute; reflexivity].
  apply (single_zone_examines_its_range
           Scenario.linear_projection Scenario.extents_meet
           Scenario.grid Scenario.im_tie Scenario.zone0).
  - vm_compute. reflexivity.
  - vm_compute. reflexivity.
  - vm_compute. discriminate.
Defined.

Lemma no_zone_holding_an_end_raises_IndexError_witness :
  ps1_grid Scenario.flat_projection Scenario.all_overlap
           Scenario.grid Scenario.im_whole_zone = Raise IndexError.
Proof.
  apply (no_zone_holding_an_end_raises_IndexError
           Scenario.flat_projection Scenario.all_overlap
           Scenario.grid Scenario.im_whole_zone).
  intros z [<-|[<-|[<-|[]]]]; split; intros [H1 H2];
    vm_compute in H1, H2; discriminate.
Defined.

End ResolverFacts.

(** * The files of the sub-cells *)

(** ** Replacing in a string *)

Lemma eqb_other (a c : ascii) : Ascii.eqb a c = false -> Ascii.eqb c a = false.
Proof. intro H. now rewrite Ascii.eqb_sym. Qed.

Lemma string_app_nil_r (s : string) : (s ++ "")%string = s.
Proof. induction s as [|a s IH]; cbn [append]; [reflexivity|now rewrite IH]. Qed.

(** A stretch without the first character of [old] is left as it is. *)
Lemma replace_through (c0 : ascii) (old' new P rest : string) :
  has_char c0 P = false ->
  replace_from 0 (String c0 old') new (P ++ rest)
  = (P ++ replace_from 0 (String c0 old') new rest)%string.
Proof.
  induction P as [|a P IH]; intro H; [reflexivity|].
  cbn [has_char] in H. apply orb_false_iff in H. destruct H as [Ha HP].
  cbn [append replace_from starts_with]. rewrite (eqb_other _ _ Ha).
  cbn [andb]. now rewrite IH.
Qed.

Lemma replace_none (c0 : ascii) (old' new P : string) :
  has_char c0 P = false -> replace (String c0 old') new P = P.
Proof.
  intro H. unfold replace.
  rewrite <- (string_app_nil_r P) at 1.
  rewrite replace_through by exact H. cbn [replace_from].
  apply string_app_nil_r.
Qed.

Lemma join_cons (c : ascii) (s : string) (segs : list string) :
  segs <> [] ->
  join c (s :: segs) = (s ++ String c (join c segs))%string.
Proof. destruct segs; [contradiction|reflexivity]. Qed.

Lemma has_char_join (c d : ascii) (segs : list string) :
  Ascii.eqb d c = false ->
  (forall s, In s segs -> has_char c s = false) ->
  has_char c (join d segs) = false.
Proof.
  intros Hd. induction segs as [|s segs IH]; intro H; [reflexivity|].
  destruct segs as [|s2 segs]; [apply H; now left|].
  rewrite join_cons by discriminate.
  rewrite has_char_app, (H s (or_introl eq_refl)). cbn [has_char orb].
  rewrite Hd. cbn [orb]. apply IH. intros; apply H; now right.
Qed.

(** Dots to underscores. *)
Lemma replace_dots (segs : list string) :
  (forall s, In s segs -> has_char "." s = false) ->
  replace "." "_" (join "." segs) = join "_" segs.
Proof.
  induction segs as [|s segs IH]; intro H; [reflexivity|].
  destruct segs as [|s2 segs].
  - apply replace_none. apply H. now left.
  - rewrite (join_cons "." s (s2 :: segs)) by discriminate.
    rewrite (join_cons "_" s (s2 :: segs)) by discriminate.
    unfold replace.
    rewrite replace_through by (apply H; now left). f_equal.
    cbn [replace_from starts_with]. rewrite Ascii.eqb_refl.
    cbn [andb String.length Nat.sub append]. f_equal.
    apply IH. intros; apply H; now right.
Qed.

Lemma starts_with_fits (s rest : string) :
  has_char "_" s = false -> starts_with "fits" s = false ->
  starts_with "fits" (s ++ String "_" rest) = false.
Proof.
  intros _ Hf.
  destruct s as [|a [|b [|c [|d s]]]]; cbn [append starts_with] in *.
  - reflexivity.
  - destruct (Ascii.eqb "f" a); reflexivity.
  - destruct (Ascii.eqb "f" a), (Ascii.eqb "i" b); reflexivity.
  - destruct (Ascii.eqb "f" a), (Ascii.eqb "i" b), (Ascii.eqb "t" c);
      reflexivity.
  - exact Hf.
Qed.

(** The ending [_fits] to [.fits], when no piece begins with fits. *)
Lemma replace_fits (segs : list string) :
  segs <> [] ->
  (forall s, In s segs -> plain s) ->
  replace "_fits" ".fits" (join "_" segs ++ "_fits")
  = (join "_" segs ++ ".fits")%string.
Proof.
  unfold replace.
  induction segs as [|s segs IH]; intros Hne H; [contradiction|].
  destruct (H s (or_introl eq_refl)) as [_ [Hu _]].
  destruct segs as [|s2 segs].
  - cbn [join]. rewrite replace_through by exact Hu. reflexivity.
  - rewrite !join_cons by discriminate.
    rewrite !string_app_assoc.
    rewrite replace_through by exact Hu. f_equal.
    change ((String "_" (join "_" (s2 :: segs)) ++ "_fits")%string)
      with (String "_" (join "_" (s2 :: segs) ++ "_fits")%string).
    change ((String "_" (join "_" (s2 :: segs)) ++ ".fits")%string)
      with (String "_" (join "_" (s2 :: segs) ++ ".fits")%string).
    assert (Hs : starts_with "_fits"
                   (String "_" (join "_" (s2 :: segs) ++ "_fits")) = false).
    { cbn [starts_with]. rewrite Ascii.eqb_refl. cbn [andb].
      destruct (H s2 (or_intror (or_introl eq_refl))) as [_ [Hu2 Hf2]].
      destruct segs as [|s3 segs].
      - cbn [join]. now apply (starts_with_fits s2 "fits").
      - rewrite join_cons by discriminate.
        rewrite string_app_assoc.
        now apply (starts_with_fits s2). }
    cbn [replace_from]. rewrite Hs. f_equal.
    apply IH; [discriminate|]. intros; apply H; now right.
Qed.

Lemma split_head_through (c : ascii) (s rest : string) :
  has_char c s = false -> split_head c (s ++ String c rest) = s.
Proof.
  induction s as [|a s IH]; intro H; cbn [append split_head].
  - now rewrite Ascii.eqb_refl.
  - cbn [has_char] in H. apply orb_false_iff in H. destruct H as [Ha Hs].
    rewrite Ha. now rewrite IH.
Qed.

(** The text before the first [c] and the text after it. *)
Lemma split_at_first (c : ascii) (a1 a2 b1 b2 : string) :
  has_char c a1 = false -> has_char c a2 = false ->
  (a1 ++ String c b1 = a2 ++ String c b2)%string ->
  a1 = a2 /\ b1 = b2.
Proof.
  revert a2. induction a1 as [|x a1 IH]; intros [|y a2] H1 H2 E;
    cbn [append] in E.
  - injection E as ->. now split.
  - injection E as <- _. cbn [has_char] in H2.
    now rewrite Ascii.eqb_refl in H2.
  - injection E as -> _. cbn [has_char] in H1.
    now rewrite Ascii.eqb_refl in H1.
  - injection E as -> E. cbn [has_char] in H1, H2.
    apply orb_false_iff in H1. apply orb_false_iff in H2.
    destruct (IH a2 (proj2 H1) (proj2 H2) E) as [-> ->]. now split.
Qed.

Lemma append_same_head (s a b : string) :
  (s ++ a = s ++ b)%string -> a = b.
Proof.
  induction s as [|x s IH]; cbn [append]; intro H; [exact H|].
  injection H as H. now apply IH.
Qed.

Module FilesFacts.

Import PS1 PS1Files.

Lemma join_snoc (c : ascii) (segs : list string) (s : string) :
  segs <> [] ->
  join c (segs ++ [s]) = (join c segs ++ String c s)%string.
Proof.
  induction segs as [|a segs IH]; intro H; [contradiction|].
  destruct segs as [|b segs]; [reflexivity|].
  change ((a :: b :: segs) ++ [s])%list with (a :: ((b :: segs) ++ [s]))%list.
  rewrite join_cons by discriminate.
  rewrite IH by discriminate.
  rewrite (join_cons c a (b :: segs)) by discriminate.
  now rewrite string_app_assoc.
Qed.

Lemma plain_pieces (cell : skycell) (band : string) :
  plain (projcell_id cell) -> plain (cell_id cell) -> plain band ->
  forall s, In s (name_pieces cell band ++ ["mask"%string]) -> plain s.
Proof.
  intros HP HC HB s Hs. unfold name_pieces in Hs. cbn [app In] in Hs.
  repeat (destruct Hs as [<-|Hs]; [first [assumption|now repeat split]|]).
  destruct Hs.
Qed.

(** The name of the local file of a sub-cell, piece by piece. *)
Lemma local_cell_file_pieces (cell : skycell) (band : string) :
  plain (projcell_id cell) -> plain (cell_id cell) -> plain band ->
  local_cell_file cell band ""
  = (join "_" (name_pieces cell band) ++ ".fits")%string /\
  local_cell_file cell band ".mask"
  = (join "_" (name_pieces cell band ++ ["mask"%string]) ++ ".fits")%string.
Proof.
  intros HP HC HB.
  pose proof (plain_pieces cell band HP HC HB) as Hall.
  assert (Hstep : forall segs,
             segs <> [] -> (forall s, In s segs -> plain s) ->
             replace "_fits" ".fits"
                     (replace "." "_" (join "." (segs ++ ["fits"%string])))
             = (join "_" segs ++ ".fits")%string).
  { intros segs Hne Hs. rewrite replace_dots.
    - rewrite join_snoc by exact Hne. now apply replace_fits.
    - intros s Hin. apply in_app_or in Hin.
      destruct Hin as [Hin|[<-|[]]]; [apply (Hs s Hin)|reflexivity]. }
  split.
  - unfold local_cell_file.
    change (cell_file cell band "")
      with (join "." (name_pieces cell band ++ ["fits"%string])).
    apply Hstep; [discriminate|].
    intros s Hs. apply Hall. apply in_or_app. now left.
  - unfold local_cell_file.
    change (cell_file cell band ".mask")
      with (join "." ((name_pieces cell band ++ ["mask"%string])
                      ++ ["fits"%string])).
    apply Hstep; [discriminate|exact Hall].
Qed.

Lemma local_cell_file_closed (cell : skycell) (band : string) :
  plain (projcell_id cell) -> plain (cell_id cell) -> plain band ->
  local_cell_file cell band ""
  = ("rings_v3_skycell_" ++ projcell_id cell ++ "_" ++ cell_id cell
     ++ "_stk_" ++ band ++ "_unconv.fits")%string /\
  local_cell_file cell band ".mask"
  = ("rings_v3_skycell_" ++ projcell_id cell ++ "_" ++ cell_id cell
     ++ "_stk_" ++ band ++ "_unconv_mask.fits")%string.
Proof.
  intros HP HC HB.
  destruct (local_cell_file_pieces cell band HP HC HB) as [-> ->].
  unfold name_pieces.
  repeat first [rewrite string_app_assoc
               |progress cbn [List.app join append]].
  split; reflexivity.
Qed.

(** X17.  The local file of a sub-cell whose numbers and band are plain
    texts: the dots of the name on the server become underscores, but
    the one of the extension. *)
Theorem local_cell_file_text (cell : skycell) (band : string) :
  plain (projcell_id cell) -> plain (cell_id cell) -> plain band ->
  local_cell_file cell band ""
  = ("rings_v3_skycell_" ++ projcell_id cell ++ "_" ++ cell_id cell
     ++ "_stk_" ++ band ++ "_unconv.fits")%string /\
  local_cell_file cell band ".mask"
  = ("rings_v3_skycell_" ++ projcell_id cell ++ "_" ++ cell_id cell
     ++ "_stk_" ++ band ++ "_unconv_mask.fits")%string.
Proof. exact (local_cell_file_closed cell band). Qed.

(** X18.  The mask [download_ps1_cells] lists for a sub-cell, which it does
    not download into the directory of the rescaled images, is the file
    [linear_rescale_ps1] writes there as the mask of the rescaled
    image. *)
Theorem listed_mask_is_the_mask_of_the_rescaled_image
  (cell : skycell) (band ps1RescaledDir : string) :
  plain (projcell_id cell) -> plain (cell_id cell) -> plain band ->
  rescaled_mask_file ps1RescaledDir (local_cell_file cell band "")
  = (ps1RescaledDir ++ local_cell_file cell band ".mask")%string.
Proof.
  intros HP HC HB.
  destruct (local_cell_file_pieces cell band HP HC HB) as [-> ->].
  unfold rescaled_mask_file. f_equal.
  rewrite split_head_through.
  - rewrite join_snoc by discriminate. now rewrite string_app_assoc.
  - apply has_char_join; [reflexivity|].
    intros s Hs.
    apply (plain_pieces cell band HP HC HB s). apply in_or_app. now left.
Qed.

(** X19.  Two sub-cells, or the image and the mask of a sub-cell, never
    share a local file. *)
Theorem local_cell_files_are_distinct (c1 c2 : skycell)
  (band aux1 aux2 : string) :
  plain (projcell_id c1) -> plain (cell_id c1) ->
  plain (projcell_id c2) -> plain (cell_id c2) -> plain band ->
  In aux1 [""; ".mask"]%string -> In aux2 [""; ".mask"]%string ->
  local_cell_file c1 band aux1 = local_cell_file c2 band aux2 ->
  projcell_id c1 = projcell_id c2 /\ cell_id c1 = cell_id c2 /\
  aux1 = aux2.
Proof.
  intros HP1 HC1 HP2 HC2 HB Ha1 Ha2 E.
  destruct (local_cell_file_closed c1 band HP1 HC1 HB) as [E1 E1'].
  destruct (local_cell_file_closed c2 band HP2 HC2 HB) as [E2 E2'].
  assert (Hsplit : forall t1 t2 : string,
             ("rings_v3_skycell_" ++ projcell_id c1 ++ "_" ++ cell_id c1
              ++ "_stk_" ++ band ++ t1
              = "rings_v3_skycell_" ++ projcell_id c2 ++ "_" ++ cell_id c2
                ++ "_stk_" ++ band ++ t2)%string ->
             projcell_id c1 = projcell_id c2 /\ cell_id c1 = cell_id c2 /\
             t1 = t2).
  { intros t1 t2 H. apply (append_same_head "rings_v3_skycell_") in H.
    apply split_at_first in H; [|apply HP1|apply HP2].
    destruct H as [Hp H]. split; [exact Hp|].
    apply split_at_first in H; [|apply HC1|apply HC2].
    destruct H as [Hc H]. split; [exact Hc|].
    apply (append_same_head "stk_") in H.
    now apply append_same_head in H. }
  destruct Ha1 as [<-|[<-|[]]], Ha2 as [<-|[<-|[]]].
  - rewrite E1, E2 in E. destruct (Hsplit _ _ E) as [? [? _]].
    now repeat split.
  - rewrite E1, E2' in E. destruct (Hsplit _ _ E) as [_ [_ H]].
    discriminate.
  - rewrite E1', E2 in E. destruct (Hsplit _ _ E) as [_ [_ H]].
    discriminate.
  - rewrite E1', E2' in E. destruct (Hsplit _ _ E) as [? [? _]].
    now repeat split.
Qed.

(** ** What [download_ps1_cells] returns and does *)

Section Download.

Local Open Scope list_scope.

Variable world : Type.
Variable isfile : world -> string -> bool.
Variable isdir : world -> string -> bool.
Variable makedirs : string -> world -> world.
Variable system : string -> world -> world.
Variable linear_rescale_ps1 :
  string -> string -> string -> string -> world -> result world.
Variable scamp : string -> string -> world -> result world.
Variable create_ps1_mosaic :
  list string -> string -> string -> string -> world
  -> result (list string * world).

Local Abbreviation download_file :=
  (@PS1Files.download_file world isfile system linear_rescale_ps1 scamp).
Local Abbreviation download_ps1_cells :=
  (@PS1Files.download_ps1_cells world isfile system linear_rescale_ps1
                                 scamp).
Local Abbreviation prepare_PS1_sub :=
  (@PS1Files.prepare_PS1_sub world isfile isdir makedirs system
                              linear_rescale_ps1 scamp create_ps1_mosaic).

Lemma download_file_list band D R cell fl w aux st' :
  download_file band D R cell (fl, w) aux = Ok st' ->
  fst st' = fl ++ [(R ++ local_cell_file cell band aux)%string].
Proof.
  unfold PS1Files.download_file. intro H.
  match type of H with
  | bind ?r _ = Ok _ => destruct r; cbn [bind] in H; [|discriminate]
  end.
  now injection H as <-.
Qed.

Lemma download_cell_list band D R cell fl w st' :
  fold_result (download_file band D R cell) [""; ".mask"]%string (fl, w)
  = Ok st' ->
  fst st' = fl ++ listed_files band R cell.
Proof.
  cbn [fold_result]. intro H.
  destruct (download_file band D R cell (fl, w) "") as [[fl1 w1]|] eqn:E1;
    cbn [bind] in H; [|discriminate].
  destruct (download_file band D R cell (fl1, w1) ".mask") as [st2|] eqn:E2;
    cbn [bind] in H; [|discriminate].
  injection H as <-.
  apply download_file_list in E1. apply download_file_list in E2.
  cbn [fst] in E1. rewrite E2, E1, <- app_assoc. reflexivity.
Qed.

Lemma download_cells_list band D R (cells : list skycell) :
  forall fl w st',
    fold_result
      (fun st cell =>
         fold_result (download_file band D R cell) [""; ".mask"]%string st)
      cells (fl, w) = Ok st' ->
    fst st' = fl ++ flat_map (listed_files band R) cells.
Proof.
  set (step := fun st cell =>
                 fold_result (download_file band D R cell)
                             [""; ".mask"]%string st).
  induction cells as [|cell cells IH]; intros fl w st' H;
    cbn [fold_result] in H.
  - injection H as <-. cbn [fst flat_map]. now rewrite app_nil_r.
  - destruct (step (fl, w) cell) as [[fl1 w1]|] eqn:E; cbn [bind] in H;
      [|discriminate].
    unfold step in E. apply download_cell_list in E. cbn [fst] in E.
    rewrite (IH _ _ _ H), E, <- app_assoc. reflexivity.
Qed.

(** X20.  Whatever is on the disk and whatever the downloads give,
    [download_ps1_cells] lists two files for each sub-cell, in the order
    of the table: the rescaled image and its mask, both in the directory
    of the rescaled images, whether they exist or not. *)
Theorem download_ps1_cells_lists_two_files_per_cell
  band D R (cells : list skycell) w files w' :
  download_ps1_cells cells band D R w = Ok (files, w') ->
  files = flat_map (listed_files band R) cells /\
  List.length files = (2 * List.length cells)%nat.
Proof.
  unfold PS1Files.download_ps1_cells. intro H.
  apply download_cells_list in H. cbn [fst] in H.
  change ([] ++ flat_map (listed_files band R) cells)
    with (flat_map (listed_files band R) cells) in H.
  subst files. split; [reflexivity|]. clear w w'.
  induction cells as [|c cells IH]; [reflexivity|].
  cbn [flat_map listed_files List.app List.length].
  rewrite IH. lia.
Qed.

Lemma download_file_cached band D R cell fl w aux :
  isfile w (D ++ local_cell_file cell band aux)%string = true ->
  (aux = ""%string ->
   isfile w (R ++ local_cell_file cell band aux)%string = true) ->
  download_file band D R cell (fl, w) aux
  = Ok (fl ++ [(R ++ local_cell_file cell band aux)%string], w).
Proof.
  intros H1 H2. unfold PS1Files.download_file. rewrite H1.
  destruct (String.eqb aux "") eqn:E; [|reflexivity].
  apply String.eqb_eq in E. rewrite H1, (H2 E). reflexivity.
Qed.

Lemma download_cells_cached band D R (cells : list skycell) w :
  (forall cell, In cell cells ->
     isfile w (D ++ local_cell_file cell band "")%string = true /\
     isfile w (D ++ local_cell_file cell band ".mask")%string = true /\
     isfile w (R ++ local_cell_file cell band "")%string = true) ->
  forall fl,
    fold_result
      (fun st cell =>
         fold_result (download_file band D R cell) [""; ".mask"]%string st)
      cells (fl, w)
    = Ok (fl ++ flat_map (listed_files band R) cells, w).
Proof.
  set (step := fun st cell =>
                 fold_result (download_file band D R cell)
                             [""; ".mask"]%string st).
  induction cells as [|cell cells IH]; intros H fl; cbn [fold_result].
  - cbn [flat_map]. now rewrite app_nil_r.
  - destruct (H cell (or_introl eq_refl)) as [H1 [H2 H3]].
    assert (E : step (fl, w) cell = Ok (fl ++ listed_files band R cell, w)).
    { unfold step. cbn [fold_result].
      rewrite download_file_cached by (auto; intros _; exact H3).
      cbn [bind].
      rewrite download_file_cached by (auto; discriminate).
      cbn [bind listed_files]. now rewrite <- app_assoc. }
    rewrite E. cbn [bind]. rewrite IH by (intros; apply H; now right).
    cbn [flat_map]. now rewrite <- app_assoc.
Qed.

(** X21.  When the two files of every sub-cell are in [ps1Dir] and the
    rescaled image of every sub-cell is in [ps1RescaledDir],
    [download_ps1_cells] returns its list and leaves the world as it
    is: it runs no command, rescales nothing and does not raise. *)
Theorem download_ps1_cells_with_all_files_present
  band D R (cells : list skycell) w :
  (forall cell, In cell cells ->
     isfile w (D ++ local_cell_file cell band "")%string = true /\
     isfile w (D ++ local_cell_file cell band ".mask")%string = true /\
     isfile w (R ++ local_cell_file cell band "")%string = true) ->
  download_ps1_cells cells band D R w
  = Ok (flat_map (listed_files band R) cells, w).
Proof.
  intro H. exact (download_cells_cached band D R cells w H []).
Qed.

Lemma pairs_of_listed inputimage band R (cells : list skycell) :
  pairs_of inputimage (flat_map (listed_files band R) cells)
  = Ok (map (fun cell =>
               (inputimage,
                (R ++ local_cell_file cell band "")%string,
                (R ++ local_cell_file cell band ".mask")%string))
            cells).
Proof.
  induction cells as [|cell cells IH]; [reflexivity|].
  cbn [flat_map map]. unfold listed_files at 1.
  cbn [List.app pairs_of]. now rewrite IH.
Qed.

(** X22.  With the method individual, [prepare_PS1_sub] returns, when
    [download_ps1_cells] returns, one triple for each sub-cell: the
    input image, the rescaled image of the sub-cell and its mask.  The
    files are taken two by two without an [IndexError]. *)
Theorem prepare_PS1_sub_pairs_image_and_mask
  (cells : list skycell) band inputimage w :
  prepare_PS1_sub cells band inputimage "individual" w
  = bind (download_ps1_cells cells band "ps1Dir/" "ps1RescaledDir/"
            (let w1 := if isdir w "ps1Dir/" then w
                       else makedirs "ps1Dir/" w in
             if isdir w1 "ps1RescaledDir/" then w1
             else makedirs "ps1RescaledDir/" w1))
         (fun d =>
            Ok (map (fun cell =>
                       (inputimage,
                        ("ps1RescaledDir/"
                         ++ local_cell_file cell band "")%string,
                        ("ps1RescaledDir/"
                         ++ local_cell_file cell band ".mask")%string))
                    cells,
                snd d)).
Proof.
  unfold PS1Files.prepare_PS1_sub.
  destruct (os_path_split inputimage) as [path filenameInput].
  cbv zeta.
  match goal with
  | |- bind ?r _ = _ => destruct r as [[files w']|] eqn:E
  end; [|reflexivity].
  cbn [bind snd].
  change (String.eqb "individual" "mosaic") with false.
  change (String.eqb "individual" "individual") with true. cbv iota.
  unfold PS1Files.download_ps1_cells in E.
  apply download_cells_list in E. cbn [fst] in E.
  change ([] ++ flat_map (listed_files band "ps1RescaledDir/") cells)
    with (flat_map (listed_files band "ps1RescaledDir/") cells) in E.
  subst files. rewrite pairs_of_listed. reflexivity.
Qed.

End Download.

(** ** The properties on the first sub-cell of the scenarios *)

Lemma local_cell_file_text_witness :
  local_cell_file Scenario.first_cell "g" ""
  = "rings_v3_skycell_0102_000_stk_g_unconv.fits"%string /\
  local_cell_file Scenario.first_cell "g" ".mask"
  = "rings_v3_skycell_0102_000_stk_g_unconv_mask.fits"%string.
Proof.
  apply (local_cell_file_text Scenario.first_cell "g");
    repeat split; reflexivity.
Defined.

Lemma listed_mask_is_the_mask_of_the_rescaled_image_witness :
  rescaled_mask_file "ps1RescaledDir/"
                     (local_cell_file Scenario.first_cell "g" "")
  = ("ps1RescaledDir/"
     ++ local_cell_file Scenario.first_cell "g" ".mask")%string.
Proof.
  apply (listed_mask_is_the_mask_of_the_rescaled_image
           Scenario.first_cell "g" "ps1RescaledDir/");
    repeat split; reflexivity.
Defined.

Lemma local_cell_files_are_distinct_witness :
  projcell_id Scenario.first_cell = projcell_id Scenario.first_cell /\
  cell_id Scenario.first_cell = cell_id Scenario.first_cell /\
  ""%string = ""%string.
Proof.
  apply (local_cell_files_are_distinct Scenario.first_cell
           Scenario.first_cell "g" "" "");
    try (repeat split; reflexivity); now left.
Defined.

Lemma download_ps1_cells_lists_two_files_per_cell_witness :
  listed_files "g" "ps1RescaledDir/" Scenario.first_cell
  = flat_map (listed_files "g" "ps1RescaledDir/") [Scenario.first_cell] /\
  List.length (listed_files "g" "ps1RescaledDir/" Scenario.first_cell)
  = (2 * List.length [Scenario.first_cell])%nat.
Proof.
  apply (download_ps1_cells_lists_two_files_per_cell
           Runs.disk Runs.on_disk Runs.no_effect Runs.rescale_returns
           Runs.scamp_returns "g" "ps1Dir/" "ps1RescaledDir/"
           [Scenario.first_cell] [] _ []).
  vm_compute. reflexivity.
Defined.

Lemma download_ps1_cells_with_all_files_present_witness :
  PS1Files.download_ps1_cells Runs.on_disk Runs.no_effect
    Runs.rescale_returns Runs.scamp_returns
    [Scenario.first_cell] "g" "ps1Dir/" "ps1RescaledDir/"
    Runs.disk_first_cell
  = Ok (flat_map (listed_files "g" "ps1RescaledDir/") [Scenario.first_cell],
        Runs.disk_first_cell).
Proof.
  apply (download_ps1_cells_with_all_files_present
           Runs.disk Runs.on_disk Runs.no_effect Runs.rescale_returns
           Runs.scamp_returns "g" "ps1Dir/" "ps1RescaledDir/"
           [Scenario.first_cell] Runs.disk_first_cell).
  intros cell [<-|[]]. vm_compute. repeat split.
Defined.

End FilesFacts.

(** * The prefixes of the lists *)

Module PrefixFacts.

Import Stacking StackingRun.

(** ** Paths *)

Lemma split_last_slash_name (name : string) :
  has_char "/" name = false -> split_last_slash name = (EmptyString, name).
Proof.
  induction name as [|a name IH]; intro H; [reflexivity|].
  cbn [has_char] in H. apply orb_false_iff in H. destruct H as [Ha Hn].
  cbn [split_last_slash]. rewrite (IH Hn), Ha. reflexivity.
Qed.

Lemma split_last_slash_dir (dir name : string) :
  has_char "/" name = false ->
  split_last_slash (dir ++ String "/" name)
  = ((dir ++ "/")%string, name).
Proof.
  intro H. induction dir as [|a dir IH]; cbn [append split_last_slash].
  - rewrite (split_last_slash_name name H), Ascii.eqb_refl. reflexivity.
  - rewrite IH. destruct (Ascii.eqb a "/"); [reflexivity|].
    now destruct dir.
Qed.

Lemma os_path_split_tail (dir name : string) :
  has_char "/" name = false ->
  snd (os_path_split (dir ++ String "/" name)) = name.
Proof.
  intro H. unfold os_path_split.
  rewrite (split_last_slash_dir dir name H). reflexivity.
Qed.

Lemma split_last_dot_list (name : string) :
  split_last_dot (name ++ ".list") = Some (name, "list"%string).
Proof.
  induction name as [|a name IH]; [reflexivity|].
  cbn [append split_last_dot]. now rewrite IH.
Qed.

Lemma all_dots_other (c : ascii) (s : string) :
  Ascii.eqb c "." = false -> has_char c s = true -> all_dots s = false.
Proof.
  intro Hc. induction s as [|a s IH]; intro H; [discriminate|].
  cbn [has_char] in H. cbn [all_dots].
  destruct (Ascii.eqb a c) eqn:E.
  - apply Ascii.eqb_eq in E. subst a. now rewrite Hc.
  - cbn [orb] in H. rewrite (IH H). apply andb_false_r.
Qed.

Lemma splitext_root_list (name : string) :
  has_char "/" name = false -> has_char "_" name = true ->
  splitext_root (name ++ ".list") = name.
Proof.
  intros Hs Hu. unfold splitext_root.
  rewrite split_last_slash_name
    by (rewrite has_char_app, Hs; reflexivity).
  rewrite split_last_dot_list.
  now rewrite (all_dots_other "_" name eq_refl Hu).
Qed.

(** ** Pieces *)

Lemma split_on_none (c : ascii) (s : string) :
  has_char c s = false -> split_on c s = [s].
Proof.
  induction s as [|a s IH]; intro H; [reflexivity|].
  cbn [has_char] in H. apply orb_false_iff in H. destruct H as [Ha Hs].
  cbn [split_on]. now rewrite Ha, (IH Hs).
Qed.

Lemma fold_prefi (l : list string) :
  forall acc,
    fold_left (fun prefi piece => (prefi ++ piece ++ "_")%string) l acc
    = (acc ++ fold_left (fun prefi piece => (prefi ++ piece ++ "_")%string)
                        l EmptyString)%string.
Proof.
  induction l as [|p l IH]; intro acc; cbn [fold_left].
  - now rewrite string_app_nil_r.
  - rewrite IH. rewrite (IH (EmptyString ++ p ++ "_")%string).
    cbn [append]. now rewrite string_app_assoc.
Qed.

Lemma prefi_two (p q : string) (ps : list string) :
  prefi (p :: q :: ps) = (p ++ String "_" (prefi (q :: ps)))%string.
Proof.
  unfold prefi. change (removelast (p :: q :: ps))
    with (p :: removelast (q :: ps)).
  cbn [fold_left]. rewrite fold_prefi. cbn [append].
  now rewrite string_app_assoc.
Qed.

(** The pieces but the last one, joined again: the text up to its last
    underscore, with this underscore. *)
Lemma prefi_split_on (a b : string) :
  has_char "_" b = false ->
  prefi (split_on "_" (a ++ String "_" b)) = (a ++ "_")%string.
Proof.
  intro Hb. induction a as [|x a IH]; cbn [append split_on].
  - rewrite Ascii.eqb_refl, (split_on_none "_" b Hb). reflexivity.
  - destruct (split_on "_" (a ++ String "_" b)) as [|p [|q ps]] eqn:E.
    + exfalso. unfold prefi in IH. cbn [removelast fold_left] in IH.
      destruct a; discriminate.
    + exfalso. unfold prefi in IH. cbn [removelast fold_left] in IH.
      destruct a; discriminate.
    + destruct (Ascii.eqb x "_") eqn:Ex.
      * apply Ascii.eqb_eq in Ex. subst x.
        rewrite (prefi_two EmptyString p (q :: ps)), IH. reflexivity.
      * rewrite prefi_two. rewrite prefi_two in IH.
        cbn [append]. now rewrite IH.
Qed.

(** ** The names of [makelists] *)

Lemma has_slash_uint d : has_char "/" (NilEmpty.string_of_uint d) = false.
Proof. induction d; simpl; auto. Qed.

Lemma has_slash_zeros n : has_char "/" (zeros n) = false.
Proof. induction n; simpl; auto. Qed.

Lemma fmt_03d_no_slash (n : Z) : has_char "/" (fmt_03d n) = false.
Proof.
  unfold fmt_03d, pad0. destruct (n <? 0)%Z eqn:Hn.
  - destruct (str_int_nonneg (Z.abs n)) as [d [_ ->]]; [lia|].
    simpl. now rewrite has_char_app, has_slash_zeros, has_slash_uint.
  - apply Z.ltb_ge in Hn. destruct (str_int_nonneg n Hn) as [d [_ ->]].
    now rewrite has_char_app, has_slash_zeros, has_slash_uint.
Qed.

Lemma has_char_remove (c d : ascii) (s : string) :
  has_char c s = false -> has_char c (remove_char d s) = false.
Proof.
  induction s as [|a s IH]; intro H; [reflexivity|].
  cbn [has_char] in H. apply orb_false_iff in H. destruct H as [Ha Hs].
  cbn [remove_char]. destruct (Ascii.eqb a d); [now apply IH|].
  cbn [has_char]. now rewrite Ha, IH.
Qed.

Section Names.

Variable str_round3 : Q -> string.

(** The name of a list without the number of its epoch. *)
Lemma group_name_field tel band ra dec field_id epoch_id :
  group_name str_round3 tel band ra dec field_id epoch_id
  = ((remove_char " " tel ++ "_" ++ remove_char " " band ++ "_"
      ++ remove_char "." (str_round3 ra) ++ "_"
      ++ remove_char "." (str_round3 dec) ++ "_field_"
      ++ fmt_03d field_id)
     ++ String "_" (fmt_03d epoch_id))%string.
Proof.
  unfold group_name. repeat rewrite string_app_assoc. reflexivity.
Qed.

(** X23.  From the path of the list of a group, [stacking] takes as prefix
    the name of the group without the number of its epoch, when the
    telescope, the filter and the texts of the coordinates hold no
    slash: the lists of the epochs of a field have one prefix, and the
    prefix followed by the number of the epoch is the name of the
    list. *)
Theorem list_prefix_is_the_name_without_the_epoch
  path_lists tel band ra dec field_id epoch_id :
  has_char "/" tel = false -> has_char "/" band = false ->
  has_char "/" (str_round3 ra) = false ->
  has_char "/" (str_round3 dec) = false ->
  list_prefix
    (list_path path_lists
       (group_name str_round3 tel band ra dec field_id epoch_id))
  = (remove_char " " tel ++ "_" ++ remove_char " " band ++ "_"
     ++ remove_char "." (str_round3 ra) ++ "_"
     ++ remove_char "." (str_round3 dec) ++ "_field_"
     ++ fmt_03d field_id ++ "_")%string /\
  (list_prefix
     (list_path path_lists
        (group_name str_round3 tel band ra dec field_id epoch_id))
   ++ fmt_03d epoch_id)%string
  = group_name str_round3 tel band ra dec field_id epoch_id.
Proof.
  intros Ht Hb Hra Hdec.
  set (name := group_name str_round3 tel band ra dec field_id epoch_id).
  assert (Hslash : has_char "/" name = false).
  { unfold name, group_name.
    repeat (rewrite has_char_app; apply orb_false_iff; split);
      try reflexivity; try apply fmt_03d_no_slash;
      now apply has_char_remove. }
  assert (Hund : has_char "_" name = true).
  { unfold name. rewrite group_name_field, has_char_app.
    cbn [has_char]. rewrite Ascii.eqb_refl. apply orb_true_r. }
  assert (Hp : list_prefix (list_path path_lists name)
               = ((remove_char " " tel ++ "_" ++ remove_char " " band ++ "_"
                   ++ remove_char "." (str_round3 ra) ++ "_"
                   ++ remove_char "." (str_round3 dec) ++ "_field_"
                   ++ fmt_03d field_id) ++ "_")%string).
  { unfold list_prefix, splitfilename, list_path.
    change ("/" ++ name ++ ".list")%string
      with (String "/" (name ++ ".list")).
    rewrite os_path_split_tail
      by (rewrite has_char_app, Hslash; reflexivity).
    rewrite (splitext_root_list name Hslash Hund).
    unfold name. rewrite group_name_field.
    apply prefi_split_on. apply fmt_03d_no_underscore. }
  split.
  - rewrite Hp. repeat rewrite string_app_assoc. reflexivity.
  - rewrite Hp. unfold name. rewrite group_name_field.
    repeat rewrite string_app_assoc. reflexivity.
Qed.

End Names.

Lemma list_prefix_is_the_name_without_the_epoch_witness :
  list_prefix (list_path "/tmp/lists"
                 (group_name Runs.no_text "T" "F" 10 0 1 2))
  = "T_F_x_x_field_001_"%string /\
  (list_prefix (list_path "/tmp/lists"
                  (group_name Runs.no_text "T" "F" 10 0 1 2))
   ++ fmt_03d 2)%string
  = group_name Runs.no_text "T" "F" 10 0 1 2.
Proof.
  apply (list_prefix_is_the_name_without_the_epoch Runs.no_text
           "/tmp/lists" "T" "F" 10 0 1%Z 2%Z); reflexivity.
Defined.

End PrefixFacts.

(** * The loop of [substraction] *)

Module SubstractionFacts.

Import PS1 PS1Files Substraction.

Section Substraction.

Variable world : Type.
Variable regis_info : Type.
Variable sub_files : Type.
Variable isfile : world -> string -> bool.
Variable isdir : world -> string -> bool.
Variable makedirs : string -> world -> world.
Variable system : string -> world -> world.
Variable linear_rescale_ps1 :
  string -> string -> string -> string -> world -> result world.
Variable scamp : string -> string -> world -> result world.
Variable create_ps1_mosaic :
  list string -> string -> string -> string -> world
  -> result (list string * world).
Variable mkdir_p : string -> world -> world.
Variable get_corner_coords : world -> string -> footprint.
Variable get_phot_cat : world -> string -> string.
Variable wcs_pix2world : Q * Q -> Q * Q -> Q * Q -> Q * Q -> Q * Q.
Variable intersects : list (Q * Q) -> list (Q * Q) -> bool.
Variable ps1grid : list zone.
Variable registration :
  list (string * string * string) -> string -> world -> regis_info * world.
Variable hotpants : regis_info -> world -> sub_files * world.

Local Abbreviation image_step :=
  (@Substraction.image_step world regis_info sub_files isfile isdir makedirs
     system linear_rescale_ps1 scamp create_ps1_mosaic mkdir_p
     get_corner_coords get_phot_cat wcs_pix2world intersects ps1grid
     registration hotpants).
Local Abbreviation substraction :=
  (@Substraction.substraction world regis_info sub_files isfile isdir
     makedirs system linear_rescale_ps1 scamp create_ps1_mosaic mkdir_p
     get_corner_coords get_phot_cat wcs_pix2world intersects ps1grid
     registration hotpants).

Local Abbreviation prepare_PS1_sub :=
  (@PS1Files.prepare_PS1_sub world isfile isdir makedirs system
     linear_rescale_ps1 scamp create_ps1_mosaic).

(** One image: the step returns with [outLevel] other than 0 only;
    for the reference ps1 and the software hotpants it runs [ps1_grid],
    [prepare_PS1_sub], [registration] and [hotpants] on the image, and
    the result of [hotpants] is assigned to [subFiles]; otherwise it
    leaves [subFiles] as it was. *)
Lemma image_step_cases reference soft method outLevel subFiles w ima st' :
  image_step reference soft method outLevel (subFiles, w) ima = Ok st' ->
  outLevel <> 0%Z /\
  ((reference = "ps1"%string /\ soft = "hotpants"%string /\
    exists cells subfiles w1 regis w2 v,
      ps1_grid wcs_pix2world intersects ps1grid
               (get_corner_coords (mkdir_p (resultDir_of ima) w) ima)
      = Ok cells /\
      prepare_PS1_sub cells
        (ps1_band (get_phot_cat (mkdir_p (resultDir_of ima) w) ima))
        ima method (mkdir_p (resultDir_of ima) w) = Ok (subfiles, w1) /\
      registration subfiles (resultDir_of ima) w1 = (regis, w2) /\
      hotpants regis w2 = (v, snd st') /\ fst st' = Some v) \/
   ((reference <> "ps1"%string \/ soft <> "hotpants"%string) /\
    fst st' = subFiles)).
Proof.
  unfold Substraction.image_step. intro H.
  match type of H with
  | bind ?r _ = Ok _ => destruct r as [st1|] eqn:E; cbn [bind] in H;
                        [|discriminate]
  end.
  destruct (outLevel =? 0)%Z eqn:Ho; [discriminate|].
  apply Z.eqb_neq in Ho. injection H as <-. split; [exact Ho|].
  destruct (String.eqb reference "ps1") eqn:Er.
  2:{ apply String.eqb_neq in Er. injection E as <-. right. split; auto. }
  apply String.eqb_eq in Er.
  destruct (ps1_grid wcs_pix2world intersects ps1grid _) as [cells|] eqn:Eg;
    cbn [bind] in E; [|discriminate].
  match type of E with
  | bind ?r _ = Ok _ => destruct r as [[subfiles w1]|] eqn:Ep;
                        cbn [bind] in E; [|discriminate]
  end.
  destruct (registration subfiles (resultDir_of ima) w1) as [regis w2] eqn:Eg2.
  destruct (String.eqb soft "hotpants") eqn:Es.
  2:{ apply String.eqb_neq in Es. injection E as <-. right. split; auto. }
  apply String.eqb_eq in Es.
  destruct (hotpants regis w2) as [out w3] eqn:Eh.
  injection E as <-. left. cbn [fst snd].
  split; [exact Er|]. split; [exact Es|].
  exists cells, subfiles, w1, regis, w2, out. now repeat split.
Qed.

(** A loop over a list that ends with [b] is the loop over the list
    before [b], then the step for [b]. *)
Lemma fold_result_snoc (A B : Type) (f : A -> B -> result A) (l : list B)
  (b : B) :
  forall a, fold_result f (l ++ [b]) a = bind (fold_result f l a)
                                              (fun a0 => f a0 b).
Proof.
  induction l as [|c l IH]; intro a; cbn [fold_result List.app bind].
  - now destruct (f a b).
  - destruct (f a c) as [a1|]; cbn [bind]; [apply IH|reflexivity].
Qed.

(** X24.  [substraction] returns for a list of images that is not empty, the
    reference ps1, the software hotpants and an [outLevel] other than
    0, and in no other case: with [outLevel] 0 the names [rm_p] and
    [refim] are not defined, and otherwise [subFiles] is not assigned.
    What it returns is what [hotpants] returned for the last image of
    the list - for the registration of that image with the files
    [prepare_PS1_sub] listed for it, in the world the images before
    left; the results of the images before are dropped. *)
Theorem substraction_returns_the_last_result
  filenames reference soft method outLevel w v w' :
  substraction filenames reference soft method outLevel w = Ok (v, w') ->
  reference = "ps1"%string /\ soft = "hotpants"%string /\
  outLevel <> 0%Z /\
  exists before last s0 w0 cells subfiles w1 regis w2,
    filenames = (before ++ [last])%list /\
    fold_result (image_step reference soft method outLevel) before (None, w)
    = Ok (s0, w0) /\
    ps1_grid wcs_pix2world intersects ps1grid
             (get_corner_coords (mkdir_p (resultDir_of last) w0) last)
    = Ok cells /\
    prepare_PS1_sub cells
      (ps1_band (get_phot_cat (mkdir_p (resultDir_of last) w0) last))
      last method (mkdir_p (resultDir_of last) w0) = Ok (subfiles, w1) /\
    registration subfiles (resultDir_of last) w1 = (regis, w2) /\
    hotpants regis w2 = (v, w').
Proof.
  unfold Substraction.substraction. intro H.
  destruct (fold_result _ filenames (None, w)) as [[subFiles wl]|] eqn:E;
    cbn [bind fst snd] in H; [|discriminate].
  destruct subFiles as [v1|]; [|discriminate].
  injection H as -> ->.
  assert (Hne : filenames <> []).
  { intro E0. rewrite E0 in E. cbn [fold_result] in E. discriminate. }
  destruct (exists_last Hne) as [before [last Hl]].
  rewrite Hl, fold_result_snoc in E.
  destruct (fold_result _ before (None, w)) as [[s0 w0]|] eqn:Eb;
    cbn [bind] in E; [|discriminate].
  destruct (image_step_cases _ _ _ _ _ _ _ _ E) as [Ho Hcases].
  destruct Hcases
    as [[Er [Es [cells [subfiles [w1 [regis [w2 [v2 [Hg [Hp [Hr [Hh Hv]]]]]]]]]]]]
       |[Hneg Hsame]].
  - cbn [fst snd] in Hh, Hv. injection Hv as <-.
    split; [exact Er|]. split; [exact Es|]. split; [exact Ho|].
    exists before, last, s0, w0, cells, subfiles, w1, regis, w2.
    now repeat split.
  - exfalso. cbn [fst] in Hsame.
    assert (Hnone : fst (s0, w0) = @None sub_files);
      [|cbn [fst] in Hnone; congruence].
    loop_invariant (fun st : option sub_files * world => fst st = None) Eb.
    + intros [sub1 w3] ima1 st1 _ Hsub Hs. cbn [fst] in Hsub. subst sub1.
      destruct (image_step_cases _ _ _ _ _ _ _ _ Hs) as [_ Hc].
      destruct Hc as [[Er [Es _]]|[_ Hsame']]; [|exact Hsame'].
      destruct Hneg; contradiction.
    + reflexivity.
Qed.

End Substraction.

Lemma substraction_returns_the_last_result_witness :
  "ps1"%string = "ps1"%string /\ "hotpants"%string = "hotpants"%string /\
  1%Z <> 0%Z /\
  exists before last s0 w0 cells subfiles w1 regis w2,
    ["a.fits"; "b.fits"]%string = (before ++ [last])%list /\
    fold_result
      (Substraction.image_step Runs.on_disk Runs.on_disk
         Runs.no_effect Runs.no_effect Runs.rescale_returns
         Runs.scamp_returns SubtractionRun.mosaic_fails Runs.no_effect
         SubtractionRun.corners_in_zone0 SubtractionRun.band_B
         Scenario.flat_projection Scenario.all_overlap Scenario.grid
         SubtractionRun.registration_returns
         SubtractionRun.hotpants_returns "ps1" "hotpants" "individual" 1)
      before (None, [])
    = Ok (s0, w0) /\
    ps1_grid Scenario.flat_projection Scenario.all_overlap Scenario.grid
             (SubtractionRun.corners_in_zone0
                (Runs.no_effect (resultDir_of last) w0) last)
    = Ok cells /\
    PS1Files.prepare_PS1_sub Runs.on_disk Runs.on_disk Runs.no_effect
      Runs.no_effect Runs.rescale_returns Runs.scamp_returns
      SubtractionRun.mosaic_fails cells
      (ps1_band (SubtractionRun.band_B
                   (Runs.no_effect (resultDir_of last) w0) last))
      last "individual" (Runs.no_effect (resultDir_of last) w0)
    = Ok (subfiles, w1) /\
    SubtractionRun.registration_returns subfiles (resultDir_of last) w1
    = (regis, w2) /\
    SubtractionRun.hotpants_returns regis w2
    = (["img_sub.fits"%string], []).
Proof.
  apply (substraction_returns_the_last_result
           Runs.disk nat (list string) Runs.on_disk Runs.on_disk
           Runs.no_effect Runs.no_effect Runs.rescale_returns
           Runs.scamp_returns SubtractionRun.mosaic_fails Runs.no_effect
           SubtractionRun.corners_in_zone0 SubtractionRun.band_B
           Scenario.flat_projection Scenario.all_overlap Scenario.grid
           SubtractionRun.registration_returns
           SubtractionRun.hotpants_returns
           ["a.fits"; "b.fits"]%string "ps1" "hotpants" "individual" 1 []).
  vm_compute. reflexivity.
Defined.

End SubstractionFacts.
